(** * Stockfish thread pool (thread.cpp): split points and worker threads

    A shallow embedding of [src/thread.cpp]: [Thread::cutoff_occurred],
    [Thread::is_available_to], [ThreadPool::split] and
    [TimerThread::idle_loop], with the properties of the split-point
    protocol proved about them.

    Conventions of the embedding.
    - A [Thread*] is the position of the thread in [ThreadPool::threads];
      a [SplitPoint*] is a pair (thread, slot) naming an element of that
      thread's [splitPoints] array, the only place where split points live.
    - [Position&], [Move*], [MovePicker&] and [Stack*] are addresses into
      heaps that are part of the machine state.
    - Lock, unlock, notify and wait calls are recorded, in program order,
      in an event trace carried by the state.
    - Code with undefined behaviour (an array index out of bounds, a
      dangling pointer, a shift by the width of the type, an overflow of
      a signed integer), a failed [assert] and a call that does not come
      back are results of their own, see [result]. *)

From stdpp Require Import base list gmap.
From Stdlib Require Import ZArith Lia.

Local Open Scope Z_scope.

(** ** Results of fallible code *)

Inductive result (A : Type) : Type :=
  | Ok (a : A)      (* the code ran to its end and produced [a] *)
  | AssertFailed    (* an [assert] did not hold *)
  | Undefined       (* undefined behaviour: index, pointer, shift, overflow *)
  | NoReturn.       (* no return (within the fuel given, where there is fuel) *)

Arguments Ok {A} a.
Arguments AssertFailed {A}.
Arguments Undefined {A}.
Arguments NoReturn {A}.

#[global] Instance result_ret : MRet result := fun A a => Ok a.

#[global] Instance result_bind : MBind result := fun A B f m =>
  match m with
  | Ok a => f a
  | AssertFailed => AssertFailed
  | Undefined => Undefined
  | NoReturn => NoReturn
  end.

(** [assert(c)] *)
Definition assert (c : bool) : result unit :=
  if c then Ok tt else AssertFailed.

(** Dereferencing a pointer: [None] is an address with nothing behind it. *)
Definition deref {A} (o : option A) : result A :=
  match o with
  | Some a => Ok a
  | None => Undefined
  end.

(** [a[i]] for a C array [a] of [cap] elements. *)
Definition at_index {A} (cap : Z) (a : list A) (i : Z) : result A :=
  if (0 <=? i) && (i <? cap) then deref (a !! Z.to_nat i) else Undefined.

(** ** Machine integers

    [slavesMask] is a [uint64_t] and its operations are written out on 64
    bits. The node counters ([Position::nodes_searched()],
    [SplitPoint::nodes]) are [int64_t]. The [int] counters of the file
    ([splitPointsSize], [slavesCnt]) stay between 0 and the size of a
    container and are taken in [Z]. *)

Definition INT_MAX : Z := 2147483647.

Definition INT64_MIN : Z := - 2 ^ 63.
Definition INT64_MAX : Z := 2 ^ 63 - 1.

(** The value of [x << n] in [uint64_t] for [n] below 64: bits shifted
    out are lost. *)
Definition shl64 (x : Z) (n : nat) : Z :=
  Z.shiftl x (Z.of_nat n) mod 2 ^ 64.

(** [x << n] for an [unsigned long long] [x]: a shift by the width of the
    type or more is undefined behaviour. *)
Definition shl_ull (x : Z) (n : nat) : result Z :=
  if (n <? 64)%nat then Ok (shl64 x n) else Undefined.

(** [a + b] for two [int64_t]: a sum outside the range of the type is
    undefined behaviour. *)
Definition add_int64 (a b : Z) : result Z :=
  if (INT64_MIN <=? a + b) && (a + b <=? INT64_MAX) then Ok (a + b)
  else Undefined.

(** ** Plain data *)

Definition Value := Z.
Definition Move := Z.
Definition Depth := Z.
Definition addr := nat.

(** A [SplitPoint*]: the owning thread and the slot in its [splitPoints]. *)
Definition SplitPointRef : Type := nat * nat.

Inductive Mutex : Type :=
  | PoolMutex                       (* [ThreadPool::mutex] *)
  | SplitPointMutex (r : SplitPointRef)   (* [SplitPoint::mutex] *)
  | ThreadMutex (i : nat)           (* [Thread::mutex] of [threads[i]] *)
  | TimerMutex.                     (* [Thread::mutex] of the timer thread *)

Inductive Event : Type :=
  | Lock (m : Mutex)
  | Unlock (m : Mutex)
  | NotifyOne (i : nat)             (* [threads[i]->sleepCondition.notify_one()] *)
  | WaitFor (ms : Z)                (* [sleepCondition.wait_for(mutex, ms)] of the timer *)
  | CheckTime.                      (* [check_time()] *)

#[global] Instance Mutex_eq_dec : EqDecision Mutex.
Proof. solve_decision. Defined.

#[global] Instance Event_eq_dec : EqDecision Event.
Proof. solve_decision. Defined.

(** ** SplitPoint *)

Module SplitPoint.

Record t : Type := mk {
  master : nat;
  parent : option SplitPointRef;
  slavesMask : Z;
  depth : Depth;
  bestMove : Move;
  threatMove : Move;
  alpha : Value;
  beta : Value;
  nodeType : Z;
  bestValue : Value;
  mp : addr;
  moveCount : Z;
  pos : addr;
  nodes : Z;
  cutoff : bool;
  ss : addr
}.

(** [sp.slavesMask = v] *)
Definition set_slavesMask (v : Z) (sp : t) : t :=
  mk (master sp) (parent sp) v (depth sp) (bestMove sp) (threatMove sp)
     (alpha sp) (beta sp) (nodeType sp) (bestValue sp) (mp sp) (moveCount sp)
     (pos sp) (nodes sp) (cutoff sp) (ss sp).

(** [sp.nodes = v] *)
Definition set_nodes (v : Z) (sp : t) : t :=
  mk (master sp) (parent sp) (slavesMask sp) (depth sp) (bestMove sp)
     (threatMove sp) (alpha sp) (beta sp) (nodeType sp) (bestValue sp) (mp sp)
     (moveCount sp) (pos sp) v (cutoff sp) (ss sp).

(** [sp.cutoff = v] *)
Definition set_cutoff (v : bool) (sp : t) : t :=
  mk (master sp) (parent sp) (slavesMask sp) (depth sp) (bestMove sp)
     (threatMove sp) (alpha sp) (beta sp) (nodeType sp) (bestValue sp) (mp sp)
     (moveCount sp) (pos sp) (nodes sp) v (ss sp).

End SplitPoint.

(** ** Thread *)

Module Thread.

Record t : Type := mk {
  searching : bool;
  exit : bool;
  maxPly : Z;
  splitPointsSize : Z;
  activeSplitPoint : option SplitPointRef;
  idx : nat;
  splitPoints : list SplitPoint.t
}.

Definition set_searching (b : bool) (th : t) : t :=
  mk b (exit th) (maxPly th) (splitPointsSize th) (activeSplitPoint th)
     (idx th) (splitPoints th).

Definition set_splitPointsSize (n : Z) (th : t) : t :=
  mk (searching th) (exit th) (maxPly th) n (activeSplitPoint th)
     (idx th) (splitPoints th).

Definition set_activeSplitPoint (r : option SplitPointRef) (th : t) : t :=
  mk (searching th) (exit th) (maxPly th) (splitPointsSize th) r
     (idx th) (splitPoints th).

Definition set_splitPoints (l : list SplitPoint.t) (th : t) : t :=
  mk (searching th) (exit th) (maxPly th) (splitPointsSize th)
     (activeSplitPoint th) (idx th) l.

Section WithCapacity.

(** The capacity of [Thread::splitPoints], a constant of thread.h. *)
Variable MAX_SPLITPOINTS_PER_THREAD : Z.

(** [*r] for a [SplitPoint* r]. *)
Definition read_sp (threads : list t) (r : SplitPointRef) : result SplitPoint.t :=
  th ← deref (threads !! r.1);
  at_index MAX_SPLITPOINTS_PER_THREAD (splitPoints th) (Z.of_nat r.2).

(** [Thread::cutoff_occurred], thread.cpp:147-154. The [for] loop follows
    [parent] pointers; [fuel] bounds the number of split points visited. *)
Fixpoint cutoff_occurred_from (fuel : nat) (threads : list t)
    (sp : option SplitPointRef) : result bool :=
  match sp with
  | None => Ok false
  | Some r =>
      match fuel with
      | O => NoReturn
      | S fuel' =>
          p ← read_sp threads r;
          if SplitPoint.cutoff p then Ok true
          else cutoff_occurred_from fuel' threads (SplitPoint.parent p)
      end
  end.

Definition cutoff_occurred (fuel : nat) (threads : list t) (this : t) : result bool :=
  cutoff_occurred_from fuel threads (activeSplitPoint this).

(** [Thread::is_available_to], thread.cpp:164-176, on a thread that other
    threads write while the function runs: [at_searching], [at_size] and
    [at_mask] are the thread as it is when [searching] is read, when
    [splitPointsSize] is copied to the local [size], and when
    [splitPoints[size - 1].slavesMask] is read. The index of the array
    access is the local copy. *)
Definition is_available_to_at (at_searching at_size at_mask master : t)
    : result bool :=
  if searching at_searching then Ok false
  else
    let size := splitPointsSize at_size in
    if size =? 0 then Ok true
    else
      sp ← at_index MAX_SPLITPOINTS_PER_THREAD (splitPoints at_mask) (size - 1);
      bit ← shl_ull 1 (idx master);
      Ok (negb (Z.land (SplitPoint.slavesMask sp) bit =? 0)).

(** [Thread::is_available_to] on a thread that nobody writes meanwhile. *)
Definition is_available_to (this master : t) : result bool :=
  is_available_to_at this this this master.

End WithCapacity.

End Thread.

(** ** Position

    Of [Position] (position.h) the pool uses [this_thread()],
    [nodes_searched()] and [set_nodes_searched()]. *)

Module Position.

Record t : Type := mk {
  thisThread : nat;
  nodes : Z
}.

Definition this_thread (p : t) : nat := thisThread p.

Definition nodes_searched (p : t) : Z := nodes p.

Definition set_nodes_searched (n : Z) (p : t) : t := mk (thisThread p) n.

End Position.

(** ** TimerThread *)

Module TimerThread.

(** [exit] and [msec] are written by other threads ([Thread::~Thread] sets
    [exit] without taking the timer's mutex), so every read of them in one
    pass through the loop is an input, in the order of the reads: the loop
    condition, the test under the mutex, the argument of [wait_for] and the
    test before [check_time]. *)
Record Reads : Type := mkReads {
  exit_at_loop : bool;
  exit_under_mutex : bool;
  msec_at_wait : Z;
  msec_at_check : Z
}.

(** One pass through the body of the [while], thread.cpp:78-86. *)
Definition iteration (o : Reads) : list Event :=
  [Lock TimerMutex]
  ++ (if negb (exit_under_mutex o)
      then [WaitFor (if msec_at_wait o =? 0 then INT_MAX else msec_at_wait o)]
      else [])
  ++ [Unlock TimerMutex]
  ++ (if msec_at_check o =? 0 then [] else [CheckTime]).

(** [TimerThread::idle_loop], thread.cpp:74-88: the events performed, and
    whether the loop has returned once the reads of [env] are used up. *)
Fixpoint idle_loop (env : list Reads) : list Event * bool :=
  match env with
  | [] => ([], false)
  | o :: env' =>
      if exit_at_loop o then ([], true)
      else let '(tr, returned) := idle_loop env' in (iteration o ++ tr, returned)
  end.

(** The passes through the body made on [env]. *)
Fixpoint iterations (env : list Reads) : list Reads :=
  match env with
  | [] => []
  | o :: env' => if exit_at_loop o then [] else o :: iterations env'
  end.

(** The successive values read from [exit]. *)
Definition exit_reads (env : list Reads) : list bool :=
  flat_map (fun o => [exit_at_loop o; exit_under_mutex o]) env.

(** [exit] is set once and never cleared: after a read of [true] every
    later read is [true]. *)
Fixpoint set_once (l : list bool) : Prop :=
  match l with
  | [] => True
  | b :: l' => (b = true → Forall (fun b' => b' = true) l') ∧ set_once l'
  end.

End TimerThread.

(** ** The timer thread and the thread that ends it

    [exit] of the timer thread is written by [Thread::~Thread]
    (thread.cpp:62-67, run by [delete timer] in [ThreadPool::exit]), which
    sets it without taking the timer's mutex and then calls
    [notify_one()]. Here the two threads are taken together: what each
    does is a list of steps, the reads and writes of [exit] among them,
    and an execution interleaves the two lists. *)

Module TimerShutdown.

Import TimerThread.

Inductive Step : Type :=
  | SeesExit (b : bool)      (* a read of [exit] *)
  | SeesMsec (v : Z)         (* a read of [msec] *)
  | Does (e : Event)         (* lock, unlock, [wait_for], [check_time()] *)
  | Wakes                    (* [wait_for] returns, the mutex locked again *)
  | SetsExit (b : bool)      (* [exit = b] *)
  | Notifies.                (* [sleepCondition.notify_one()] of the timer *)

#[global] Instance Step_eq_dec : EqDecision Step.
Proof. solve_decision. Defined.

Inductive Who : Type := Timer | Destroyer.

#[global] Instance Who_eq_dec : EqDecision Who.
Proof. solve_decision. Defined.

(** One pass through the body of the [while], thread.cpp:78-86, with its
    reads; the events are those of [TimerThread.iteration]. *)
Definition pass (o : Reads) : list Step :=
  [Does (Lock TimerMutex); SeesExit (exit_under_mutex o)]
  ++ (if negb (exit_under_mutex o)
      then [SeesMsec (msec_at_wait o);
            Does (WaitFor (if msec_at_wait o =? 0 then INT_MAX else msec_at_wait o));
            Wakes]
      else [])
  ++ [Does (Unlock TimerMutex); SeesMsec (msec_at_check o)]
  ++ (if msec_at_check o =? 0 then [] else [Does CheckTime]).

(** [TimerThread::idle_loop], thread.cpp:74-88, with its reads: the
    steps, and whether the loop has returned once [env] is used up. *)
Fixpoint steps (env : list Reads) : list Step * bool :=
  match env with
  | [] => ([], false)
  | o :: env' =>
      if exit_at_loop o then ([SeesExit true], true)
      else let '(tr, returned) := steps env' in
           (SeesExit false :: pass o ++ tr, returned)
  end.

(** [Thread::~Thread] on the timer thread, thread.cpp:64-65, up to the
    call of [thread_join]: [exit = true], then [notify_one()]
    (thread.cpp:126-131) on the timer's own mutex and condition. *)
Definition destructor : list Step :=
  [SetsExit true; Does (Lock TimerMutex); Notifies; Does (Unlock TimerMutex)].

(** The events among the steps. *)
Definition events (l : list Step) : list Event :=
  flat_map (fun st => match st with Does e => [e] | _ => [] end) l.

(** What the two threads share: [exit], the thread that holds the
    timer's mutex, and whether the timer is parked in [wait_for]. *)
Record Shared : Type := mkShared {
  exit_now : bool;
  holder : option Who;
  waiting : bool
}.

(** [Thread::Thread] clears [exit]; nobody holds the mutex. *)
Definition initial : Shared := mkShared false None false.

(** The effect of one step of thread [w] on what is shared; [None] when
    the step cannot be taken: a read of [exit] gives its present value,
    a mutex is locked only when free and unlocked only by its holder,
    [wait_for] is called with the mutex held, releases it and returns
    with it locked again. *)
Definition act (w : Who) (st : Step) (sh : Shared) : option Shared :=
  match st with
  | SeesExit b =>
      match w with
      | Timer => if bool_decide (b = exit_now sh) then Some sh else None
      | Destroyer => None
      end
  | SeesMsec _ => match w with Timer => Some sh | Destroyer => None end
  | Does (Lock TimerMutex) =>
      match holder sh with
      | None => Some (mkShared (exit_now sh) (Some w) (waiting sh))
      | Some _ => None
      end
  | Does (Unlock TimerMutex) =>
      if bool_decide (holder sh = Some w)
      then Some (mkShared (exit_now sh) None (waiting sh)) else None
  | Does (WaitFor _) =>
      match w with
      | Timer => if bool_decide (holder sh = Some Timer)
                 then Some (mkShared (exit_now sh) None true) else None
      | Destroyer => None
      end
  | Does CheckTime => match w with Timer => Some sh | Destroyer => None end
  | Does _ => None
  | Wakes =>
      match w with
      | Timer => if waiting sh && bool_decide (holder sh = None)
                 then Some (mkShared (exit_now sh) (Some Timer) false) else None
      | Destroyer => None
      end
  | SetsExit b =>
      match w with
      | Destroyer => Some (mkShared b (holder sh) (waiting sh))
      | Timer => None
      end
  | Notifies => match w with Destroyer => Some sh | Timer => None end
  end.

Fixpoint run (ex : list (Who * Step)) (sh : Shared) : option Shared :=
  match ex with
  | [] => Some sh
  | (w, st) :: ex' =>
      match act w st sh with
      | Some sh' => run ex' sh'
      | None => None
      end
  end.

(** The steps of thread [w] in an execution. *)
Definition project (w : Who) (ex : list (Who * Step)) : list Step :=
  flat_map (fun x => if bool_decide (x.1 = w) then [x.2] else []) ex.

(** [ex] is the beginning of an execution in which the timer thread runs
    its loop on the reads [env] while another thread destroys it. *)
Definition execution (env : list Reads) (ex : list (Who * Step)) : Prop :=
  project Timer ex `prefix_of` (steps env).1
  ∧ project Destroyer ex `prefix_of` destructor
  ∧ is_Some (run ex initial).

(** The places of the loop, each named after the step that comes next. *)
Inductive Point : Type :=
  | AtLoopTest | AtLock | AtExitUnderMutex | AtMsecForWait | AtWait (ms : Z)
  | AtWake | AtUnlock | AtMsecForCheck | AtCheckTime | Returned.

(** The place after the step [st] taken at the place [pc]. *)
Definition next (pc : Point) (st : Step) : option Point :=
  match pc, st with
  | AtLoopTest, SeesExit b => Some (if b then Returned else AtLock)
  | AtLock, Does (Lock TimerMutex) => Some AtExitUnderMutex
  | AtExitUnderMutex, SeesExit b => Some (if b then AtUnlock else AtMsecForWait)
  | AtMsecForWait, SeesMsec v => Some (AtWait (if v =? 0 then INT_MAX else v))
  | AtWait ms, Does (WaitFor ms') => if ms =? ms' then Some AtWake else None
  | AtWake, Wakes => Some AtUnlock
  | AtUnlock, Does (Unlock TimerMutex) => Some AtMsecForCheck
  | AtMsecForCheck, SeesMsec v => Some (if v =? 0 then AtLoopTest else AtCheckTime)
  | AtCheckTime, Does CheckTime => Some AtLoopTest
  | _, _ => None
  end.

Fixpoint follow (pc : Point) (l : list Step) : option Point :=
  match l with
  | [] => Some pc
  | st :: l' =>
      match next pc st with
      | Some pc' => follow pc' l'
      | None => None
      end
  end.

(** The steps the timer can still take once it has read [exit] as true
    under the mutex, [v] being what it reads from [msec]. *)
Definition last_steps (v : Z) : list Step :=
  [Does (Unlock TimerMutex); SeesMsec v]
  ++ (if v =? 0 then [] else [Does CheckTime])
  ++ [SeesExit true].

End TimerShutdown.

Module ShutdownDemo.

Import TimerShutdown.

(** [exit] is set after the timer has read it under the mutex and before
    it calls [wait_for]; the notification wakes the timer, whose next
    test of the loop condition ends the loop. *)
Definition late_exit : list (Who * Step) :=
  [(Timer, SeesExit false); (Timer, Does (Lock TimerMutex));
   (Timer, SeesExit false);
   (Destroyer, SetsExit true);
   (Timer, SeesMsec 50); (Timer, Does (WaitFor 50));
   (Destroyer, Does (Lock TimerMutex)); (Destroyer, Notifies);
   (Destroyer, Does (Unlock TimerMutex));
   (Timer, Wakes); (Timer, Does (Unlock TimerMutex)); (Timer, SeesMsec 50);
   (Timer, Does CheckTime); (Timer, SeesExit true)].

Definition late_exit_reads : list TimerThread.Reads :=
  [TimerThread.mkReads false false 50 50; TimerThread.mkReads true true 50 50].

(** [exit] is set after the timer has locked its mutex and before it
    reads [exit] there: the pass sees it under the mutex and skips the
    wait. *)
Definition early_exit : list (Who * Step) :=
  [(Timer, SeesExit false); (Timer, Does (Lock TimerMutex));
   (Destroyer, SetsExit true);
   (Timer, SeesExit true); (Timer, Does (Unlock TimerMutex));
   (Destroyer, Does (Lock TimerMutex)); (Destroyer, Notifies);
   (Destroyer, Does (Unlock TimerMutex));
   (Timer, SeesMsec 50); (Timer, Does CheckTime); (Timer, SeesExit true)].

Definition early_exit_reads : list TimerThread.Reads :=
  [TimerThread.mkReads false true 50 50; TimerThread.mkReads true true 50 50].

End ShutdownDemo.

(** ** ThreadPool and the machine state *)

(** The members of the global [Threads] object, the heaps behind the
    [Position&] and [Move*] arguments of [split], and the event trace. *)
Record State : Type := mkState {
  threads : list Thread.t;
  maxThreadsPerSplitPoint : Z;
  minimumSplitDepth : Depth;
  sleepWhileIdle : bool;
  positions : gmap addr Position.t;
  moves : gmap addr Move;
  trace : list Event
}.

Definition set_threads (l : list Thread.t) (s : State) : State :=
  mkState l (maxThreadsPerSplitPoint s) (minimumSplitDepth s) (sleepWhileIdle s)
          (positions s) (moves s) (trace s).

Definition set_positions (h : gmap addr Position.t) (s : State) : State :=
  mkState (threads s) (maxThreadsPerSplitPoint s) (minimumSplitDepth s)
          (sleepWhileIdle s) h (moves s) (trace s).

Definition set_moves (h : gmap addr Move) (s : State) : State :=
  mkState (threads s) (maxThreadsPerSplitPoint s) (minimumSplitDepth s)
          (sleepWhileIdle s) (positions s) h (trace s).

Definition log (es : list Event) (s : State) : State :=
  mkState (threads s) (maxThreadsPerSplitPoint s) (minimumSplitDepth s)
          (sleepWhileIdle s) (positions s) (moves s) (trace s ++ es).

(** A write through [threads[i]->]. *)
Definition alter_thread (i : nat) (f : Thread.t → Thread.t) (s : State) : State :=
  set_threads (alter f i (threads s)) s.

(** A write through a [SplitPoint&]. *)
Definition alter_sp (r : SplitPointRef) (f : SplitPoint.t → SplitPoint.t)
    (s : State) : State :=
  alter_thread r.1
    (fun th => Thread.set_splitPoints (alter f r.2 (Thread.splitPoints th)) th) s.

(** [Thread::notify_one] on [threads[i]], thread.cpp:126-131. *)
Definition notify_one (i : nat) (s : State) : State :=
  log [Lock (ThreadMutex i); NotifyOne i; Unlock (ThreadMutex i)] s.

(** The threads notified in a trace, in order. *)
Definition notified (tr : list Event) : list nat :=
  flat_map (fun e => match e with NotifyOne i => [i] | _ => [] end) tr.

(** The mutexes locked in a trace, in order. *)
Definition locked (tr : list Event) : list Mutex :=
  flat_map (fun e => match e with Lock m => [m] | _ => [] end) tr.

(** The arguments of a call of [split]. *)
Module Call.

Record t : Type := mk {
  pos : addr;
  ss : addr;
  alpha : Value;
  beta : Value;
  bestValue : Value;
  bestMove : addr;
  depth : Depth;
  threatMove : Move;
  moveCount : Z;
  mp : addr;
  nodeType : Z
}.

End Call.

(** What thread.cpp takes from other files: constants of thread.h and
    types.h, [Position::pos_is_ok] and the base class [Thread::idle_loop]
    (search.cpp), here called on [threads[m]]. *)
Record Externals : Type := mkExternals {
  MAX_SPLITPOINTS_PER_THREAD : Z;
  VALUE_INFINITE : Value;
  DEPTH_ZERO : Depth;
  pos_is_ok : Position.t → bool;
  idle_loop : nat → State → result State
}.

Module ThreadPool.

Section WithExternals.

Variable E : Externals.

Abbreviation MAX := (MAX_SPLITPOINTS_PER_THREAD E).

(** [ThreadPool::slave_available], thread.cpp:231-238, on the threads
    [idxs] still to be looked at. *)
Fixpoint slave_available_from (idxs : list nat) (m : nat) (s : State) : result bool :=
  match idxs with
  | [] => Ok false
  | i :: rest =>
      th ← deref (threads s !! i);
      master ← deref (threads s !! m);
      av ← Thread.is_available_to MAX th master;
      if (av : bool) then Ok true else slave_available_from rest m s
  end.

Definition slave_available (m : nat) (s : State) : result bool :=
  slave_available_from (seq 0 (length (threads s))) m s.

(** The body of the [if] in the loop of [split], thread.cpp:301-304:
    [threads[i]] becomes a slave at the split point [r]. *)
Definition recruit_one (i : nat) (r : SplitPointRef) (s : State) : result State :=
  bit ← shl_ull 1 i;
  let s1 := alter_sp r (fun sp =>
              SplitPoint.set_slavesMask
                (Z.lor (SplitPoint.slavesMask sp) bit) sp) s in
  let s2 := alter_thread i (Thread.set_activeSplitPoint (Some r)) s1 in
  let s3 := alter_thread i (Thread.set_searching true) s2 in
  Ok (notify_one i s3).

(** The [for] loop of [split<false>], thread.cpp:298-308, on the indices
    [idxs] still to be visited; [slavesCnt] is the local counter. *)
Fixpoint recruit (m : nat) (r : SplitPointRef) (idxs : list nat)
    (slavesCnt : Z) (s : State) : result (Z * State) :=
  match idxs with
  | [] => Ok (slavesCnt, s)
  | i :: rest =>
      th ← deref (threads s !! i);
      master ← deref (threads s !! m);
      av ← Thread.is_available_to MAX th master;
      if (av : bool) then
        s1 ← recruit_one i r s;
        let slavesCnt := slavesCnt + 1 in
        if slavesCnt + 1 >=? maxThreadsPerSplitPoint s1
        then Ok (slavesCnt, s1)                        (* break *)
        else recruit m r rest slavesCnt s1
      else recruit m r rest slavesCnt s
  end.

(** [split], thread.cpp:267-313: the split point is taken from the
    master's stack and filled in, slaves are booked under both locks and
    the stack grows by one. Yields the split point [sp], [slavesCnt] and
    the new state. *)
Definition split_open (Fake : bool) (a : Call.t) (m : nat) (s : State)
    : result (SplitPointRef * Z * State) :=
  master ← deref (threads s !! m);
  let size := Thread.splitPointsSize master in
  _ ← at_index MAX (Thread.splitPoints master) size;
  let r : SplitPointRef := (m, Z.to_nat size) in
  bit ← shl_ull 1 (Thread.idx master);
  bm ← deref (moves s !! Call.bestMove a);
  let sp := SplitPoint.mk m (Thread.activeSplitPoint master)
              bit (Call.depth a) bm
              (Call.threatMove a) (Call.alpha a) (Call.beta a)
              (Call.nodeType a) (Call.bestValue a) (Call.mp a)
              (Call.moveCount a) (Call.pos a) 0 false (Call.ss a) in
  let s1 := alter_sp r (fun _ => sp) s in
  let s2 := alter_thread m (Thread.set_activeSplitPoint (Some r)) s1 in
  _ ← assert (Thread.searching master);
  let s3 := log [Lock PoolMutex; Lock (SplitPointMutex r)] s2 in
  '(slavesCnt, s4) ← (if Fake then Ok (0, s3)
                      else recruit m r (seq 0 (length (threads s3))) 0 s3);
  let s5 := alter_thread m (fun th =>
              Thread.set_splitPointsSize (Thread.splitPointsSize th + 1) th) s4 in
  Ok (r, slavesCnt, log [Unlock (SplitPointMutex r); Unlock PoolMutex] s5).

(** [split], thread.cpp:319-326: the master enters the base idle loop. *)
Definition split_wait (Fake : bool) (slavesCnt : Z) (m : nat) (s : State)
    : result State :=
  if negb (slavesCnt =? 0) || Fake then
    s' ← idle_loop E m s;
    master ← deref (threads s' !! m);
    _ ← assert (negb (Thread.searching master));
    Ok s'
  else Ok s.

(** [split], thread.cpp:331-343. No statement of the block writes to the
    split point, which is read once. *)
Definition split_close (a : Call.t) (m : nat) (r : SplitPointRef) (s : State)
    : result (Value * State) :=
  let s1 := log [Lock PoolMutex; Lock (SplitPointMutex r)] s in
  _ ← deref (threads s1 !! m);
  let s2 := alter_thread m (Thread.set_searching true) s1 in
  let s3 := alter_thread m (fun th =>
              Thread.set_splitPointsSize (Thread.splitPointsSize th - 1) th) s2 in
  sp ← Thread.read_sp MAX (threads s3) r;
  let s4 := alter_thread m (Thread.set_activeSplitPoint (SplitPoint.parent sp)) s3 in
  p ← deref (positions s4 !! Call.pos a);
  nodes ← add_int64 (Position.nodes_searched p) (SplitPoint.nodes sp);
  let s5 := set_positions
              (<[Call.pos a := Position.set_nodes_searched nodes p]>
                 (positions s4)) s4 in
  let s6 := set_moves (<[Call.bestMove a := SplitPoint.bestMove sp]> (moves s5)) s5 in
  let s7 := log [Unlock (SplitPointMutex r); Unlock PoolMutex] s6 in
  Ok (SplitPoint.bestValue sp, s7).

(** The [assert]s at the head of [split], thread.cpp:255-260. *)
Definition split_asserts (a : Call.t) (p : Position.t) : bool :=
  pos_is_ok E p
  && (Call.bestValue a >? - VALUE_INFINITE E)
  && (Call.bestValue a <=? Call.alpha a)
  && (Call.alpha a <? Call.beta a)
  && (Call.beta a <=? VALUE_INFINITE E)
  && (Call.depth a >? DEPTH_ZERO E).

(** [ThreadPool::split<Fake>], thread.cpp:250-344. *)
Definition split (Fake : bool) (a : Call.t) (s : State) : result (Value * State) :=
  p ← deref (positions s !! Call.pos a);
  _ ← assert (split_asserts a p);
  let m := Position.this_thread p in
  master ← deref (threads s !! m);
  if Thread.splitPointsSize master >=? MAX then Ok (Call.bestValue a, s)
  else
    '(r, slavesCnt, s1) ← split_open Fake a m s;
    s2 ← split_wait Fake slavesCnt m s1;
    split_close a m r s2.

(** Whether [threads[i]] can be booked by [threads[m]]. *)
Definition available (s : State) (m i : nat) : bool :=
  match threads s !! i, threads s !! m with
  | Some th, Some master =>
      match Thread.is_available_to MAX th master with
      | Ok b => b
      | _ => false
      end
  | _, _ => false
  end.

End WithExternals.

End ThreadPool.

(** ** Example configurations *)

Module Demo.

Definition blank_sp : SplitPoint.t :=
  SplitPoint.mk 0 None 0 0 0 0 0 0 0 0 0%nat 0 0%nat 0 false 0%nat.

(** A thread with an empty split-point stack. *)
Definition worker (searching : bool) (i : nat) : Thread.t :=
  Thread.mk searching false 0 0 None i (replicate 8 blank_sp).

(** A base idle loop under which the slaves search 42 nodes at the
    master's active split point and the master comes back idle. *)
Definition base_idle_loop (m : nat) (s : State) : result State :=
  th ← deref (threads s !! m);
  match Thread.activeSplitPoint th with
  | Some r =>
      Ok (alter_thread m (Thread.set_searching false)
            (alter_sp r (SplitPoint.set_nodes 42) s))
  | None => Ok (alter_thread m (Thread.set_searching false) s)
  end.

Definition externals : Externals :=
  mkExternals 8 30001 0 (fun _ => true) base_idle_loop.

(** [n] workers, the first one searching at position 0 and the others
    idle, with [Max Threads per Split Point] set to [maxThreads]. *)
Definition pool (n : nat) (maxThreads : Z) : State :=
  mkState (worker true 0 :: map (worker false) (seq 1 (n - 1))) maxThreads 4 true
          (<[0%nat := Position.mk 0 100]> ∅) (<[0%nat := 77]> ∅) [].

Definition call : Call.t :=
  Call.mk 0%nat 0%nat (-10) 10 (-20) 0%nat 5 0 3 0%nat 1.

(** The master of [pool] with [k] split points on its stack. *)
Definition deep_master (k : Z) : Thread.t :=
  Thread.set_splitPointsSize k (worker true 0).

Definition full_pool : State :=
  set_threads [deep_master 8; worker false 1] (pool 2 3).

(** A pool whose master is already at a split point of its own. *)
Definition nested_pool : State :=
  set_threads
    [Thread.set_activeSplitPoint (Some (0%nat, 0%nat)) (deep_master 1);
     worker false 1; worker false 2]
    (pool 3 3).

(** A thread that is master of one split point at which thread 2 works,
    and which is waiting for its slaves. *)
Definition helpful_master : Thread.t :=
  Thread.mk false false 0 1 (Some (1%nat, 0%nat)) 1
    (SplitPoint.set_slavesMask 6 blank_sp :: replicate 7 blank_sp).

(** Two nested split points of thread 0; the outer one has a cutoff. *)
Definition inner_sp : SplitPoint.t :=
  SplitPoint.mk 0 (Some (0%nat, 0%nat)) 1 0 0 0 0 0 0 0 0%nat 0 0%nat 0 false 0%nat.

Definition nested_master : Thread.t :=
  Thread.mk true false 0 2 (Some (0%nat, 1%nat)) 0
    (SplitPoint.set_cutoff true blank_sp :: inner_sp :: replicate 6 blank_sp).

Definition nested_threads : list Thread.t := [nested_master].

End Demo.

(** ** Vocabulary of the statements *)

(** The split point on top of a thread's stack, [splitPoints[size - 1]]. *)
Definition top_split_point (th : Thread.t) : option SplitPoint.t :=
  Thread.splitPoints th !! Z.to_nat (Thread.splitPointsSize th - 1).

(** A thread as [Thread::Thread] and [split] leave it: the stack size is
    within the array, and the masks are [uint64_t]. *)
Record thread_ok (cap : Z) (th : Thread.t) : Prop := {
  size_in_range : 0 <= Thread.splitPointsSize th <= cap;
  array_length : length (Thread.splitPoints th) = Z.to_nat cap;
  masks_uint64 : ∀ sp, sp ∈ Thread.splitPoints th →
                       0 <= SplitPoint.slavesMask sp < 2 ^ 64
}.

(** The split points met from [start] by following [parent] pointers, up
    to the null pointer that ends the walk. *)
Inductive chain (cap : Z) (threads : list Thread.t)
    : option SplitPointRef → list SplitPoint.t → Prop :=
  | chain_null : chain cap threads None []
  | chain_link r p l :
      Thread.read_sp cap threads r = Ok p →
      chain cap threads (SplitPoint.parent p) l →
      chain cap threads (Some r) (p :: l).

(** [p] is met on the way from [start] through the [parent] pointers,
    whether or not the way ends. *)
Inductive reaches (cap : Z) (threads : list Thread.t)
    : option SplitPointRef → SplitPoint.t → Prop :=
  | reaches_here r p :
      Thread.read_sp cap threads r = Ok p →
      reaches cap threads (Some r) p
  | reaches_parent r q p :
      Thread.read_sp cap threads r = Ok q →
      reaches cap threads (SplitPoint.parent q) p →
      reaches cap threads (Some r) p.

(** What the booking of slaves leaves alone in the master [ma] of a split
    point in slot [k]: its index, its stack size, its active split point,
    that it is searching, and the [parent] of the split point. *)
Record master_kept (k : nat) (ma ma' : Thread.t) : Prop := {
  kept_idx : Thread.idx ma' = Thread.idx ma;
  kept_size : Thread.splitPointsSize ma' = Thread.splitPointsSize ma;
  kept_active : Thread.activeSplitPoint ma' = Thread.activeSplitPoint ma;
  kept_searching : Thread.searching ma = true → Thread.searching ma' = true;
  kept_parent :
    SplitPoint.parent <$> Thread.splitPoints ma' !! k
    = SplitPoint.parent <$> Thread.splitPoints ma !! k
}.

(** The base idle loop (search.cpp) leaves the split-point stack of the
    thread that runs it as it found it: a [split] made by the search pops
    what it pushed, and the [parent] of a split point is written only when
    the split point is opened. *)
Definition idle_loop_keeps_stack (E : Externals) : Prop :=
  ∀ m s s' th,
    idle_loop E m s = Ok s' →
    threads s !! m = Some th →
    ∃ th', threads s' !! m = Some th'
           ∧ Thread.splitPointsSize th' = Thread.splitPointsSize th
           ∧ SplitPoint.parent <$> top_split_point th'
             = SplitPoint.parent <$> top_split_point th.

(** The events of [threads[i]->notify_one()]. *)
Definition notify_events (i : nat) : list Event :=
  [Lock (ThreadMutex i); NotifyOne i; Unlock (ThreadMutex i)].

(** The state that [recruit_one] leaves when its shift is defined. *)
Definition recruited (i : nat) (r : SplitPointRef) (s : State) : State :=
  notify_one i
    (alter_thread i (Thread.set_searching true)
       (alter_thread i (Thread.set_activeSplitPoint (Some r))
          (alter_sp r (fun sp =>
             SplitPoint.set_slavesMask
               (Z.lor (SplitPoint.slavesMask sp) (shl64 1 i)) sp) s))).

(** * The rest of the file: pool set-up, waiting loops, the main thread *)

(** [mask] after [mask |= 1ULL << i] for the threads [l], in order. *)
Definition with_slaves (l : list nat) (mask : Z) : Z :=
  fold_left (fun acc i => Z.lor acc (shl64 1 i)) l mask.

(** The split point as [split] fills it in, thread.cpp:270-285, for the
    master [ma] = [threads[m]] and [*bestMove = bm]. *)
Definition opened_sp (a : Call.t) (m : nat) (ma : Thread.t) (bm : Move) : SplitPoint.t :=
  SplitPoint.mk m (Thread.activeSplitPoint ma) (shl64 1 (Thread.idx ma))
    (Call.depth a) bm (Call.threatMove a) (Call.alpha a) (Call.beta a)
    (Call.nodeType a) (Call.bestValue a) (Call.mp a) (Call.moveCount a)
    (Call.pos a) 0 false (Call.ss a).

(** The threads that [split<Fake>] books in state [s] for the master
    [threads[m]]. *)
Definition booked_by (E : Externals) (Fake : bool) (s : State) (m : nat) : list nat :=
  if Fake then []
  else take (Z.to_nat (Z.max 1 (maxThreadsPerSplitPoint s - 1)))
            (List.filter (ThreadPool.available E s m) (seq 0 (length (threads s)))).

(** Every thread of the pool is as [thread_ok] says. *)
Definition pool_ok (cap : Z) (ths : list Thread.t) : Prop :=
  ∀ i th, ths !! i = Some th → thread_ok cap th.

(** The base idle loop (search.cpp) keeps the pool well formed. *)
Definition idle_loop_keeps_pool_ok (E : Externals) : Prop :=
  ∀ m s s',
    idle_loop E m s = Ok s' →
    pool_ok (MAX_SPLITPOINTS_PER_THREAD E) (threads s) →
    pool_ok (MAX_SPLITPOINTS_PER_THREAD E) (threads s').

(** ** Lock discipline *)

(** The mutexes held after the events [tr], the last one locked first,
    when [held] are held before; [None] when [tr] breaks the discipline
    of the file: a mutex is locked while it is held, a mutex other than
    the last one locked is unlocked, a thread is notified without its
    mutex held, the timer waits without holding its mutex and only it,
    or [check_time] is called with a mutex held. *)
Fixpoint holds (held : list Mutex) (tr : list Event) : option (list Mutex) :=
  match tr with
  | [] => Some held
  | Lock m :: tr' =>
      if bool_decide (m ∈ held) then None else holds (m :: held) tr'
  | Unlock m :: tr' =>
      match held with
      | h :: held' => if bool_decide (h = m) then holds held' tr' else None
      | [] => None
      end
  | NotifyOne i :: tr' =>
      if bool_decide (ThreadMutex i ∈ held) then holds held tr' else None
  | WaitFor _ :: tr' =>
      if bool_decide (held = [TimerMutex]) then holds held tr' else None
  | CheckTime :: tr' =>
      if bool_decide (held = []) then holds held tr' else None
  end.

(** The threads notified in [tr], each with the mutexes held at that
    moment, the last one locked first. *)
Fixpoint held_at_notify (held : list Mutex) (tr : list Event)
    : list (nat * list Mutex) :=
  match tr with
  | [] => []
  | Lock m :: tr' => held_at_notify (m :: held) tr'
  | Unlock m :: tr' => held_at_notify (tail held) tr'
  | NotifyOne i :: tr' => (i, held) :: held_at_notify held tr'
  | _ :: tr' => held_at_notify held tr'
  end.

(** ** Creating and destroying threads *)

Module Setup.

(** The UCI options that [read_uci_options] reads: the values of
    [Options["Max Threads per Split Point"]], [Options["Min Split Depth"]]
    and [Options["Threads"]], the last one as the [size_t] it is stored
    in. *)
Record Options : Type := mkOptions {
  Max_Threads_per_Split_Point : Z;
  Min_Split_Depth : Z;
  Threads : nat
}.

(** What the code takes from the platform and from types.h: [ONE_PLY],
    and whether [thread_create] succeeds for the thread of a given index. *)
Record System : Type := mkSystem {
  ONE_PLY : Z;
  thread_create : nat → bool
}.

(** A value-initialized [SplitPoint], the element of [splitPoints()] in
    the constructor of [Thread]: every member is zero or null. ([master]
    is a pointer; thread 0 stands for the null pointer, which no code
    reads before [split] writes the member.) *)
Definition zero_sp : SplitPoint.t :=
  SplitPoint.mk 0 None 0 0 0 0 0 0 0 0 0%nat 0 0%nat 0 false 0%nat.

(** The thread that [Thread::Thread] builds when the pool has [n]
    threads, thread.cpp:45-50. *)
Definition fresh_thread (cap : Z) (n : nat) : Thread.t :=
  Thread.mk false false 0 0 None n (replicate (Z.to_nat cap) zero_sp).

Definition set_exit (b : bool) (th : Thread.t) : Thread.t :=
  Thread.mk (Thread.searching th) b (Thread.maxPly th) (Thread.splitPointsSize th)
            (Thread.activeSplitPoint th) (Thread.idx th) (Thread.splitPoints th).

Definition set_options (maxThreads : Z) (minDepth : Depth) (s : State) : State :=
  mkState (threads s) maxThreads minDepth (sleepWhileIdle s)
          (positions s) (moves s) (trace s).

Section WithSystem.

Variable cap : Z.
Variable Sys : System.

(** [new Thread()], thread.cpp:45-57, in a pool of [n] threads: when
    [thread_create] fails the process exits and the call does not
    return. *)
Definition new_Thread (n : nat) : result Thread.t :=
  let th := fresh_thread cap n in
  if thread_create Sys (Thread.idx th) then Ok th else NoReturn.

(** [delete threads[i]], thread.cpp:62-67: [exit] is set, the thread is
    notified and joined. *)
Definition delete_Thread (i : nat) (s : State) : State :=
  notify_one i (alter_thread i (set_exit true) s).

(** [while (threads.size() < requested) threads.push_back(new Thread())],
    thread.cpp:217-218; the loop runs [n = requested - threads.size()]
    times. *)
Fixpoint grow (n : nat) (s : State) : result State :=
  match n with
  | O => Ok s
  | S n' =>
      th ← new_Thread (length (threads s));
      grow n' (set_threads (threads s ++ [th]) s)
  end.

(** [while (threads.size() > requested) { delete threads.back();
    threads.pop_back(); }], thread.cpp:220-224; the loop runs
    [n = threads.size() - requested] times. *)
Fixpoint shrink (n : nat) (s : State) : State :=
  match n with
  | O => s
  | S n' =>
      let s1 := delete_Thread (length (threads s) - 1) s in
      shrink n' (set_threads (removelast (threads s1)) s1)
  end.

(** [ThreadPool::read_uci_options], thread.cpp:209-225. *)
Definition read_uci_options (o : Options) (s : State) : result State :=
  let s1 := set_options (Max_Threads_per_Split_Point o)
                        (Min_Split_Depth o * ONE_PLY Sys) s in
  let requested := Threads o in
  _ ← assert (0 <? requested)%nat;
  s2 ← grow (requested - length (threads s1)) s1;
  Ok (shrink (length (threads s2) - requested) s2).

End WithSystem.

End Setup.

(** Every thread of the pool has its place in [threads] as its [idx]. *)
Definition idx_is_position (ths : list Thread.t) : Prop :=
  ∀ i th, ths !! i = Some th → Thread.idx th = i.

Module SetupDemo.

(** A platform on which every thread can be created. *)
Definition system : Setup.System := Setup.mkSystem 2 (fun _ => true).

(** A platform that cannot create a third thread. *)
Definition small_system : Setup.System :=
  Setup.mkSystem 2 (fun i => (i <? 2)%nat).

Definition options (n : nat) : Setup.Options := Setup.mkOptions 5 4 n.

End SetupDemo.

(** ** Waiting loops, the main thread and the start of a search

    The loops below read flags that other threads write ([thinking],
    [exit], [searching], the flag passed to [wait_for]); as for the timer,
    the value of every read is an input, here the next element of a list,
    and the list running out means that the loop is still going. What a
    thread does is a list of actions, the reads and writes of the flags
    among them. *)

Module Rendezvous.

Inductive Var : Type := Thinking | Exit | Searching | Flag.

(** The members of [Search::Signals]. *)
Inductive Signal : Type :=
  | StopOnPonderhit | FirstRootMove | Stop | FailedLowAtRoot.

(** The writes of [start_thinking] to the globals of namespace [Search]:
    an assignment to [SearchTime], to a member of [Signals], to [RootPos],
    to [Limits] or to [SetupStates], [RootMoves.clear()] and
    [RootMoves.push_back(RootMove(m))]. *)
Inductive Global : Type :=
  | ToSearchTime
  | ToSignal (sig : Signal)
  | ToRootPos
  | ToLimits
  | ToSetupStates
  | RootMovesClear
  | RootMovesPush (m : Move).

Inductive Condition : Type :=
  | PoolCondition                 (* [Threads.sleepCondition] *)
  | ThreadCondition (i : nat).    (* [threads[i]->sleepCondition] *)

Inductive Action : Type :=
  | Do (e : Event)                       (* lock, unlock, notify a thread *)
  | Wait (c : Condition) (m : Mutex)     (* [c.wait(m)] *)
  | NotifyPool                           (* [Threads.sleepCondition.notify_one()] *)
  | Sees (x : Var) (b : bool)
  | Sets (x : Var) (b : bool)
  | Writes (g : Global)
  | Think.                               (* [Search::think()] *)

(** The [while (!b) sleepCondition.wait(mutex)] of [Thread::wait_for] and
    the unlock after it, thread.cpp:139-140. *)
Fixpoint wait_for_loop (i : nat) (reads : list bool) : list Action * bool :=
  match reads with
  | [] => ([], false)
  | b :: rest =>
      if b then ([Sees Flag true; Do (Unlock (ThreadMutex i))], true)
      else
        let '(tr, returned) := wait_for_loop i rest in
        (Sees Flag false :: Wait (ThreadCondition i) (ThreadMutex i) :: tr, returned)
  end.

(** [Thread::wait_for] on [threads[i]], thread.cpp:136-141: the actions,
    and whether the call has returned when the reads are used up. *)
Definition wait_for (i : nat) (reads : list bool) : list Action * bool :=
  let '(tr, returned) := wait_for_loop i reads in
  (Do (Lock (ThreadMutex i)) :: tr, returned).

(** The [while (t->thinking) sleepCondition.wait(t->mutex)] of
    [wait_for_think_finished] and the unlock after it, thread.cpp:357-358;
    [t] is [main_thread()], that is [threads[0]]. *)
Fixpoint think_finished_loop (reads : list bool) : list Action * bool :=
  match reads with
  | [] => ([], false)
  | b :: rest =>
      if b then
        let '(tr, returned) := think_finished_loop rest in
        (Sees Thinking true :: Wait PoolCondition (ThreadMutex 0) :: tr, returned)
      else ([Sees Thinking false; Do (Unlock (ThreadMutex 0))], true)
  end.

(** [ThreadPool::wait_for_think_finished], thread.cpp:353-359. *)
Definition wait_for_think_finished (reads : list bool) : list Action * bool :=
  let '(tr, returned) := think_finished_loop reads in
  (Do (Lock (ThreadMutex 0)) :: tr, returned).

(** The places of [MainThread::idle_loop] where a flag is read: the two
    tests of the inner loop condition [!thinking && !exit], the
    [if (exit)] after the unlock, and the [assert(searching)]. *)
Inductive Point : Type :=
  | AtThinking | AtExitInLoop | AtExitAfterLoop | AtSearching.

Inductive Ending : Type :=
  | Returned        (* [return] at thread.cpp:111 *)
  | Running         (* the reads are used up *)
  | AssertFails.    (* [assert(searching)] *)

Definition then_ (tr : list Action) (k : list Action * Ending)
    : list Action * Ending :=
  (tr ++ k.1, k.2).

(** [MainThread::idle_loop] of [threads[i]] from the place [pt] on,
    thread.cpp:102-119. *)
Fixpoint main_run (i : nat) (pt : Point) (reads : list bool)
    : list Action * Ending :=
  match reads with
  | [] => ([], Running)
  | b :: rest =>
      match pt with
      | AtThinking =>
          if b then
            then_ [Sees Thinking true; Do (Unlock (ThreadMutex i))]
                  (main_run i AtExitAfterLoop rest)
          else then_ [Sees Thinking false] (main_run i AtExitInLoop rest)
      | AtExitInLoop =>
          if b then
            then_ [Sees Exit true; Do (Unlock (ThreadMutex i))]
                  (main_run i AtExitAfterLoop rest)
          else
            then_ [Sees Exit false; NotifyPool;
                   Wait (ThreadCondition i) (ThreadMutex i)]
                  (main_run i AtThinking rest)
      | AtExitAfterLoop =>
          if b then ([Sees Exit true], Returned)
          else
            then_ [Sees Exit false; Sets Searching true; Think]
                  (main_run i AtSearching rest)
      | AtSearching =>
          if b then
            then_ [Sees Searching true; Sets Searching false;
                   Do (Lock (ThreadMutex i)); Sets Thinking false]
                  (main_run i AtThinking rest)
          else ([Sees Searching false], AssertFails)
      end
  end.

(** [MainThread::idle_loop], thread.cpp:94-121. *)
Definition main_idle_loop (i : nat) (reads : list bool) : list Action * Ending :=
  then_ [Do (Lock (ThreadMutex i)); Sets Thinking false]
        (main_run i AtThinking reads).

(** The loop of [start_thinking] that fills [RootMoves], thread.cpp:
    379-381, on the legal moves still to be looked at. A [RootMove] is
    taken as the move it is made from. *)
Fixpoint collect_root_moves (legal searchMoves RootMoves : list Move) : list Move :=
  match legal with
  | [] => RootMoves
  | m :: rest =>
      if (match searchMoves with [] => true | _ => false end)
         || negb (count_occ Z.eq_dec searchMoves m =? 0)%nat
      then collect_root_moves rest searchMoves (RootMoves ++ [m])
      else collect_root_moves rest searchMoves RootMoves
  end.

(** [Search::Signals] *)
Record SignalsType : Type := mkSignals {
  stopOnPonderhit : bool;
  firstRootMove : bool;
  stop : bool;
  failedLowAtRoot : bool
}.

Section StartThinking.

(** The types of search.h and position.h that [start_thinking] only
    copies: [Position], [LimitsType] and the stack behind a
    [StateStackPtr]. *)
Context {P L S : Type}.

(** [Position::operator=] and the moves of [MoveList<LEGAL>]. *)
Variable copy_position : P → P.
Variable legal_moves : P → list Move.

(** The assignment [SetupStates = states] of a [StateStackPtr], whose
    type is declared in search.h: the value stored, and what the
    assignment leaves in [states], which is passed by reference. *)
Variable assign_states : S → S * S.

(** The globals of namespace [Search] that [start_thinking] writes. *)
Record Globals : Type := mkGlobals {
  SearchTime : Z;
  Signals : SignalsType;
  RootPos : P;
  Limits : L;
  SetupStates : S;
  RootMoves : list Move
}.

(** [Signals.sig = b] *)
Definition set_signal (sig : Signal) (b : bool) (g : Globals) : Globals :=
  let sg := Signals g in
  let sg' :=
    match sig with
    | StopOnPonderhit =>
        mkSignals b (firstRootMove sg) (stop sg) (failedLowAtRoot sg)
    | FirstRootMove =>
        mkSignals (stopOnPonderhit sg) b (stop sg) (failedLowAtRoot sg)
    | Stop =>
        mkSignals (stopOnPonderhit sg) (firstRootMove sg) b (failedLowAtRoot sg)
    | FailedLowAtRoot =>
        mkSignals (stopOnPonderhit sg) (firstRootMove sg) (stop sg) b
    end in
  mkGlobals (SearchTime g) sg' (RootPos g) (Limits g) (SetupStates g) (RootMoves g).

(** The effect of a write on the globals; [pos], [limits] and [states]
    are the arguments of [start_thinking] and [now] is what [Time::now()]
    returns. *)
Definition write (now : Z) (pos : P) (limits : L) (states : S)
    (w : Global) (g : Globals) : Globals :=
  match w with
  | ToSearchTime =>
      mkGlobals now (Signals g) (RootPos g) (Limits g) (SetupStates g) (RootMoves g)
  | ToSignal sig => set_signal sig false g
  | ToRootPos =>
      mkGlobals (SearchTime g) (Signals g) (copy_position pos) (Limits g)
                (SetupStates g) (RootMoves g)
  | ToLimits =>
      mkGlobals (SearchTime g) (Signals g) (RootPos g) limits (SetupStates g)
                (RootMoves g)
  | ToSetupStates =>
      mkGlobals (SearchTime g) (Signals g) (RootPos g) (Limits g)
                (assign_states states).1 (RootMoves g)
  | RootMovesClear =>
      mkGlobals (SearchTime g) (Signals g) (RootPos g) (Limits g) (SetupStates g) []
  | RootMovesPush m =>
      mkGlobals (SearchTime g) (Signals g) (RootPos g) (Limits g) (SetupStates g)
                (RootMoves g ++ [m])
  end.

(** The writes of thread.cpp:369-381 in program order, for the legal
    moves [legal] of the position. In a chained assignment
    [a = b = false] the right-hand assignment is made first. *)
Definition set_up (legal searchMoves : list Move) : list Global :=
  [ToSearchTime;
   ToSignal FirstRootMove; ToSignal StopOnPonderhit;
   ToSignal FailedLowAtRoot; ToSignal Stop;
   ToRootPos; ToLimits; ToSetupStates; RootMovesClear]
  ++ map RootMovesPush (collect_root_moves legal searchMoves []).

(** [ThreadPool::start_thinking], thread.cpp:365-385, called at time
    [now]: the actions, and when the call has returned the globals and
    what is left in the caller's [states]. *)
Definition start_thinking (now : Z) (pos : P) (limits : L)
    (searchMoves : list Move) (states : S) (reads : list bool)
    (g : Globals) : list Action * option (Globals * S) :=
  let '(tr, returned) := wait_for_think_finished reads in
  if returned then
    let ws := set_up (legal_moves pos) searchMoves in
    (tr ++ map Writes ws
        ++ [Sets Thinking true; Do (Lock (ThreadMutex 0)); Do (NotifyOne 0);
            Do (Unlock (ThreadMutex 0))],
     Some (fold_left (fun g w => write now pos limits states w g) ws g,
           (assign_states states).2))
  else (tr, None).

End StartThinking.

(** Whether [start_thinking] takes the legal move [m] as a root move:
    [searchMoves.empty() || count(searchMoves.begin(), searchMoves.end(), m)]. *)
Definition searched (searchMoves : list Move) (m : Move) : bool :=
  (match searchMoves with [] => true | _ => false end)
  || negb (count_occ Z.eq_dec searchMoves m =? 0)%nat.

(** What the mutex and the [searching] flag of the main thread allow: the
    mutex is locked only when free and unlocked only when held; the
    thread waits, signals the pool's condition and clears [thinking] with
    the mutex held; it writes [searching] and calls [think()] with the
    mutex free, and calls [think()] only with [searching] set. *)
Fixpoint main_allowed (held searching : bool) (tr : list Action) : bool :=
  match tr with
  | [] => true
  | Do (Lock _) :: tr' => negb held && main_allowed true searching tr'
  | Do (Unlock _) :: tr' => held && main_allowed false searching tr'
  | Do _ :: _ => false
  | Wait _ _ :: tr' => held && main_allowed held searching tr'
  | NotifyPool :: tr' => held && main_allowed held searching tr'
  | Sets Searching b :: tr' => negb held && main_allowed held b tr'
  | Sets Thinking b :: tr' => held && negb b && main_allowed held searching tr'
  | Sets _ _ :: _ => false
  | Writes _ :: _ => false
  | Sees _ _ :: tr' => main_allowed held searching tr'
  | Think :: tr' => negb held && searching && main_allowed held searching tr'
  end.

(** Whether [MainThread::idle_loop] holds its mutex at a place where it
    reads a flag. *)
Definition held_at (pt : Point) : bool :=
  match pt with
  | AtThinking | AtExitInLoop => true
  | AtExitAfterLoop | AtSearching => false
  end.

End Rendezvous.

(** * Properties *)

(** ** The [result] monad *)

Lemma bind_Ok {A B} (m : result A) (f : A → result B) (b : B) :
  (x ← m; f x) = Ok b ↔ ∃ a, m = Ok a ∧ f a = Ok b.
Proof.
  split.
  - destruct m as [a| | |]; simpl; intros H; try discriminate. eauto.
  - intros (a & -> & H). exact H.
Qed.

Lemma bind_Ok_l {A B} (m : result A) (a : A) (f : A → result B) :
  m = Ok a → (x ← m; f x) = f a.
Proof. intros ->. reflexivity. Qed.

Lemma assert_Ok (c : bool) (u : unit) : assert c = Ok u ↔ c = true.
Proof. destruct c, u; simpl; split; intros; congruence. Qed.

Lemma deref_Ok {A} (o : option A) (a : A) : deref o = Ok a ↔ o = Some a.
Proof. destruct o; simpl; split; intros; congruence. Qed.

Lemma at_index_Ok {A} (cap : Z) (l : list A) (i : Z) (x : A) :
  at_index cap l i = Ok x ↔ 0 <= i < cap ∧ l !! Z.to_nat i = Some x.
Proof.
  unfold at_index.
  destruct (0 <=? i) eqn:Hlo; destruct (i <? cap) eqn:Hhi; simpl;
    rewrite ?deref_Ok; split; try discriminate; intros; try lia; intuition lia.
Qed.

Lemma shl_ull_Ok (x : Z) (n : nat) (v : Z) :
  shl_ull x n = Ok v ↔ (n < 64)%nat ∧ v = shl64 x n.
Proof.
  unfold shl_ull. destruct (Nat.ltb_spec n 64); split.
  - intros [= <-]. done.
  - intros [_ ->]. done.
  - discriminate.
  - intros [? _]. lia.
Qed.

Lemma add_int64_Ok (a b c : Z) :
  add_int64 a b = Ok c ↔ INT64_MIN <= a + b <= INT64_MAX ∧ c = a + b.
Proof.
  unfold add_int64.
  destruct (Z.leb_spec INT64_MIN (a + b)); destruct (Z.leb_spec (a + b) INT64_MAX);
    simpl; split; try discriminate; try (intros [= <-]; split; [lia|done]);
    try (intros [? ->]; done); intros [? _]; lia.
Qed.

(** Inverts the hypotheses that say a monadic computation came to its end. *)
Ltac inv_Ok :=
  repeat match goal with
  | H : mbind _ _ = Ok _ |- _ =>
      apply bind_Ok in H; destruct H as (? & ? & H)
  | H : shl_ull _ _ = Ok _ |- _ => apply shl_ull_Ok in H; destruct H as [? ->]
  | H : add_int64 _ _ = Ok _ |- _ => apply add_int64_Ok in H; destruct H as [? ->]
  | H : assert _ = Ok _ |- _ => apply assert_Ok in H
  | H : deref _ = Ok _ |- _ => apply deref_Ok in H
  | H : at_index _ _ _ = Ok _ |- _ => apply at_index_Ok in H; destruct H as [? H]
  | H : Ok _ = Ok _ |- _ => injection H as H; subst
  | H : mret _ = Ok _ |- _ => injection H as H; subst
  end.

(** ** Bit masks *)

Lemma shl64_1_testbit (n : nat) (k : Z) :
  0 <= k → Z.testbit (shl64 1 n) k = (k <? 64) && (Z.of_nat n =? k).
Proof.
  intros Hk. unfold shl64. rewrite Z.shiftl_1_l.
  destruct (k <? 64) eqn:Hlt; simpl.
  - rewrite Z.mod_pow2_bits_low by lia. apply Z.pow2_bits_eqb. lia.
  - apply Z.mod_pow2_bits_high. lia.
Qed.

Lemma uint64_high_bits (mask k : Z) :
  0 <= mask < 2 ^ 64 → 64 <= k → Z.testbit mask k = false.
Proof.
  intros Hm Hk. destruct (Z.eq_dec mask 0) as [->|Hne].
  - apply Z.bits_0.
  - apply Z.bits_above_log2; [lia|].
    assert (Z.log2 mask < 64) by (apply Z.log2_lt_pow2; lia). lia.
Qed.

(** For [n] below 64, [mask & (1ULL << n)] is nonzero exactly when bit
    [n] of the 64-bit [mask] is set. *)
Lemma land_bit_test (mask : Z) (n : nat) :
  (n < 64)%nat →
  negb (Z.land mask (shl64 1 n) =? 0) = Z.testbit (mask mod 2 ^ 64) (Z.of_nat n).
Proof.
  intros Hn. rewrite Z.mod_pow2_bits_low by lia.
  destruct (Z.testbit mask (Z.of_nat n)) eqn:Hbit.
  - destruct (Z.land mask (shl64 1 n) =? 0) eqn:Hz; [|done].
    apply Z.eqb_eq in Hz.
    assert (Hb : Z.testbit (Z.land mask (shl64 1 n)) (Z.of_nat n) = true).
    { rewrite Z.land_spec, Hbit, shl64_1_testbit by lia.
      rewrite Z.eqb_refl, andb_true_r. simpl. apply Z.ltb_lt. lia. }
    rewrite Hz, Z.bits_0 in Hb. discriminate.
  - assert (Hz : Z.land mask (shl64 1 n) = 0).
    { apply Z.bits_inj'. intros k Hk.
      rewrite Z.land_spec, shl64_1_testbit, Z.bits_0 by lia.
      destruct (Z.of_nat n =? k) eqn:Heq.
      - apply Z.eqb_eq in Heq. subst k. rewrite Hbit. done.
      - rewrite andb_false_r, andb_false_r. done. }
    rewrite Hz. done.
Qed.

(** [mask & (1ULL << n)] is nonzero exactly when bit [n] of [mask] is set. *)
Lemma mask_test (mask : Z) (n : nat) :
  0 <= mask < 2 ^ 64 →
  negb (Z.land mask (shl64 1 n) =? 0) = Z.testbit mask (Z.of_nat n).
Proof.
  intros Hm. destruct (Z.testbit mask (Z.of_nat n)) eqn:Hbit.
  - assert (Hn : Z.of_nat n < 64).
    { destruct (Z.lt_ge_cases (Z.of_nat n) 64) as [?|Hge]; [done|].
      rewrite uint64_high_bits in Hbit by lia. discriminate. }
    destruct (Z.land mask (shl64 1 n) =? 0) eqn:Hz; [|done].
    apply Z.eqb_eq in Hz.
    assert (Hb : Z.testbit (Z.land mask (shl64 1 n)) (Z.of_nat n) = true).
    { rewrite Z.land_spec, Hbit, shl64_1_testbit by lia.
      rewrite Z.eqb_refl, andb_true_r. simpl. apply Z.ltb_lt. lia. }
    rewrite Hz, Z.bits_0 in Hb. discriminate.
  - assert (Hz : Z.land mask (shl64 1 n) = 0).
    { apply Z.bits_inj'. intros k Hk.
      rewrite Z.land_spec, shl64_1_testbit, Z.bits_0 by lia.
      destruct (Z.of_nat n =? k) eqn:Heq.
      - apply Z.eqb_eq in Heq. subst k. rewrite Hbit. done.
      - rewrite andb_false_r, andb_false_r. done. }
    rewrite Hz. done.
Qed.

(** ** Thread::is_available_to *)

Lemma top_split_point_is_Some cap th :
  thread_ok cap th → Thread.splitPointsSize th ≠ 0 →
  ∃ sp, top_split_point th = Some sp
        ∧ at_index cap (Thread.splitPoints th) (Thread.splitPointsSize th - 1) = Ok sp.
Proof.
  intros [Hsz Hlen _] Hne.
  destruct (lookup_lt_is_Some_2 (Thread.splitPoints th)
              (Z.to_nat (Thread.splitPointsSize th - 1))) as [sp Hsp]; [lia|].
  exists sp. split; [exact Hsp|]. apply at_index_Ok. split; [lia|exact Hsp].
Qed.

(** C2. [is_available_to(master)] answers true exactly when the thread is
    not searching and either has no split point on its stack or the split
    point on top of its stack has the bit of [master->idx] set in
    [slavesMask]; this for every thread, every master whose index is
    below the 64 bits of the mask, and every stack size from 0 to
    [MAX_SPLITPOINTS_PER_THREAD]. *)
Theorem is_available_to_helpful_master (cap : Z) (this master : Thread.t) :
  thread_ok cap this →
  (Thread.idx master < 64)%nat →
  ∃ b, Thread.is_available_to cap this master = Ok b
       ∧ (b = true ↔
          Thread.searching this = false
          ∧ (Thread.splitPointsSize this = 0
             ∨ ∃ sp, top_split_point this = Some sp
                     ∧ Z.testbit (SplitPoint.slavesMask sp)
                                 (Z.of_nat (Thread.idx master)) = true)).
Proof.
  intros Hok Hidx. unfold Thread.is_available_to, Thread.is_available_to_at.
  destruct (Thread.searching this) eqn:Hs.
  { exists false. split; [done|]. split; [done|]. intros [? _]. done. }
  destruct (Z.eqb_spec (Thread.splitPointsSize this) 0) as [Hz|Hnz].
  { exists true. split; [done|]. split; auto. }
  destruct (top_split_point_is_Some cap this Hok Hnz) as (sp & Htop & Hat).
  rewrite Hat, (proj2 (shl_ull_Ok 1 (Thread.idx master) _) (conj Hidx eq_refl)).
  simpl.
  assert (Hm : 0 <= SplitPoint.slavesMask sp < 2 ^ 64).
  { apply (masks_uint64 _ _ Hok). eapply list_elem_of_lookup_2. exact Htop. }
  rewrite (mask_test _ _ Hm).
  eexists. split; [reflexivity|]. split.
  - intros Hb. split; [done|]. right. exists sp. done.
  - intros [_ [Hz|(sp' & Hsp' & Hb)]]; [done|]. congruence.
Qed.

Lemma is_available_to_helpful_master_witness :
  ∃ b, Thread.is_available_to 8 Demo.helpful_master (Demo.worker true 2) = Ok b
       ∧ (b = true ↔
          Thread.searching Demo.helpful_master = false
          ∧ (Thread.splitPointsSize Demo.helpful_master = 0
             ∨ ∃ sp, top_split_point Demo.helpful_master = Some sp
                     ∧ Z.testbit (SplitPoint.slavesMask sp)
                                 (Z.of_nat (Thread.idx (Demo.worker true 2))) = true)).
Proof.
  apply (is_available_to_helpful_master 8 Demo.helpful_master (Demo.worker true 2)).
  - split.
    + simpl. lia.
    + reflexivity.
    + intros sp Hsp. apply list_elem_of_In in Hsp. simpl in Hsp.
      repeat destruct Hsp as [<-|Hsp]; simpl; lia.
  - simpl. lia.
Defined.

(** The mask has no bit for a master whose index is 64 or more: when the
    thread is idle with a split point on its stack, the shift that the
    test needs is undefined. *)
Lemma is_available_to_shift_undefined (cap : Z) (this master : Thread.t) :
  thread_ok cap this →
  Thread.searching this = false →
  Thread.splitPointsSize this ≠ 0 →
  (64 ≤ Thread.idx master)%nat →
  Thread.is_available_to cap this master = Undefined.
Proof.
  intros Hok Hs Hnz Hidx. unfold Thread.is_available_to, Thread.is_available_to_at.
  rewrite Hs. destruct (Z.eqb_spec (Thread.splitPointsSize this) 0) as [?|_]; [done|].
  destruct (top_split_point_is_Some cap this Hok Hnz) as (sp & _ & ->).
  unfold shl_ull. destruct (Nat.ltb_spec (Thread.idx master) 64); [lia|reflexivity].
Qed.

(** C8. [is_available_to] stays within [splitPoints]: the size of the
    stack is read once into the local [size], and the one array access,
    at [size - 1] and only for a nonzero [size], uses that copy. With the
    size read between 0 and [MAX_SPLITPOINTS_PER_THREAD] the access is in
    bounds and the call has a defined result, whatever the thread's
    [splitPointsSize] has become by the time the array is read. *)
Theorem is_available_to_in_bounds
    (cap : Z) (at_searching at_size at_mask master : Thread.t) :
  length (Thread.splitPoints at_mask) = Z.to_nat cap →
  0 <= Thread.splitPointsSize at_size <= cap →
  (Thread.idx master < 64)%nat →
  (∃ b, Thread.is_available_to_at cap at_searching at_size at_mask master = Ok b)
  ∧ Thread.is_available_to_at cap at_searching at_size at_mask master ≠ Undefined
  ∧ (Thread.searching at_searching = false →
     Thread.splitPointsSize at_size ≠ 0 →
     ∃ sp, at_index cap (Thread.splitPoints at_mask)
             (Thread.splitPointsSize at_size - 1) = Ok sp
           ∧ Thread.splitPoints at_mask
               !! Z.to_nat (Thread.splitPointsSize at_size - 1) = Some sp
           ∧ Thread.is_available_to_at cap at_searching at_size at_mask master
             = Ok (Z.testbit (SplitPoint.slavesMask sp mod 2 ^ 64)
                             (Z.of_nat (Thread.idx master)))).
Proof.
  intros Hlen Hsz Hidx.
  assert (Hsp : Thread.splitPointsSize at_size ≠ 0 →
                ∃ sp, at_index cap (Thread.splitPoints at_mask)
                        (Thread.splitPointsSize at_size - 1) = Ok sp
                      ∧ Thread.splitPoints at_mask
                          !! Z.to_nat (Thread.splitPointsSize at_size - 1) = Some sp).
  { intros Hnz.
    destruct (lookup_lt_is_Some_2 (Thread.splitPoints at_mask)
                (Z.to_nat (Thread.splitPointsSize at_size - 1))) as [sp Hsp]; [lia|].
    exists sp. split; [|exact Hsp]. apply at_index_Ok. split; [lia|exact Hsp]. }
  assert (H : ∃ b, Thread.is_available_to_at cap at_searching at_size at_mask master
                   = Ok b).
  { unfold Thread.is_available_to_at.
    destruct (Thread.searching at_searching); [eauto|].
    destruct (Z.eqb_spec (Thread.splitPointsSize at_size) 0) as [?|Hnz]; [eauto|].
    destruct (Hsp Hnz) as (sp & -> & _).
    rewrite (proj2 (shl_ull_Ok 1 (Thread.idx master) _) (conj Hidx eq_refl)).
    simpl. eauto. }
  split; [exact H|]. split; [destruct H as [b ->]; discriminate|].
  intros Hs Hnz. destruct (Hsp Hnz) as (sp & Hat & Hlook).
  exists sp. split; [exact Hat|]. split; [exact Hlook|].
  unfold Thread.is_available_to_at. rewrite Hs.
  destruct (Z.eqb_spec (Thread.splitPointsSize at_size) 0) as [?|_]; [done|].
  rewrite Hat, (proj2 (shl_ull_Ok 1 (Thread.idx master) _) (conj Hidx eq_refl)).
  simpl. f_equal. apply land_bit_test. exact Hidx.
Qed.

Lemma is_available_to_in_bounds_witness :
  Thread.is_available_to_at 8 Demo.helpful_master
    (Thread.set_splitPointsSize 8 Demo.helpful_master)
    (Thread.set_splitPointsSize 0 Demo.helpful_master)
    (Demo.worker true 2)
  = Ok false
  ∧ Thread.is_available_to_at 8 Demo.helpful_master
      (Thread.set_splitPointsSize 1 Demo.helpful_master)
      (Thread.set_splitPointsSize 0 Demo.helpful_master)
      (Demo.worker true 2)
    = Ok true.
Proof.
  split.
  - destruct (is_available_to_in_bounds 8 Demo.helpful_master
                (Thread.set_splitPointsSize 8 Demo.helpful_master)
                (Thread.set_splitPointsSize 0 Demo.helpful_master)
                (Demo.worker true 2))
      as (_ & _ & Hread); [reflexivity|simpl; lia|simpl; lia|].
    destruct Hread as (sp & _ & Hsp & ->); [reflexivity|discriminate|].
    injection Hsp as <-. reflexivity.
  - destruct (is_available_to_in_bounds 8 Demo.helpful_master
                (Thread.set_splitPointsSize 1 Demo.helpful_master)
                (Thread.set_splitPointsSize 0 Demo.helpful_master)
                (Demo.worker true 2))
      as (_ & _ & Hread); [reflexivity|simpl; lia|simpl; lia|].
    destruct Hread as (sp & _ & Hsp & ->); [reflexivity|discriminate|].
    injection Hsp as <-. reflexivity.
Defined.

(** The bounds check of the embedding is a real one: an idle thread whose
    size lies outside the array makes the access at [size - 1] undefined. *)
Lemma is_available_to_out_of_bounds (cap : Z) (this master : Thread.t) :
  0 <= cap →
  Thread.searching this = false →
  Thread.splitPointsSize this < 0 ∨ cap < Thread.splitPointsSize this →
  Thread.is_available_to cap this master = Undefined.
Proof.
  intros Hcap Hs Hsz.
  unfold Thread.is_available_to, Thread.is_available_to_at, at_index. rewrite Hs.
  destruct (Z.eqb_spec (Thread.splitPointsSize this) 0) as [?|_]; [lia|].
  destruct (Z.leb_spec 0 (Thread.splitPointsSize this - 1));
    destruct (Z.ltb_spec (Thread.splitPointsSize this - 1) cap);
    simpl; try reflexivity; lia.
Qed.

(** ** Thread::cutoff_occurred *)

Lemma cutoff_occurred_from_chain cap threads start l :
  chain cap threads start l →
  ∀ fuel, (length l ≤ fuel)%nat →
    Thread.cutoff_occurred_from cap fuel threads start
    = Ok (existsb SplitPoint.cutoff l).
Proof.
  induction 1 as [|r p l Hread _ IH]; intros fuel Hfuel.
  - destruct fuel; reflexivity.
  - destruct fuel as [|fuel]; [simpl in Hfuel; lia|].
    simpl. rewrite Hread. simpl.
    destruct (SplitPoint.cutoff p); [reflexivity|].
    apply IH. simpl in Hfuel. lia.
Qed.

(** C7. [cutoff_occurred] answers true exactly when a split point on the
    chain from [activeSplitPoint] through the [parent] pointers, the
    active one included, has [cutoff] set; with a null [activeSplitPoint]
    or no cutoff on the chain it answers false. *)
Theorem cutoff_occurred_iff_some_ancestor_cut (cap : Z) (threads : list Thread.t)
    (this : Thread.t) (l : list SplitPoint.t) :
  chain cap threads (Thread.activeSplitPoint this) l →
  ∃ b, (∀ fuel, (length l ≤ fuel)%nat →
          Thread.cutoff_occurred cap fuel threads this = Ok b)
       ∧ (b = true ↔ ∃ p, p ∈ l ∧ SplitPoint.cutoff p = true)
       ∧ (Thread.activeSplitPoint this = None → b = false)
       ∧ ((∀ p, p ∈ l → SplitPoint.cutoff p = false) → b = false).
Proof.
  intros Hchain. exists (existsb SplitPoint.cutoff l).
  split; [|split; [|split]].
  - intros fuel Hfuel. apply cutoff_occurred_from_chain; assumption.
  - rewrite existsb_exists. split; intros (p & Hp & Hc); exists p;
      (split; [apply list_elem_of_In; exact Hp|exact Hc]).
  - intros Hnull. rewrite Hnull in Hchain. inversion Hchain. reflexivity.
  - intros Hnone. apply not_true_is_false. rewrite existsb_exists.
    intros (p & Hp & Hc). apply list_elem_of_In in Hp.
    rewrite (Hnone p Hp) in Hc. discriminate.
Qed.

(** Without the assumption that the walk ends: the answer is true, for
    some amount of fuel, exactly when a split point with a cutoff is met. *)
Lemma cutoff_occurred_true_iff_reaches_cut cap threads start :
  (∃ fuel, Thread.cutoff_occurred_from cap fuel threads start = Ok true)
  ↔ ∃ p, reaches cap threads start p ∧ SplitPoint.cutoff p = true.
Proof.
  split.
  - intros [fuel Hrun]. revert start Hrun.
    induction fuel as [|fuel IH]; intros [r|] Hrun; simpl in Hrun;
      try discriminate.
    apply bind_Ok in Hrun as (q & Hread & Hrun).
    destruct (SplitPoint.cutoff q) eqn:Hcut.
    + exists q. split; [apply reaches_here; exact Hread|exact Hcut].
    + destruct (IH _ Hrun) as (p & Hp & Hpc).
      exists p. split; [eapply reaches_parent; eassumption|exact Hpc].
  - intros (p & Hreach & Hcut).
    induction Hreach as [r p Hread|r q p Hread _ IH].
    + exists 1%nat. simpl. rewrite Hread. simpl. rewrite Hcut. reflexivity.
    + destruct (IH Hcut) as [fuel Hrun].
      exists (S fuel). simpl. rewrite Hread. simpl.
      destruct (SplitPoint.cutoff q); [reflexivity|exact Hrun].
Qed.

Lemma nested_chain :
  chain 8 Demo.nested_threads (Thread.activeSplitPoint Demo.nested_master)
    [Demo.inner_sp; SplitPoint.set_cutoff true Demo.blank_sp].
Proof.
  eapply chain_link; [reflexivity|]. simpl.
  eapply chain_link; [reflexivity|]. simpl. apply chain_null.
Qed.

Lemma cutoff_occurred_iff_some_ancestor_cut_witness :
  Thread.cutoff_occurred 8 2 Demo.nested_threads Demo.nested_master = Ok true.
Proof.
  destruct (cutoff_occurred_iff_some_ancestor_cut 8 Demo.nested_threads
              Demo.nested_master _ nested_chain) as (b & Hrun & Hiff & _).
  rewrite (Hrun 2%nat) by (simpl; lia). f_equal. apply Hiff.
  exists (SplitPoint.set_cutoff true Demo.blank_sp). split; [|reflexivity].
  apply list_elem_of_In. simpl. auto.
Defined.

(** ** TimerThread::idle_loop *)

Lemma timer_idle_loop_cons (o : TimerThread.Reads) (env : list TimerThread.Reads) :
  TimerThread.exit_at_loop o = false →
  TimerThread.idle_loop (o :: env)
  = (TimerThread.iteration o ++ (TimerThread.idle_loop env).1,
     (TimerThread.idle_loop env).2).
Proof.
  intros Hloop. simpl. rewrite Hloop.
  destruct (TimerThread.idle_loop env) as [tr returned]. reflexivity.
Qed.

(** The events of the loop are those of its passes, one after the other. *)
Lemma timer_idle_loop_events (env : list TimerThread.Reads) :
  (TimerThread.idle_loop env).1
  = flat_map TimerThread.iteration (TimerThread.iterations env).
Proof.
  induction env as [|o env IH]; [reflexivity|].
  simpl. destruct (TimerThread.exit_at_loop o) eqn:Hloop; [reflexivity|].
  destruct (TimerThread.idle_loop env) as [tr returned]. simpl in *.
  rewrite IH. reflexivity.
Qed.

(** A wait is begun only in a pass that read [exit] as false under the mutex. *)
Lemma timer_wait_only_if_not_exit (o : TimerThread.Reads) (ms : Z) :
  WaitFor ms ∈ TimerThread.iteration o → TimerThread.exit_under_mutex o = false.
Proof.
  unfold TimerThread.iteration. destruct (TimerThread.exit_under_mutex o); [|done].
  simpl. intros Hin. apply list_elem_of_In in Hin. simpl in Hin.
  destruct Hin as [?|[?|Hin]]; try discriminate.
  destruct (TimerThread.msec_at_check o =? 0); simpl in Hin;
    intuition discriminate.
Qed.

(** C6, as the code has it. In a pass of the loop that reads [exit] as
    false, the timer parks on its condition variable for up to [msec]
    milliseconds, and for up to [INT_MAX] milliseconds when [msec] is 0;
    it then calls [check_time()] when [msec] is not 0, and does not call it
    when [msec] is 0. *)
Theorem timer_pass_waits_then_checks_unless_msec_zero
    (o : TimerThread.Reads) (env : list TimerThread.Reads) :
  TimerThread.exit_at_loop o = false →
  TimerThread.exit_under_mutex o = false →
  TimerThread.idle_loop (o :: env)
  = ([Lock TimerMutex;
      WaitFor (if TimerThread.msec_at_wait o =? 0 then INT_MAX
               else TimerThread.msec_at_wait o);
      Unlock TimerMutex]
     ++ (if TimerThread.msec_at_check o =? 0 then [] else [CheckTime])
     ++ (TimerThread.idle_loop env).1,
     (TimerThread.idle_loop env).2).
Proof.
  intros Hloop Hmutex. rewrite (timer_idle_loop_cons o env Hloop).
  unfold TimerThread.iteration. rewrite Hmutex. reflexivity.
Qed.

Lemma timer_pass_waits_then_checks_unless_msec_zero_witness :
  TimerThread.idle_loop
    [TimerThread.mkReads false false 50 50; TimerThread.mkReads true true 50 50]
  = ([Lock TimerMutex; WaitFor 50; Unlock TimerMutex; CheckTime], true).
Proof.
  exact (timer_pass_waits_then_checks_unless_msec_zero
           (TimerThread.mkReads false false 50 50)
           [TimerThread.mkReads true true 50 50] eq_refl eq_refl).
Defined.

(** C6 as the specification words it fails with [msec = 0]: the pass
    parks with a timeout of [INT_MAX] milliseconds and [check_time()] is
    not called. *)
Lemma timer_msec_zero_no_check_time :
  TimerThread.idle_loop
    [TimerThread.mkReads false false 0 0; TimerThread.mkReads true true 0 0]
  = ([Lock TimerMutex; WaitFor INT_MAX; Unlock TimerMutex], true)
  ∧ CheckTime ∉ (TimerThread.idle_loop
                   [TimerThread.mkReads false false 0 0;
                    TimerThread.mkReads true true 0 0]).1.
Proof.
  split; [reflexivity|]. simpl. intros Hin. apply list_elem_of_In in Hin.
  simpl in Hin. intuition discriminate.
Qed.

Lemma set_once_app_r (l1 l2 : list bool) :
  TimerThread.set_once (l1 ++ l2) → TimerThread.set_once l2.
Proof. induction l1 as [|b l1 IH]; simpl; [done|]. intros [_ H]. auto. Qed.

Lemma timer_idle_loop_last_pass (pre : list TimerThread.Reads)
    (o o' : TimerThread.Reads) (post : list TimerThread.Reads) :
  Forall (fun x => TimerThread.exit_at_loop x = false) (pre ++ [o]) →
  TimerThread.exit_at_loop o' = true →
  TimerThread.idle_loop (pre ++ o :: o' :: post)
  = (flat_map TimerThread.iteration pre ++ TimerThread.iteration o, true).
Proof.
  induction pre as [|x pre IH]; intros Hall Hnext.
  - simpl in Hall. apply Forall_cons_1 in Hall as [Ho _]. simpl. rewrite Ho, Hnext.
    rewrite app_nil_r. reflexivity.
  - simpl in Hall. apply Forall_cons_1 in Hall as [Hx Hall].
    change ((x :: pre) ++ o :: o' :: post) with (x :: (pre ++ o :: o' :: post)).
    rewrite (timer_idle_loop_cons x _ Hx), (IH Hall Hnext). simpl.
    rewrite app_assoc. reflexivity.
Qed.

(** The events of the loop when a pass reads [exit] as true under the
    mutex and [exit] is not cleared afterwards: that pass locks and
    unlocks without a wait, and the next test of the loop condition ends
    the loop. *)
Lemma timer_idle_loop_ends_after_exit_seen
    (pre : list TimerThread.Reads) (o : TimerThread.Reads)
    (post : list TimerThread.Reads) :
  Forall (fun x => TimerThread.exit_at_loop x = false) (pre ++ [o]) →
  TimerThread.exit_under_mutex o = true →
  TimerThread.set_once (TimerThread.exit_reads (pre ++ o :: post)) →
  post ≠ [] →
  TimerThread.idle_loop (pre ++ o :: post)
  = (flat_map TimerThread.iteration pre ++ TimerThread.iteration o, true)
  ∧ TimerThread.iteration o
    = Lock TimerMutex :: Unlock TimerMutex
      :: (if TimerThread.msec_at_check o =? 0 then [] else [CheckTime])
  ∧ (∀ ms, WaitFor ms ∉ TimerThread.iteration o)
  ∧ (∀ x ms, x ∈ pre ++ [o] → WaitFor ms ∈ TimerThread.iteration x →
             TimerThread.exit_under_mutex x = false).
Proof.
  intros Hall Hmutex Honce Hpost.
  destruct post as [|o' post]; [done|].
  assert (Hnext : TimerThread.exit_at_loop o' = true).
  { unfold TimerThread.exit_reads in Honce. rewrite flat_map_app in Honce.
    apply set_once_app_r in Honce. simpl in Honce.
    destruct Honce as (_ & Htrue & _).
    specialize (Htrue Hmutex). apply Forall_cons_1 in Htrue as [H _]. exact H. }
  split; [apply timer_idle_loop_last_pass; assumption|].
  split; [unfold TimerThread.iteration; rewrite Hmutex; reflexivity|].
  split.
  - intros ms Hin. apply timer_wait_only_if_not_exit in Hin. congruence.
  - intros x ms _ Hin. eapply timer_wait_only_if_not_exit. exact Hin.
Qed.

(** ** The timer thread and its destructor *)

Section Shutdown.

Import TimerThread TimerShutdown.

Lemma follow_app pc l1 l2 :
  follow pc (l1 ++ l2) = follow pc l1 ≫= (fun pc' => follow pc' l2).
Proof.
  revert pc. induction l1 as [|st l1 IH]; intros pc; simpl; [reflexivity|].
  destruct (next pc st); simpl; [apply IH|reflexivity].
Qed.

Lemma follow_pass o : follow AtLock (pass o) = Some AtLoopTest.
Proof.
  unfold pass.
  destruct (exit_under_mutex o); destruct (msec_at_check o =? 0) eqn:Hc; simpl;
    rewrite ?Z.eqb_refl; simpl; rewrite ?Hc; reflexivity.
Qed.

(** The steps of the loop follow its places: from the test of the loop
    condition back to it, or to the return. *)
Lemma follow_steps env :
  follow AtLoopTest (steps env).1
  = Some (if (steps env).2 then Returned else AtLoopTest).
Proof.
  induction env as [|o env IH]; [reflexivity|]. cbn [steps].
  destruct (exit_at_loop o); [reflexivity|].
  destruct (steps env) as [tr returned]. cbn [fst snd] in *.
  change (follow AtLoopTest (SeesExit false :: pass o ++ tr))
    with (follow AtLock (pass o ++ tr)).
  rewrite follow_app, follow_pass. exact IH.
Qed.

Lemma follow_prefix env tp :
  tp `prefix_of` (steps env).1 → ∃ pc, follow AtLoopTest tp = Some pc.
Proof.
  intros [rest Hrest]. pose proof (follow_steps env) as H.
  rewrite Hrest, follow_app in H.
  destruct (follow AtLoopTest tp) as [pc|]; [eauto|discriminate].
Qed.

(** The events of the steps are those of [TimerThread.idle_loop]. *)
Lemma timer_steps_events env :
  events (steps env).1 = (idle_loop env).1 ∧ (steps env).2 = (idle_loop env).2.
Proof.
  induction env as [|o env [IH1 IH2]]; [done|]. simpl.
  destruct (exit_at_loop o); [done|].
  destruct (steps env) as [tr returned], (idle_loop env) as [tr' returned'].
  simpl in *. subst. split; [|reflexivity].
  unfold events. rewrite flat_map_app. f_equal.
  unfold pass, iteration. destruct (exit_under_mutex o); simpl;
    destruct (msec_at_check o =? 0); reflexivity.
Qed.

Lemma follow_snoc pc l x :
  follow pc (l ++ [x]) = follow pc l ≫= (fun pc' => next pc' x).
Proof.
  rewrite follow_app. destruct (follow pc l) as [pc'|]; simpl; [|reflexivity].
  destruct (next pc' x); reflexivity.
Qed.

Lemma next_to_wait pc x ms :
  next pc x = Some (AtWait ms) →
  pc = AtMsecForWait ∧ ∃ v, x = SeesMsec v ∧ ms = (if v =? 0 then INT_MAX else v).
Proof.
  destruct pc, x as [b|v|[[]|[]|?|?|]| | |]; simpl; try discriminate;
    try (destruct b; discriminate); try (destruct (_ =? _); discriminate).
  intros [= <-]. eauto.
Qed.

Lemma next_to_msec_for_wait pc x :
  next pc x = Some AtMsecForWait → pc = AtExitUnderMutex ∧ x = SeesExit false.
Proof.
  destruct pc, x as [[]|v|[[]|[]|?|?|]| | |]; simpl; try discriminate;
    try (destruct (_ =? _); discriminate).
  done.
Qed.

Lemma next_to_exit_under_mutex pc x :
  next pc x = Some AtExitUnderMutex → pc = AtLock ∧ x = Does (Lock TimerMutex).
Proof.
  destruct pc, x as [[]|v|[[]|[]|?|?|]| | |]; simpl; try discriminate;
    try (destruct (_ =? _); discriminate).
  done.
Qed.

Lemma next_lock pc pc' :
  next pc (Does (Lock TimerMutex)) = Some pc' → pc' = AtExitUnderMutex.
Proof. destruct pc; simpl; try discriminate. congruence. Qed.

Lemma next_wait pc ms pc' :
  next pc (Does (WaitFor ms)) = Some pc' → pc = AtWait ms.
Proof.
  destruct pc; simpl; try discriminate.
  destruct (Z.eqb_spec ms0 ms); [congruence|discriminate].
Qed.

(** A wait is reached through the lock, a read of [exit] that gives
    false and the read of [msec]. *)
Lemma follow_to_wait tp ms :
  follow AtLoopTest tp = Some (AtWait ms) →
  ∃ tp' v, tp = tp' ++ [Does (Lock TimerMutex); SeesExit false; SeesMsec v]
           ∧ ms = (if v =? 0 then INT_MAX else v).
Proof.
  intros H.
  destruct tp as [|x3 tp3 _] using rev_ind; [discriminate|].
  rewrite follow_snoc in H.
  destruct (follow AtLoopTest tp3) as [pc3|] eqn:H3; [|discriminate]. simpl in H.
  apply next_to_wait in H as (-> & v & -> & ->).
  destruct tp3 as [|x2 tp2 _] using rev_ind; [discriminate|].
  rewrite follow_snoc in H3.
  destruct (follow AtLoopTest tp2) as [pc2|] eqn:H2; [|discriminate]. simpl in H3.
  apply next_to_msec_for_wait in H3 as (-> & ->).
  destruct tp2 as [|x1 tp1 _] using rev_ind; [discriminate|].
  rewrite follow_snoc in H2.
  destruct (follow AtLoopTest tp1) as [pc1|] eqn:H1; [|discriminate]. simpl in H2.
  apply next_to_exit_under_mutex in H2 as (-> & ->).
  exists tp1, v. rewrite <- !app_assoc. done.
Qed.

(** After a read of [exit] as true under the mutex, and with every later
    read of [exit] giving true, the loop unlocks, reads [msec], calls
    [check_time()] when [msec] is not 0, reads [exit] and returns. *)
Lemma follow_last tp pc :
  follow AtUnlock tp = Some pc →
  (∀ b, SeesExit b ∈ tp → b = true) →
  ∃ v, tp `prefix_of` last_steps v ∧ (tp = last_steps v ↔ pc = Returned).
Proof.
  intros H Htrue. unfold last_steps.
  destruct tp as [|x1 tp]; [exists 0; split; [apply prefix_nil|]|].
  { simpl in H. injection H as <-. split; discriminate. }
  simpl in H. destruct x1 as [?|?|[?|[]|?|?|]| | |]; try discriminate. simpl in H.
  destruct tp as [|x2 tp].
  { exists 0. simpl in H. injection H as <-.
    split; [eexists; reflexivity|]. split; discriminate. }
  simpl in H. destruct x2 as [?|v|?| | |]; try discriminate.
  exists v. destruct (Z.eqb_spec v 0) as [Hv|Hv]; simpl in H |- *.
  - destruct tp as [|x3 tp].
    { injection H as <-. split; [eexists; reflexivity|]. split; discriminate. }
    simpl in H. destruct x3 as [b|?|?| | |]; try discriminate.
    assert (b = true) as ->.
    { apply Htrue. apply elem_of_cons. right. apply elem_of_cons. right.
      apply elem_of_cons. left. reflexivity. }
    simpl in H. destruct tp as [|x4 tp]; [|discriminate].
    injection H as <-. split; [reflexivity|]. done.
  - destruct tp as [|x3 tp].
    { injection H as <-. split; [eexists; reflexivity|]. split; discriminate. }
    simpl in H. destruct x3 as [?|?|[?|?|?|?|]| | |]; try discriminate.
    simpl in H. destruct tp as [|x4 tp].
    { injection H as <-. split; [eexists; reflexivity|]. split; discriminate. }
    simpl in H. destruct x4 as [b|?|?| | |]; try discriminate.
    assert (b = true) as ->.
    { apply Htrue. do 3 (apply elem_of_cons; right). apply elem_of_cons. left.
      reflexivity. }
    simpl in H. destruct tp as [|x5 tp]; [|discriminate].
    injection H as <-. split; [reflexivity|]. done.
Qed.

Lemma no_wait_in_last_steps v ms : Does (WaitFor ms) ∉ last_steps v.
Proof.
  unfold last_steps. intros Hin. apply list_elem_of_In in Hin. simpl in Hin.
  destruct (v =? 0); simpl in Hin; intuition discriminate.
Qed.

(** *** Executions *)

Lemma run_app e1 e2 sh : run (e1 ++ e2) sh = run e1 sh ≫= run e2.
Proof.
  revert sh. induction e1 as [|[w st] e1 IH]; intros sh; simpl; [reflexivity|].
  destruct (act w st sh); simpl; [apply IH|reflexivity].
Qed.

Lemma project_app w e1 e2 : project w (e1 ++ e2) = project w e1 ++ project w e2.
Proof. apply flat_map_app. Qed.

Lemma project_cons_eq w st e : project w ((w, st) :: e) = st :: project w e.
Proof. unfold project. simpl. rewrite bool_decide_eq_true_2 by done. reflexivity. Qed.

Lemma elem_of_project w st e : st ∈ project w e ↔ (w, st) ∈ e.
Proof.
  induction e as [|[w' st'] e IH]; simpl.
  - split; intros H; by apply elem_of_nil in H.
  - unfold project in *. simpl. destruct (decide (w' = w)) as [->|Hne].
    + rewrite bool_decide_eq_true_2 by done. simpl.
      rewrite !elem_of_cons, IH. split; intros [?|?]; auto; left; congruence.
    + rewrite bool_decide_eq_false_2 by done. simpl.
      rewrite elem_of_cons, IH. split; [auto|]. intros [?|?]; [congruence|done].
Qed.

(** The place in an execution of the last step of a thread. *)
Lemma project_snoc_inv w e l x :
  project w e = l ++ [x] →
  ∃ e1 e2, e = e1 ++ (w, x) :: e2 ∧ project w e1 = l ∧ project w e2 = [].
Proof.
  induction e as [|[w' st'] e IH] using rev_ind; intros H.
  - destruct l; discriminate.
  - rewrite project_app in H. unfold project at 2 in H. simpl in H.
    destruct (decide (w' = w)) as [->|Hne].
    + rewrite bool_decide_eq_true_2 in H by done. simpl in H.
      apply app_inj_tail in H as [H ->]. exists e, []. done.
    + rewrite bool_decide_eq_false_2 in H by done. simpl in H.
      rewrite app_nil_r in H. destruct (IH H) as (e1 & e2 & -> & H1 & H2).
      exists e1, (e2 ++ [(w', st')]). rewrite <- app_assoc. split; [done|].
      split; [done|]. rewrite project_app, H2. unfold project. simpl.
      rewrite bool_decide_eq_false_2 by done. reflexivity.
Qed.

(** While a thread holds the mutex and takes no step, it goes on holding
    it: the other thread can neither lock nor unlock it, nor wait on it. *)
Lemma run_held_by w e sh sh' :
  run e sh = Some sh' → holder sh = Some w → project w e = [] →
  holder sh' = Some w.
Proof.
  revert sh. induction e as [|[w' st] e IH]; intros sh Hrun Hheld Hproj.
  - simpl in Hrun. congruence.
  - destruct (decide (w' = w)) as [->|Hne];
      [rewrite project_cons_eq in Hproj; discriminate|].
    simpl in Hrun. destruct (act w' st sh) as [sh1|] eqn:Hact; [|discriminate].
    apply (IH sh1 Hrun).
    + destruct w', st as [?|?|[[]|[]|?|?|]| | |]; simpl in Hact; try discriminate;
        rewrite ?Hheld in Hact; simpl in Hact;
        repeat match type of Hact with
               | context [bool_decide ?P] => destruct (bool_decide_reflect P)
               | context [waiting sh] => destruct (waiting sh)
               end; simpl in Hact; try discriminate; try congruence;
        injection Hact as <-; first [exact Hheld | reflexivity].
    + unfold project in *. simpl in Hproj.
      rewrite bool_decide_eq_false_2 in Hproj by done. exact Hproj.
Qed.

Lemma run_held e sh sh' :
  run e sh = Some sh' → holder sh = Some Timer → project Timer e = [] →
  holder sh' = Some Timer.
Proof. apply run_held_by. Qed.

(** Once [exit] is set it stays set, the destructor being its only
    writer, and every later read of it gives true. *)
Lemma exit_stays e sh sh' :
  run e sh = Some sh' → exit_now sh = true →
  (∀ b, (Destroyer, SetsExit b) ∈ e → b = true) →
  exit_now sh' = true ∧ ∀ b, (Timer, SeesExit b) ∈ e → b = true.
Proof.
  revert sh. induction e as [|[w st] e IH]; intros sh Hrun Hexit Hset.
  - simpl in Hrun. injection Hrun as <-. split; [done|].
    intros b Hb. by apply elem_of_nil in Hb.
  - simpl in Hrun. destruct (act w st sh) as [sh1|] eqn:Hact; [|discriminate].
    assert (Hexit1 : exit_now sh1 = true).
    { destruct w, st as [b|?|[[]|[]|?|?|]| | b|]; simpl in Hact; try discriminate;
        repeat match type of Hact with
               | context [bool_decide ?P] => destruct (bool_decide P)
               | context [holder sh] => destruct (holder sh)
               | context [waiting sh] => destruct (waiting sh)
               end; simpl in Hact; try discriminate;
        injection Hact as <-; simpl; try done.
      all: apply Hset; apply elem_of_cons; auto. }
    destruct (IH sh1 Hrun Hexit1) as [Hfin Hreads].
    { intros b Hb. apply Hset. apply elem_of_cons. auto. }
    split; [exact Hfin|]. intros b Hb. apply elem_of_cons in Hb as [Hb|Hb]; [|auto].
    injection Hb as <- <-. simpl in Hact.
    destruct (bool_decide_reflect (b = exit_now sh)); [congruence|discriminate].
Qed.

Lemma destructor_sets_true e b :
  project Destroyer e `prefix_of` destructor → (Destroyer, SetsExit b) ∈ e → b = true.
Proof.
  intros [rest Hrest] Hin. apply elem_of_project in Hin.
  assert (H : SetsExit b ∈ destructor).
  { rewrite Hrest. apply elem_of_app. auto. }
  apply list_elem_of_In in H. simpl in H.
  destruct H as [H|[H|[H|[H|[]]]]]; try discriminate. congruence.
Qed.

End Shutdown.

Section ShutdownClaims.

Import TimerThread TimerShutdown.

Lemma run_app_Some e1 e2 sh sh' :
  run (e1 ++ e2) sh = Some sh' ↔ ∃ sh1, run e1 sh = Some sh1 ∧ run e2 sh1 = Some sh'.
Proof.
  rewrite run_app. destruct (run e1 sh) as [sh1|]; simpl; split.
  - eauto.
  - intros (? & [= <-] & H). exact H.
  - discriminate.
  - intros (? & ? & _). discriminate.
Qed.

Lemma run_cons_Some w st e sh sh' :
  run ((w, st) :: e) sh = Some sh' ↔ ∃ sh1, act w st sh = Some sh1 ∧ run e sh1 = Some sh'.
Proof.
  simpl. destruct (act w st sh) as [sh1|]; split.
  - eauto.
  - intros (? & [= <-] & H). exact H.
  - discriminate.
  - intros (? & ? & _). discriminate.
Qed.

Lemma act_lock w sh sh' :
  act w (Does (Lock TimerMutex)) sh = Some sh' → holder sh' = Some w.
Proof. simpl. destruct (holder sh); [discriminate|]. intros [= <-]. reflexivity. Qed.

Lemma act_sees_exit b sh sh' :
  act Timer (SeesExit b) sh = Some sh' → sh' = sh ∧ exit_now sh = b.
Proof.
  simpl. destruct (bool_decide_reflect (b = exit_now sh)); [|discriminate].
  intros [= <-]. done.
Qed.

Lemma act_wait ms sh sh' :
  act Timer (Does (WaitFor ms)) sh = Some sh' → holder sh = Some Timer.
Proof.
  simpl. destruct (bool_decide_reflect (holder sh = Some Timer)); [done|discriminate].
Qed.

(** The state in which the timer takes the step that follows its
    [mutex.lock()]: it holds the mutex. *)
Lemma run_to_step_after_lock pre tp sh :
  project Timer pre = tp ++ [Does (Lock TimerMutex)] →
  run pre initial = Some sh →
  holder sh = Some Timer.
Proof.
  intros Hproj Hrun.
  destruct (project_snoc_inv Timer pre _ _ Hproj) as (e0 & ed & -> & _ & Hed).
  apply run_app_Some in Hrun as (sh0 & _ & Hrun).
  apply run_cons_Some in Hrun as (shl & Hlock & Hrun).
  apply (run_held ed shl sh Hrun); [|exact Hed]. exact (act_lock _ _ _ Hlock).
Qed.

(** C10, as the code has it. In every execution of the timer's loop
    beside the thread that destroys the timer: the timer begins a wait
    only after it has read [exit] with its mutex held and found it false,
    the read of [msec] alone lying between that read and the wait, and
    it still holds the mutex when it calls [wait_for]; and when the read
    of [exit] that follows [mutex.lock()] gives true the timer holds the
    mutex, begins no wait any more, and does no more than unlock, read
    [msec], call [check_time()] when [msec] is not 0 and test the loop
    condition, which ends the loop. *)
Theorem timer_waits_only_after_exit_read_false_under_mutex
    (env : list Reads) (ex : list (Who * Step)) :
  execution env ex →
  (∀ pre ms post, ex = pre ++ (Timer, Does (WaitFor ms)) :: post →
     ∃ e1 e2 v sh1 sh,
       pre = e1 ++ (Timer, SeesExit false) :: e2
       ∧ project Timer e2 = [SeesMsec v]
       ∧ ms = (if v =? 0 then INT_MAX else v)
       ∧ run e1 initial = Some sh1
       ∧ holder sh1 = Some Timer
       ∧ exit_now sh1 = false
       ∧ run pre initial = Some sh
       ∧ holder sh = Some Timer)
  ∧ (∀ pre post tp, ex = pre ++ (Timer, SeesExit true) :: post →
       project Timer pre = tp ++ [Does (Lock TimerMutex)] →
       (∃ sh, run pre initial = Some sh
              ∧ holder sh = Some Timer
              ∧ exit_now sh = true)
       ∧ (∀ ms, (Timer, Does (WaitFor ms)) ∉ post)
       ∧ ∃ v, project Timer post `prefix_of` last_steps v
              ∧ (project Timer post = last_steps v →
                 (steps env).2 = true ∧ (idle_loop env).2 = true)).
Proof.
  intros (Htimer & Hdest & [shf Hrun]). split.
  - intros pre ms post ->.
    rewrite project_app, project_cons_eq in Htimer.
    assert (Hpre : project Timer pre ++ [Does (WaitFor ms)] `prefix_of` (steps env).1).
    { etrans; [|exact Htimer]. exists (project Timer post).
      rewrite <- app_assoc. reflexivity. }
    apply follow_prefix in Hpre as [pc Hpc]. rewrite follow_snoc in Hpc.
    destruct (follow AtLoopTest (project Timer pre)) as [pc0|] eqn:Hpc0;
      [|discriminate].
    simpl in Hpc. apply next_wait in Hpc as ->.
    apply follow_to_wait in Hpc0 as (tp' & v & Hproj & Hms).
    change [Does (Lock TimerMutex); SeesExit false; SeesMsec v]
      with ([Does (Lock TimerMutex); SeesExit false] ++ [SeesMsec v]) in Hproj.
    rewrite app_assoc in Hproj.
    destruct (project_snoc_inv Timer pre _ _ Hproj) as (ea & eb & -> & Hea & Heb).
    change [Does (Lock TimerMutex); SeesExit false]
      with ([Does (Lock TimerMutex)] ++ [SeesExit false]) in Hea.
    rewrite app_assoc in Hea.
    destruct (project_snoc_inv Timer ea _ _ Hea) as (e1 & ec & -> & He1 & Hec).
    apply run_app_Some in Hrun as (sh & Hrunpre & Hrun).
    apply run_cons_Some in Hrun as (shw & Hwait & _).
    pose proof Hrunpre as Hrun1. rewrite <- app_assoc in Hrun1.
    apply run_app_Some in Hrun1 as (sh1 & Hrun1 & Hrest).
    apply run_cons_Some in Hrest as (sh1' & Hsees & _).
    apply act_sees_exit in Hsees as [_ Hexit].
    exists e1, (ec ++ (Timer, SeesMsec v) :: eb), v, sh1, sh.
    split; [rewrite <- app_assoc; reflexivity|].
    split; [rewrite project_app, project_cons_eq, Hec, Heb; reflexivity|].
    split; [exact Hms|]. split; [exact Hrun1|].
    split; [exact (run_to_step_after_lock e1 tp' sh1 He1 Hrun1)|].
    split; [exact Hexit|]. split; [exact Hrunpre|].
    exact (act_wait _ _ _ Hwait).
  - intros pre post tp -> Hproj.
    apply run_app_Some in Hrun as (sh & Hrunpre & Hrun).
    apply run_cons_Some in Hrun as (sh' & Hsees & Hrunpost).
    apply act_sees_exit in Hsees as [-> Hexit].
    pose proof (run_to_step_after_lock pre tp sh Hproj Hrunpre) as Hheld.
    split; [exists sh; done|].
    destruct (exit_stays post sh shf Hrunpost Hexit) as [_ Hreads].
    { intros b Hb. apply (destructor_sets_true _ b Hdest).
      apply elem_of_app. right. apply elem_of_cons. auto. }
    pose proof Htimer as Hall. apply follow_prefix in Hall as [pcf Hpcf].
    rewrite project_app, project_cons_eq, Hproj, follow_app, follow_snoc in Hpcf.
    destruct (follow AtLoopTest tp) as [pc0|]; [|discriminate]. simpl in Hpcf.
    destruct (next pc0 (Does (Lock TimerMutex))) as [pc1|] eqn:Hlock;
      [|discriminate].
    apply next_lock in Hlock as ->. simpl in Hpcf.
    destruct (follow_last (project Timer post) pcf Hpcf) as (v & Hpre & Hend).
    { intros b Hb. apply Hreads. apply elem_of_project. exact Hb. }
    split.
    + intros ms Hin. apply elem_of_project in Hin.
      destruct Hpre as [rest Hrest].
      apply (no_wait_in_last_steps v ms). rewrite Hrest. apply elem_of_app. auto.
    + exists v. split; [exact Hpre|]. intros Hlast.
      apply Hend in Hlast as ->.
      assert (Hret : (steps env).2 = true).
      { destruct Htimer as [rest Hrest]. pose proof (follow_steps env) as Hf.
        rewrite Hrest, follow_app in Hf.
        rewrite project_app, project_cons_eq, Hproj, follow_app, follow_snoc in Hf.
        destruct (follow AtLoopTest tp) as [pc0'|]; [|discriminate]. simpl in Hf.
        destruct (next pc0' (Does (Lock TimerMutex))) as [pc1|] eqn:Hlock;
          [|discriminate].
        apply next_lock in Hlock as ->. simpl in Hf. rewrite Hpcf in Hf. simpl in Hf.
        destruct rest as [|x rest]; [|discriminate]. simpl in Hf.
        destruct (steps env).2; [reflexivity|discriminate]. }
      split; [exact Hret|]. rewrite <- (proj2 (timer_steps_events env)). exact Hret.
Qed.

(** The notification of the destructor is made with the timer's mutex
    held by the destructor, so it cannot fall between the timer's read of
    [exit] under the mutex and its call of [wait_for]: when [exit] is set
    in between, the timer is already waiting when it is notified. *)
Lemma destructor_notifies_holding_mutex
    (env : list Reads) (ex pre post : list (Who * Step)) (sh : Shared) :
  execution env ex →
  ex = pre ++ (Destroyer, Notifies) :: post →
  run pre initial = Some sh →
  holder sh = Some Destroyer.
Proof.
  intros (_ & [rest Hdest] & _) -> Hrun.
  rewrite project_app, project_cons_eq in Hdest.
  assert (Hpre : project Destroyer pre = [SetsExit true; Does (Lock TimerMutex)]).
  { unfold destructor in Hdest. rewrite <- app_assoc in Hdest.
    destruct (project Destroyer pre) as [|x1 [|x2 [|x3 [|x4 l]]]];
      simplify_eq/=; try reflexivity.
    by destruct l. }
  change [SetsExit true; Does (Lock TimerMutex)]
    with ([SetsExit true] ++ [Does (Lock TimerMutex)]) in Hpre.
  destruct (project_snoc_inv Destroyer pre _ _ Hpre) as (e0 & e1 & -> & _ & He1).
  apply run_app_Some in Hrun as (sh0 & _ & Hrun).
  apply run_cons_Some in Hrun as (shl & Hlock & Hrun).
  apply (run_held_by Destroyer e1 shl sh Hrun); [|exact He1].
  exact (act_lock _ _ _ Hlock).
Qed.

End ShutdownClaims.

Lemma late_exit_execution :
  TimerShutdown.execution ShutdownDemo.late_exit_reads ShutdownDemo.late_exit.
Proof.
  split; [|split].
  - exists []. reflexivity.
  - exists []. reflexivity.
  - eexists. vm_compute. reflexivity.
Qed.

Lemma early_exit_execution :
  TimerShutdown.execution ShutdownDemo.early_exit_reads ShutdownDemo.early_exit.
Proof.
  split; [|split].
  - exists []. reflexivity.
  - exists []. reflexivity.
  - eexists. vm_compute. reflexivity.
Qed.

Lemma timer_waits_only_after_exit_read_false_under_mutex_witness :
  (∃ e1 e2 v sh1 sh,
     take 5 ShutdownDemo.late_exit
     = e1 ++ (TimerShutdown.Timer, TimerShutdown.SeesExit false) :: e2
     ∧ TimerShutdown.project TimerShutdown.Timer e2 = [TimerShutdown.SeesMsec v]
     ∧ 50 = (if v =? 0 then INT_MAX else v)
     ∧ TimerShutdown.run e1 TimerShutdown.initial = Some sh1
     ∧ TimerShutdown.holder sh1 = Some TimerShutdown.Timer
     ∧ TimerShutdown.exit_now sh1 = false
     ∧ TimerShutdown.run (take 5 ShutdownDemo.late_exit) TimerShutdown.initial
       = Some sh
     ∧ TimerShutdown.holder sh = Some TimerShutdown.Timer)
  ∧ (∃ sh, TimerShutdown.run (take 3 ShutdownDemo.early_exit) TimerShutdown.initial
           = Some sh
           ∧ TimerShutdown.holder sh = Some TimerShutdown.Timer
           ∧ TimerShutdown.exit_now sh = true).
Proof.
  split.
  - exact (proj1 (timer_waits_only_after_exit_read_false_under_mutex
                    ShutdownDemo.late_exit_reads ShutdownDemo.late_exit
                    late_exit_execution)
             (take 5 ShutdownDemo.late_exit) 50 (drop 6 ShutdownDemo.late_exit)
             eq_refl).
  - exact (proj1 (proj2 (timer_waits_only_after_exit_read_false_under_mutex
                           ShutdownDemo.early_exit_reads ShutdownDemo.early_exit
                           early_exit_execution)
                    (take 3 ShutdownDemo.early_exit) (drop 4 ShutdownDemo.early_exit)
                    [TimerShutdown.SeesExit false] eq_refl eq_refl)).
Defined.

(** C10 as the specification words it fails: [Thread::~Thread] sets
    [exit] without taking the timer's mutex, so [exit] can become true
    between the timer's read of it under the mutex and the call of
    [wait_for]; the wait is then begun with [exit] set. The
    [notify_one()] of the destructor, which needs the mutex that the
    timer holds until it waits, comes after the wait has begun and ends
    it. *)
Lemma timer_wait_begun_with_exit_set :
  TimerShutdown.execution ShutdownDemo.late_exit_reads ShutdownDemo.late_exit
  ∧ ∃ pre post sh,
      ShutdownDemo.late_exit
      = pre ++ (TimerShutdown.Timer, TimerShutdown.Does (WaitFor 50)) :: post
      ∧ TimerShutdown.run pre TimerShutdown.initial = Some sh
      ∧ TimerShutdown.exit_now sh = true
      ∧ TimerShutdown.holder sh = Some TimerShutdown.Timer.
Proof.
  split; [exact late_exit_execution|].
  exists (take 5 ShutdownDemo.late_exit), (drop 6 ShutdownDemo.late_exit).
  eexists. split; [reflexivity|]. split; [vm_compute; reflexivity|].
  split; reflexivity.
Qed.

(** ** Writes through thread and split-point pointers *)

Lemma alter_thread_lookup i f s j :
  threads (alter_thread i f s) !! j
  = if decide (i = j) then f <$> threads s !! j else threads s !! j.
Proof.
  unfold alter_thread. simpl. rewrite list_lookup_alter.
  destruct (decide (i = j)); subst; reflexivity.
Qed.

Lemma alter_thread_lookup_ne i f s j :
  i ≠ j → threads (alter_thread i f s) !! j = threads s !! j.
Proof. intros. rewrite alter_thread_lookup. destruct (decide (i = j)); done. Qed.

Lemma alter_thread_lookup_eq i f s th :
  threads s !! i = Some th → threads (alter_thread i f s) !! i = Some (f th).
Proof.
  intros H. rewrite alter_thread_lookup, H. destruct (decide (i = i)); done.
Qed.

Lemma alter_sp_lookup_ne r f s j :
  r.1 ≠ j → threads (alter_sp r f s) !! j = threads s !! j.
Proof. apply alter_thread_lookup_ne. Qed.

Lemma alter_sp_lookup_eq r f s th :
  threads s !! r.1 = Some th →
  threads (alter_sp r f s) !! r.1
  = Some (Thread.set_splitPoints (alter f r.2 (Thread.splitPoints th)) th).
Proof.
  intros H. unfold alter_sp.
  rewrite (alter_thread_lookup_eq _ _ _ _ H). reflexivity.
Qed.

Lemma threads_log es s : threads (log es s) = threads s.
Proof. reflexivity. Qed.

Lemma master_kept_refl k ma : master_kept k ma ma.
Proof. split; auto. Qed.

Lemma master_kept_trans k ma1 ma2 ma3 :
  master_kept k ma1 ma2 → master_kept k ma2 ma3 → master_kept k ma1 ma3.
Proof.
  intros [i1 z1 a1 s1 p1] [i2 z2 a2 s2 p2]. split.
  - congruence.
  - congruence.
  - congruence.
  - auto.
  - congruence.
Qed.

(** ** Booking one slave *)

Section Booking.

Variable E : Externals.

Lemma recruit_one_Ok i r s s' :
  ThreadPool.recruit_one i r s = Ok s' ↔ (i < 64)%nat ∧ s' = recruited i r s.
Proof.
  unfold ThreadPool.recruit_one. rewrite bind_Ok. split.
  - intros (bit & Hbit & Hs). apply shl_ull_Ok in Hbit as [Hi ->].
    injection Hs as <-. done.
  - intros [Hi ->]. exists (shl64 1 i). split; [|reflexivity].
    apply shl_ull_Ok. done.
Qed.

Lemma recruit_one_trace i r s :
  trace (recruited i r s) = trace s ++ notify_events i.
Proof. reflexivity. Qed.

Lemma recruit_one_other i r s j :
  j ≠ i → j ≠ r.1 → threads (recruited i r s) !! j = threads s !! j.
Proof.
  intros Hi Hr. unfold recruited, notify_one.
  rewrite threads_log, !alter_thread_lookup_ne by done.
  apply alter_sp_lookup_ne. done.
Qed.

Lemma recruit_one_slave i r s th :
  i ≠ r.1 → threads s !! i = Some th →
  ∃ th', threads (recruited i r s) !! i = Some th'
         ∧ Thread.searching th' = true
         ∧ Thread.activeSplitPoint th' = Some r.
Proof.
  intros Hr Hth. unfold recruited, notify_one.
  rewrite threads_log. eexists. split.
  - apply alter_thread_lookup_eq, alter_thread_lookup_eq.
    rewrite alter_sp_lookup_ne by done. exact Hth.
  - split; reflexivity.
Qed.

Lemma recruit_one_master i r s ma :
  i ≠ r.1 → threads s !! r.1 = Some ma →
  ∃ ma', threads (recruited i r s) !! r.1 = Some ma'
         ∧ master_kept r.2 ma ma'.
Proof.
  intros Hr Hma. unfold recruited, notify_one.
  rewrite threads_log, !alter_thread_lookup_ne by done.
  rewrite (alter_sp_lookup_eq _ _ _ _ Hma).
  eexists. split; [reflexivity|]. split; simpl; try done.
  rewrite list_lookup_alter_eq. destruct (Thread.splitPoints ma !! r.2); done.
Qed.

Lemma is_available_to_master_idx cap th ma ma' :
  Thread.idx ma' = Thread.idx ma →
  Thread.is_available_to cap th ma' = Thread.is_available_to cap th ma.
Proof.
  intros H. unfold Thread.is_available_to, Thread.is_available_to_at.
  rewrite H. reflexivity.
Qed.

Lemma searching_not_available cap th ma :
  Thread.searching th = true → Thread.is_available_to cap th ma = Ok false.
Proof.
  intros H. unfold Thread.is_available_to, Thread.is_available_to_at.
  rewrite H. reflexivity.
Qed.

(** Whether a thread can be booked depends on the thread itself and on
    the index of the master, which is searching. *)
Lemma available_ext (s s' : State) (m : nat) (ma ma' : Thread.t) (j : nat) :
  threads s !! m = Some ma → threads s' !! m = Some ma' →
  Thread.searching ma = true → Thread.searching ma' = true →
  Thread.idx ma' = Thread.idx ma →
  (j ≠ m → threads s' !! j = threads s !! j) →
  ThreadPool.available E s' m j = ThreadPool.available E s m j.
Proof.
  intros Hma Hma' Hs Hs' Hidx Hj. unfold ThreadPool.available.
  rewrite Hma, Hma'. destruct (decide (j = m)) as [->|Hne].
  - rewrite Hma, Hma'. rewrite !searching_not_available by done. reflexivity.
  - rewrite (Hj Hne). destruct (threads s !! j); [|reflexivity].
    rewrite (is_available_to_master_idx _ _ _ _ Hidx). reflexivity.
Qed.

Lemma available_true (s : State) (m i : nat) th ma :
  threads s !! i = Some th → threads s !! m = Some ma →
  ∀ b, Thread.is_available_to (MAX_SPLITPOINTS_PER_THREAD E) th ma = Ok b →
       ThreadPool.available E s m i = b.
Proof.
  intros Hth Hma b Hb. unfold ThreadPool.available. rewrite Hth, Hma, Hb. done.
Qed.

(** [slave_available] answers whether some thread can be booked. *)
Lemma slave_available_from_spec idxs m s b :
  ThreadPool.slave_available_from E idxs m s = Ok b →
  (b = true ↔ ∃ i, i ∈ idxs ∧ ThreadPool.available E s m i = true).
Proof.
  induction idxs as [|i rest IH]; simpl; intros Hrun.
  - injection Hrun as <-. split; [done|]. intros (i & Hi & _).
    by apply elem_of_nil in Hi.
  - inv_Ok.
    match goal with
    | H1 : threads s !! i = Some ?th, H2 : threads s !! m = Some ?ma,
      H3 : Thread.is_available_to _ _ _ = Ok ?av |- _ =>
        pose proof (available_true s m i th ma H1 H2 av H3) as Hav; destruct av
    end.
    + injection Hrun as <-. split; [|done]. intros _. exists i.
      split; [apply elem_of_cons; auto|done].
    + rewrite (IH Hrun). split.
      * intros (j & Hj & Hjav). exists j. split; [apply elem_of_cons; auto|done].
      * intros (j & Hj & Hjav). apply elem_of_cons in Hj as [->|Hj]; [congruence|].
        exists j. done.
Qed.

Lemma notified_app tr1 tr2 : notified (tr1 ++ tr2) = notified tr1 ++ notified tr2.
Proof. apply flat_map_app. Qed.

Lemma notified_notify_events l : notified (flat_map notify_events l) = l.
Proof. induction l as [|i l IH]; simpl; [done|]. f_equal. exact IH. Qed.

End Booking.

(** ** The booking loop *)

Section Recruit.

Variable E : Externals.

Lemma recruit_cons m r i rest cnt s :
  ThreadPool.recruit E m r (i :: rest) cnt s
  = (th ← deref (threads s !! i);
     master ← deref (threads s !! m);
     av ← Thread.is_available_to (MAX_SPLITPOINTS_PER_THREAD E) th master;
     if (av : bool) then
       s1 ← ThreadPool.recruit_one i r s;
       if cnt + 1 + 1 >=? maxThreadsPerSplitPoint s1
       then Ok (cnt + 1, s1)
       else ThreadPool.recruit E m r rest (cnt + 1) s1
     else ThreadPool.recruit E m r rest cnt s).
Proof. reflexivity. Qed.

Lemma elem_of_take_filter (f : nat → bool) (n : nat) (l : list nat) (x : nat) :
  x ∈ take n (List.filter f l) → x ∈ l.
Proof.
  intros Hx.
  assert (Hin : x ∈ List.filter f l).
  { rewrite <- (take_drop n (List.filter f l)). apply elem_of_app. auto. }
  apply list_elem_of_In, filter_In in Hin. apply list_elem_of_In. tauto.
Qed.

Lemma recruit_spec (m k : nat) (idxs : list nat) :
  ∀ (cnt : Z) (s : State) (cnt' : Z) (s' : State) (ma : Thread.t),
    ThreadPool.recruit E m (m, k) idxs cnt s = Ok (cnt', s') →
    threads s !! m = Some ma → Thread.searching ma = true →
    NoDup idxs →
    0 <= cnt < Z.max 1 (maxThreadsPerSplitPoint s - 1) →
    let booked :=
      take (Z.to_nat (Z.max 1 (maxThreadsPerSplitPoint s - 1) - cnt))
           (List.filter (ThreadPool.available E s m) idxs) in
    cnt' = cnt + Z.of_nat (length booked)
    ∧ trace s' = trace s ++ flat_map notify_events booked
    ∧ maxThreadsPerSplitPoint s' = maxThreadsPerSplitPoint s
    ∧ positions s' = positions s
    ∧ moves s' = moves s
    ∧ (∃ ma', threads s' !! m = Some ma' ∧ master_kept k ma ma')
    ∧ (∀ j, j ∈ booked →
         ∃ th', threads s' !! j = Some th'
                ∧ Thread.searching th' = true
                ∧ Thread.activeSplitPoint th' = Some (m, k))
    ∧ (∀ j, j ∉ booked → j ≠ m → threads s' !! j = threads s !! j).
Proof.
  induction idxs as [|i rest IH]; intros cnt s cnt' s' ma Hrun Hma Hs Hnd Hcnt booked.
  - simpl in Hrun. injection Hrun as <- <-. subst booked. simpl.
    rewrite take_nil. simpl. rewrite app_nil_r.
    repeat split; try done; try lia.
    + exists ma. split; [done|apply master_kept_refl].
    + intros j Hj. by apply elem_of_nil in Hj.
  - rewrite recruit_cons in Hrun. inv_Ok.
    match goal with
    | H1 : threads s !! i = Some ?th, H2 : threads s !! m = Some ?ma0,
      H3 : Thread.is_available_to _ _ _ = Ok ?av |- _ =>
        rename th into thi; rename H1 into Hthi; rename H3 into Hav;
        rewrite Hma in H2; injection H2 as <-;
        pose proof (available_true E s m i thi ma Hthi Hma av Hav) as Havail;
        destruct av
    end.
    + (* [threads[i]] is booked *)
      apply bind_Ok in Hrun as (si & Hsi & Hrun).
      apply recruit_one_Ok in Hsi as [_ ->].
      apply NoDup_cons in Hnd as [Hni Hnd].
      assert (Him : i ≠ m).
      { intros ->. rewrite Hma in Hthi. injection Hthi as <-.
        rewrite searching_not_available in Hav by done. discriminate. }
      destruct (recruit_one_master i (m, k) s ma Him Hma) as (ma1 & Hma1 & Hkept).
      destruct (recruit_one_slave i (m, k) s thi Him Hthi) as (th1 & Hth1 & Hs1 & Ha1).
      simpl in Hma1.
      assert (Hfilter : List.filter (ThreadPool.available E s m) (i :: rest)
                        = i :: List.filter (ThreadPool.available E s m) rest).
      { simpl. rewrite Havail. reflexivity. }
      assert (Hsame : List.filter (ThreadPool.available E (recruited i (m, k) s) m) rest
                      = List.filter (ThreadPool.available E s m) rest).
      { apply filter_ext_in. intros j Hj.
        apply (available_ext E s _ m ma ma1); try done.
        - apply (kept_searching _ _ _ Hkept). done.
        - apply (kept_idx _ _ _ Hkept).
        - intros Hjm. apply recruit_one_other; [|done].
          intros ->. apply Hni. apply list_elem_of_In. done. }
      subst booked. rewrite Hfilter.
      destruct (cnt + 1 + 1 >=? maxThreadsPerSplitPoint (recruited i (m, k) s)) eqn:Hbrk;
        rewrite Z.geb_leb in Hbrk.
      * apply Z.leb_le in Hbrk. change (maxThreadsPerSplitPoint (recruited i (m, k) s))
          with (maxThreadsPerSplitPoint s) in Hbrk.
        injection Hrun as <- <-.
        replace (Z.to_nat (Z.max 1 (maxThreadsPerSplitPoint s - 1) - cnt)) with 1%nat by lia.
        simpl. rewrite take_0. simpl.
        repeat split; try done.
        -- exists ma1. done.
        -- intros j Hj. apply list_elem_of_singleton in Hj as ->. exists th1. done.
        -- intros j Hj Hjm. apply recruit_one_other; [|done].
           intros ->. apply Hj. apply list_elem_of_singleton. done.
      * apply Z.leb_gt in Hbrk. change (maxThreadsPerSplitPoint (recruited i (m, k) s))
          with (maxThreadsPerSplitPoint s) in Hbrk.
        specialize (IH (cnt + 1) _ cnt' s' ma1 Hrun Hma1
                       (kept_searching _ _ _ Hkept Hs) Hnd).
        change (maxThreadsPerSplitPoint (recruited i (m, k) s))
          with (maxThreadsPerSplitPoint s) in IH.
        specialize (IH ltac:(lia)). simpl in IH. rewrite Hsame in IH.
        replace (Z.to_nat (Z.max 1 (maxThreadsPerSplitPoint s - 1) - cnt))
          with (S (Z.to_nat (Z.max 1 (maxThreadsPerSplitPoint s - 1) - (cnt + 1)))) by lia.
        simpl.
        set (tl := take (Z.to_nat (Z.max 1 (maxThreadsPerSplitPoint s - 1) - (cnt + 1)))
                        (List.filter (ThreadPool.available E s m) rest)) in *.
        destruct IH as (Hc & Htr & Hmax & Hpos & Hmov & (ma' & Hma' & Hkept') & Hin & Hout).
        assert (Hitl : i ∉ tl).
        { intros Hi. apply Hni. eapply elem_of_take_filter. exact Hi. }
        repeat split; try done.
        -- lia.
        -- rewrite Htr. simpl. rewrite <- app_assoc. reflexivity.
        -- exists ma'. split; [done|]. eapply master_kept_trans; eassumption.
        -- intros j Hj. apply elem_of_cons in Hj as [->|Hj]; [|auto].
           exists th1. rewrite (Hout i Hitl Him). done.
        -- intros j Hj Hjm. rewrite not_elem_of_cons in Hj. destruct Hj as [Hji Hj].
           rewrite (Hout j Hj Hjm). apply recruit_one_other; done.
    + (* [threads[i]] is passed over *)
      apply NoDup_cons in Hnd as [Hni Hnd].
      specialize (IH cnt s cnt' s' ma Hrun Hma Hs Hnd Hcnt).
      subst booked. simpl. rewrite Havail. exact IH.
Qed.

End Recruit.

Section Opening.

Variable E : Externals.

Lemma grow_stack_spec m s4 ma4 es :
  threads s4 !! m = Some ma4 →
  ∃ s1, s1 = log es (alter_thread m (fun th =>
                 Thread.set_splitPointsSize (Thread.splitPointsSize th + 1) th) s4)
    ∧ (∃ ma1, threads s1 !! m = Some ma1
              ∧ Thread.splitPointsSize ma1 = Thread.splitPointsSize ma4 + 1
              ∧ Thread.activeSplitPoint ma1 = Thread.activeSplitPoint ma4
              ∧ Thread.splitPoints ma1 = Thread.splitPoints ma4)
    ∧ (∀ j, j ≠ m → threads s1 !! j = threads s4 !! j)
    ∧ trace s1 = trace s4 ++ es
    ∧ maxThreadsPerSplitPoint s1 = maxThreadsPerSplitPoint s4
    ∧ positions s1 = positions s4
    ∧ moves s1 = moves s4.
Proof.
  intros Hma4. eexists. split; [reflexivity|]. split; [|split].
  - eexists. split.
    + rewrite threads_log. apply alter_thread_lookup_eq. exact Hma4.
    + repeat split.
  - intros j Hj. rewrite threads_log. apply alter_thread_lookup_ne. done.
  - repeat split.
Qed.

Lemma split_open_spec Fake a m s r cnt s1 :
  ThreadPool.split_open E Fake a m s = Ok (r, cnt, s1) →
  ∃ ma ma1,
    threads s !! m = Some ma
    ∧ 0 <= Thread.splitPointsSize ma < MAX_SPLITPOINTS_PER_THREAD E
    ∧ Thread.searching ma = true
    ∧ r = (m, Z.to_nat (Thread.splitPointsSize ma))
    ∧ threads s1 !! m = Some ma1
    ∧ Thread.splitPointsSize ma1 = Thread.splitPointsSize ma + 1
    ∧ Thread.activeSplitPoint ma1 = Some r
    ∧ SplitPoint.parent <$> Thread.splitPoints ma1 !! r.2
      = Some (Thread.activeSplitPoint ma)
    ∧ maxThreadsPerSplitPoint s1 = maxThreadsPerSplitPoint s
    ∧ positions s1 = positions s
    ∧ moves s1 = moves s
    ∧ let booked :=
        if Fake then []
        else take (Z.to_nat (Z.max 1 (maxThreadsPerSplitPoint s - 1)))
                  (List.filter (ThreadPool.available E s m)
                               (seq 0 (length (threads s)))) in
      cnt = Z.of_nat (length booked)
      ∧ trace s1 = trace s ++ [Lock PoolMutex; Lock (SplitPointMutex r)]
                   ++ flat_map notify_events booked
                   ++ [Unlock (SplitPointMutex r); Unlock PoolMutex]
      ∧ (∀ j, j ∈ booked →
           ∃ th', threads s1 !! j = Some th'
                  ∧ Thread.searching th' = true
                  ∧ Thread.activeSplitPoint th' = Some r)
      ∧ (∀ j, j ∉ booked → j ≠ m → threads s1 !! j = threads s !! j).
Proof.
  unfold ThreadPool.split_open. intros Hrun. inv_Ok.
  match goal with
  | H : threads s !! m = Some ?x |- _ => rename x into ma; rename H into Hma
  end.
  match goal with
  | H : Thread.splitPoints ma !! _ = Some ?x |- _ => rename x into old; rename H into Hold
  end.
  match goal with
  | H : Thread.searching ma = true |- _ => rename H into Hs
  end.
  match goal with
  | H : (if Fake then _ else _) = Ok ?x |- _ =>
      destruct x as [cnt4 s4]; rename H into Hloop
  end.
  injection Hrun as <- <- <-.
  set (k := Z.to_nat (Thread.splitPointsSize ma)) in *.
  set (r := (m, k)) in *.
  match type of Hloop with
  | (if Fake then Ok (0, ?st) else _) = _ => set (s3 := st) in *
  end.
  assert (Hma3 : ∃ ma3, threads s3 !! m = Some ma3
                        ∧ Thread.idx ma3 = Thread.idx ma
                        ∧ Thread.splitPointsSize ma3 = Thread.splitPointsSize ma
                        ∧ Thread.activeSplitPoint ma3 = Some r
                        ∧ Thread.searching ma3 = true
                        ∧ SplitPoint.parent <$> Thread.splitPoints ma3 !! k
                          = Some (Thread.activeSplitPoint ma)).
  { subst s3. rewrite threads_log. eexists. split.
    - apply alter_thread_lookup_eq. apply (alter_sp_lookup_eq r). exact Hma.
    - simpl. repeat split; try done.
      rewrite list_lookup_alter_eq, Hold. reflexivity. }
  destruct Hma3 as (ma3 & Hma3 & Hidx3 & Hsz3 & Hact3 & Hs3 & Hpar3).
  assert (Hother3 : ∀ j, j ≠ m → threads s3 !! j = threads s !! j).
  { intros j Hj. subst s3. rewrite threads_log.
    rewrite alter_thread_lookup_ne by done. apply alter_sp_lookup_ne. done. }
  assert (Hlen3 : length (threads s3) = length (threads s)).
  { subst s3. unfold alter_thread, alter_sp, alter_thread. simpl.
    rewrite !length_alter. reflexivity. }
  assert (Hfil3 : ∀ l, List.filter (ThreadPool.available E s3 m) l
                       = List.filter (ThreadPool.available E s m) l).
  { intros l. apply filter_ext_in. intros j _.
    apply (available_ext E s s3 m ma ma3); auto. }
  destruct Fake.
  - injection Hloop as <- <-.
    destruct (grow_stack_spec m s3 ma3 [Unlock (SplitPointMutex r); Unlock PoolMutex] Hma3)
      as (s1 & <- & (ma1 & Hma1 & Hsz1 & Hact1 & Hsp1) & Ho1 & Htr1 & Hmax1 & Hpos1 & Hmov1).
    exists ma, ma1.
    split; [done|]. split; [done|]. split; [done|]. split; [done|].
    split; [done|]. split; [lia|]. split; [rewrite Hact1; exact Hact3|].
    split; [change (r.2) with k; rewrite Hsp1; exact Hpar3|].
    split; [done|]. split; [done|]. split; [done|].
    split; [done|]. split.
    + rewrite Htr1. subst s3. unfold log. simpl. rewrite <- app_assoc. reflexivity.
    + split.
      * intros j Hj. by apply elem_of_nil in Hj.
      * intros j _ Hj. rewrite Ho1 by done. auto.
  - apply (recruit_spec E m k _ 0 s3 cnt4 s4 ma3) in Hloop;
      [|done|done|apply NoDup_seq|change (maxThreadsPerSplitPoint s3) with (maxThreadsPerSplitPoint s); lia].
    change (maxThreadsPerSplitPoint s3) with (maxThreadsPerSplitPoint s) in Hloop.
    rewrite Z.sub_0_r, Hfil3, Hlen3 in Hloop. cbv zeta in Hloop.
    destruct Hloop as (Hc & Htr & Hmax & Hpos & Hmov & (ma4 & Hma4 & Hkept) & Hin & Hout).
    destruct (grow_stack_spec m s4 ma4 [Unlock (SplitPointMutex r); Unlock PoolMutex] Hma4)
      as (s1 & <- & (ma1 & Hma1 & Hsz1 & Hact1 & Hsp1) & Ho1 & Htr1 & Hmax1 & Hpos1 & Hmov1).
    exists ma, ma1.
    split; [done|]. split; [done|]. split; [done|]. split; [done|].
    split; [done|]. split; [rewrite Hsz1, (kept_size _ _ _ Hkept); lia|].
    split; [rewrite Hact1, (kept_active _ _ _ Hkept); exact Hact3|].
    split; [change (r.2) with k; rewrite Hsp1, (kept_parent _ _ _ Hkept); exact Hpar3|].
    split; [rewrite Hmax1, Hmax; reflexivity|].
    split; [rewrite Hpos1, Hpos; reflexivity|].
    split; [rewrite Hmov1, Hmov; reflexivity|].
    split; [lia|]. split.
    + rewrite Htr1, Htr. subst s3. unfold log. simpl. rewrite <- !app_assoc. reflexivity.
    + split.
      * intros j Hj. destruct (Hin j Hj) as (th' & Hth' & Hrest).
        assert (Hjm : j ≠ m).
        { intros ->.
          assert (Hj2 : m ∈ List.filter (ThreadPool.available E s m)
                            (seq 0 (length (threads s)))).
          { rewrite <- (take_drop (Z.to_nat (Z.max 1 (maxThreadsPerSplitPoint s - 1)))
                                 (List.filter _ _)).
            apply elem_of_app. auto. }
          apply list_elem_of_In, filter_In in Hj2. destruct Hj2 as [_ Hav].
          unfold ThreadPool.available in Hav. rewrite Hma in Hav.
          rewrite searching_not_available in Hav by done. discriminate. }
        exists th'. rewrite Ho1 by done. done.
      * intros j Hj Hjm. rewrite Ho1 by done. rewrite (Hout j Hj Hjm). auto.
Qed.

End Opening.

(** ** ThreadPool::split: booking slaves *)



(** What the loop does below the bound of C1: the count is compared
    after a slave has been booked, so with [maxThreadsPerSplitPoint = 1]
    and an idle thread one slave is booked. *)
Lemma split_books_one_slave_with_max_1 :
  ∃ r s1,
    ThreadPool.split_open Demo.externals false Demo.call 0 (Demo.pool 2 1)
    = Ok (r, 1, s1)
    ∧ maxThreadsPerSplitPoint (Demo.pool 2 1) = 1
    ∧ ¬ (1 + 1 <= maxThreadsPerSplitPoint (Demo.pool 2 1))
    ∧ notified (trace s1) = [1%nat]
    ∧ ∃ v s', ThreadPool.split Demo.externals false Demo.call (Demo.pool 2 1)
              = Ok (v, s')
              ∧ notified (trace s') = [1%nat].
Proof.
  eexists. eexists. split; [vm_compute; reflexivity|].
  split; [reflexivity|]. split; [simpl; lia|]. split; [reflexivity|].
  eexists. eexists. split; [vm_compute; reflexivity|]. reflexivity.
Qed.

(** ** ThreadPool::split: a full stack *)

Lemma split_declined (E : Externals) (Fake : bool) (a : Call.t) (s : State)
    (p : Position.t) (ma : Thread.t) :
  positions s !! Call.pos a = Some p →
  ThreadPool.split_asserts E a p = true →
  threads s !! Position.this_thread p = Some ma →
  MAX_SPLITPOINTS_PER_THREAD E <= Thread.splitPointsSize ma →
  ThreadPool.split E Fake a s = Ok (Call.bestValue a, s).
Proof.
  intros Hp Hasserts Hma Hfull. unfold ThreadPool.split.
  rewrite Hp. simpl. rewrite Hasserts. simpl. rewrite Hma. simpl.
  rewrite Z.geb_leb. destruct (Z.leb_spec (MAX_SPLITPOINTS_PER_THREAD E)
                                 (Thread.splitPointsSize ma)); [reflexivity|lia].
Qed.

(** C4. Called with the master's stack full, [split] returns [bestValue]
    as it was passed, at once: no mutex is locked (the trace has no new
    event), no split point is written and [splitPointsSize] is as before. *)
Theorem split_full_stack_returns_bestValue
    (E : Externals) (Fake : bool) (a : Call.t) (s : State)
    (p : Position.t) (ma : Thread.t) :
  positions s !! Call.pos a = Some p →
  ThreadPool.split_asserts E a p = true →
  threads s !! Position.this_thread p = Some ma →
  MAX_SPLITPOINTS_PER_THREAD E <= Thread.splitPointsSize ma →
  ∃ s', ThreadPool.split E Fake a s = Ok (Call.bestValue a, s')
        ∧ trace s' = trace s
        ∧ locked (trace s') = locked (trace s)
        ∧ (∀ r, Thread.read_sp (MAX_SPLITPOINTS_PER_THREAD E) (threads s') r
                = Thread.read_sp (MAX_SPLITPOINTS_PER_THREAD E) (threads s) r)
        ∧ Thread.splitPointsSize <$> threads s' !! Position.this_thread p
          = Some (Thread.splitPointsSize ma).
Proof.
  intros Hp Hasserts Hma Hfull. exists s.
  split; [eapply split_declined; eassumption|].
  repeat split. rewrite Hma. reflexivity.
Qed.

Lemma split_full_stack_returns_bestValue_witness :
  ∃ s', ThreadPool.split Demo.externals false Demo.call Demo.full_pool
        = Ok (-20, s')
        ∧ trace s' = []
        ∧ Thread.splitPointsSize <$> threads s' !! 0%nat = Some 8.
Proof.
  destruct (split_full_stack_returns_bestValue Demo.externals false Demo.call
              Demo.full_pool (Position.mk 0 100) (Demo.deep_master 8))
    as (s' & Hrun & Htr & _ & _ & Hsz).
  - reflexivity.
  - reflexivity.
  - reflexivity.
  - simpl. lia.
  - exists s'. split; [exact Hrun|]. split; [exact Htr|exact Hsz].
Defined.

(** C9. A [split] that declines on a full stack writes nothing: the state
    after the call is the state before it, so [*bestMove], the node
    counter of the position, the master's [activeSplitPoint] and
    [searching] and the split points of every thread are as they were. *)
Theorem split_full_stack_writes_nothing
    (E : Externals) (Fake : bool) (a : Call.t) (s : State)
    (p : Position.t) (ma : Thread.t) :
  positions s !! Call.pos a = Some p →
  ThreadPool.split_asserts E a p = true →
  threads s !! Position.this_thread p = Some ma →
  MAX_SPLITPOINTS_PER_THREAD E <= Thread.splitPointsSize ma →
  ∃ v s', ThreadPool.split E Fake a s = Ok (v, s')
          ∧ s' = s
          ∧ moves s' !! Call.bestMove a = moves s !! Call.bestMove a
          ∧ Position.nodes_searched <$> positions s' !! Call.pos a
            = Some (Position.nodes_searched p)
          ∧ (∃ ma', threads s' !! Position.this_thread p = Some ma'
                    ∧ Thread.activeSplitPoint ma' = Thread.activeSplitPoint ma
                    ∧ Thread.searching ma' = Thread.searching ma)
          ∧ (∀ i, Thread.splitPoints <$> threads s' !! i
                  = Thread.splitPoints <$> threads s !! i).
Proof.
  intros Hp Hasserts Hma Hfull. exists (Call.bestValue a), s.
  split; [eapply split_declined; eassumption|].
  split; [reflexivity|]. split; [reflexivity|].
  split; [rewrite Hp; reflexivity|].
  split; [exists ma; done|]. reflexivity.
Qed.

Lemma split_full_stack_writes_nothing_witness :
  ∃ v s', ThreadPool.split Demo.externals true Demo.call Demo.full_pool = Ok (v, s')
          ∧ s' = Demo.full_pool
          ∧ moves s' !! 0%nat = Some 77.
Proof.
  destruct (split_full_stack_writes_nothing Demo.externals true Demo.call
              Demo.full_pool (Position.mk 0 100) (Demo.deep_master 8))
    as (v & s' & Hrun & Hsame & Hmove & _).
  - reflexivity.
  - reflexivity.
  - reflexivity.
  - simpl. lia.
  - exists v, s'. split; [exact Hrun|]. split; [exact Hsame|]. exact Hmove.
Defined.

(** ** ThreadPool::split: waiting and closing *)

Section Close.

Variable E : Externals.

Lemma split_inv Fake a s v s' :
  ThreadPool.split E Fake a s = Ok (v, s') →
  ∃ p ma,
    positions s !! Call.pos a = Some p
    ∧ ThreadPool.split_asserts E a p = true
    ∧ threads s !! Position.this_thread p = Some ma
    ∧ ((MAX_SPLITPOINTS_PER_THREAD E <= Thread.splitPointsSize ma
        ∧ v = Call.bestValue a ∧ s' = s)
       ∨ (Thread.splitPointsSize ma < MAX_SPLITPOINTS_PER_THREAD E
          ∧ ∃ r cnt s1 s2,
              ThreadPool.split_open E Fake a (Position.this_thread p) s = Ok (r, cnt, s1)
              ∧ ThreadPool.split_wait E Fake cnt (Position.this_thread p) s1 = Ok s2
              ∧ ThreadPool.split_close E a (Position.this_thread p) r s2 = Ok (v, s'))).
Proof.
  unfold ThreadPool.split. intros Hrun. inv_Ok.
  match goal with
  | H : positions s !! _ = Some ?x |- _ => rename x into p; rename H into Hp
  end.
  match goal with
  | H : threads s !! _ = Some ?x |- _ => rename x into ma; rename H into Hma
  end.
  exists p, ma. split; [done|]. split; [done|]. split; [done|].
  rewrite Z.geb_leb in Hrun.
  destruct (Z.leb_spec (MAX_SPLITPOINTS_PER_THREAD E) (Thread.splitPointsSize ma)).
  - left. injection Hrun as <- <-. done.
  - right. split; [done|]. inv_Ok.
    match goal with
    | H : ThreadPool.split_open _ _ _ _ _ = Ok ?x |- _ => destruct x as [[r cnt] s1]
    end.
    inv_Ok. eauto 10.
Qed.

Lemma split_wait_master Fake cnt m s1 s2 ma1 :
  idle_loop_keeps_stack E →
  ThreadPool.split_wait E Fake cnt m s1 = Ok s2 →
  threads s1 !! m = Some ma1 →
  ∃ ma2, threads s2 !! m = Some ma2
         ∧ Thread.splitPointsSize ma2 = Thread.splitPointsSize ma1
         ∧ SplitPoint.parent <$> top_split_point ma2
           = SplitPoint.parent <$> top_split_point ma1.
Proof.
  intros Hframe Hrun Hma1. unfold ThreadPool.split_wait in Hrun.
  destruct (negb (cnt =? 0) || Fake).
  - inv_Ok. eapply Hframe; eassumption.
  - injection Hrun as <-. eauto.
Qed.

Lemma read_sp_alter_thread cap i f s r :
  (∀ th, Thread.splitPoints (f th) = Thread.splitPoints th) →
  Thread.read_sp cap (threads (alter_thread i f s)) r
  = Thread.read_sp cap (threads s) r.
Proof.
  intros Hf. unfold Thread.read_sp. rewrite alter_thread_lookup.
  destruct (decide (i = r.1)); [|reflexivity].
  destruct (threads s !! r.1); simpl; [|reflexivity]. rewrite Hf. reflexivity.
Qed.

Lemma split_close_spec a m r s2 v s' ma2 :
  ThreadPool.split_close E a m r s2 = Ok (v, s') →
  threads s2 !! m = Some ma2 →
  ∃ sp p2,
    Thread.read_sp (MAX_SPLITPOINTS_PER_THREAD E) (threads s2) r = Ok sp
    ∧ positions s2 !! Call.pos a = Some p2
    ∧ v = SplitPoint.bestValue sp
    ∧ threads s' !! m
      = Some (Thread.set_activeSplitPoint (SplitPoint.parent sp)
                (Thread.set_splitPointsSize (Thread.splitPointsSize ma2 - 1)
                   (Thread.set_searching true ma2)))
    ∧ (∀ j, j ≠ m → threads s' !! j = threads s2 !! j)
    ∧ positions s'
      = <[Call.pos a := Position.set_nodes_searched
                          (Position.nodes_searched p2 + SplitPoint.nodes sp) p2]>
          (positions s2)
    ∧ moves s' = <[Call.bestMove a := SplitPoint.bestMove sp]> (moves s2)
    ∧ trace s' = trace s2 ++ [Lock PoolMutex; Lock (SplitPointMutex r);
                              Unlock (SplitPointMutex r); Unlock PoolMutex].
Proof.
  unfold ThreadPool.split_close. intros Hrun Hma2. inv_Ok.
  match goal with
  | H : Thread.read_sp _ _ _ = Ok ?x |- _ => rename x into sp; rename H into Hsp
  end.
  match goal with
  | H : positions _ !! _ = Some ?x |- _ => rename x into p2; rename H into Hp2
  end.
  rewrite !read_sp_alter_thread in Hsp by done.
  exists sp, p2. split; [exact Hsp|]. split; [exact Hp2|]. split; [reflexivity|].
  split; [|split].
  - rewrite threads_log.
    change (threads (set_moves ?h ?x)) with (threads x).
    change (threads (set_positions ?h ?x)) with (threads x).
    pose proof (alter_thread_lookup_eq m (Thread.set_searching true)
                  (log [Lock PoolMutex; Lock (SplitPointMutex r)] s2) ma2 Hma2) as Hq1.
    pose proof (alter_thread_lookup_eq m
                  (fun th => Thread.set_splitPointsSize (Thread.splitPointsSize th - 1) th)
                  _ _ Hq1) as Hq2.
    exact (alter_thread_lookup_eq m
             (Thread.set_activeSplitPoint (SplitPoint.parent sp)) _ _ Hq2).
  - intros j Hj. rewrite threads_log.
    change (threads (set_moves ?h ?x)) with (threads x).
    change (threads (set_positions ?h ?x)) with (threads x).
    rewrite !alter_thread_lookup_ne by done. reflexivity.
  - split; [reflexivity|]. split; [reflexivity|].
    simpl. rewrite <- app_assoc. reflexivity.
Qed.

(** A [split_close] that returns has added the two node counters within
    the range of [int64_t]. *)
Lemma split_close_nodes_in_range a m r s2 v s' sp p2 :
  ThreadPool.split_close E a m r s2 = Ok (v, s') →
  Thread.read_sp (MAX_SPLITPOINTS_PER_THREAD E) (threads s2) r = Ok sp →
  positions s2 !! Call.pos a = Some p2 →
  INT64_MIN <= Position.nodes_searched p2 + SplitPoint.nodes sp <= INT64_MAX.
Proof.
  unfold ThreadPool.split_close. intros Hrun Hsp Hp2. inv_Ok.
  match goal with
  | H : Thread.read_sp _ _ _ = Ok ?x |- _ =>
      rewrite !read_sp_alter_thread in H by done;
      change (threads (log ?es ?x)) with (threads x) in H;
      rewrite Hsp in H; injection H as <-
  end.
  match goal with
  | H : positions _ !! _ = Some ?x |- _ =>
      change (positions s2 !! Call.pos a = Some x) in H;
      rewrite Hp2 in H; injection H as <-
  end.
  assumption.
Qed.

End Close.

(** C3. When [split] returns, the master's [splitPointsSize] and
    [activeSplitPoint] are what they were before the call, for both values
    of [Fake], whether the call declined on a full stack or opened a
    split point: the stack grows by one and [activeSplitPoint] is set to
    the new split point, then the size is decremented and
    [activeSplitPoint] is set back to [sp.parent]. *)
Theorem split_restores_master_stack
    (E : Externals) (Fake : bool) (a : Call.t) (s : State) (v : Value)
    (s' : State) (p : Position.t) (ma : Thread.t) :
  idle_loop_keeps_stack E →
  positions s !! Call.pos a = Some p →
  threads s !! Position.this_thread p = Some ma →
  ThreadPool.split E Fake a s = Ok (v, s') →
  (∃ ma', threads s' !! Position.this_thread p = Some ma'
          ∧ Thread.splitPointsSize ma' = Thread.splitPointsSize ma
          ∧ Thread.activeSplitPoint ma' = Thread.activeSplitPoint ma)
  ∧ (Thread.splitPointsSize ma < MAX_SPLITPOINTS_PER_THREAD E →
     ∃ r cnt s1 ma1,
       ThreadPool.split_open E Fake a (Position.this_thread p) s = Ok (r, cnt, s1)
       ∧ threads s1 !! Position.this_thread p = Some ma1
       ∧ Thread.splitPointsSize ma1 = Thread.splitPointsSize ma + 1
       ∧ Thread.activeSplitPoint ma1 = Some r
       ∧ SplitPoint.parent <$> Thread.splitPoints ma1 !! r.2
         = Some (Thread.activeSplitPoint ma)).
Proof.
  intros Hframe Hp Hma Hrun.
  destruct (split_inv E Fake a s v s' Hrun) as (p' & ma0 & Hp' & _ & Hma0 & Hcases).
  rewrite Hp in Hp'. injection Hp' as <-.
  rewrite Hma in Hma0. injection Hma0 as <-.
  destruct Hcases as [(? & _ & ->)|(_ & r & cnt & s1 & s2 & Hopen & Hwait & Hclose)].
  { split; [exists ma; done|]. intros. lia. }
  destruct (split_open_spec E Fake a _ s r cnt s1 Hopen)
    as (ma0 & ma1 & Hma0 & Hsz & _ & Hr & Hma1 & Hsz1 & Hact1 & Hpar1 & _).
  rewrite Hma in Hma0. injection Hma0 as <-.
  destruct (split_wait_master E Fake cnt _ s1 s2 ma1 Hframe Hwait Hma1)
    as (ma2 & Hma2 & Hsz2 & Hpar2).
  destruct (split_close_spec E a _ r s2 v s' ma2 Hclose Hma2)
    as (sp & p2 & Hsp & _ & _ & Hma' & _).
  split; [|intros _; exists r, cnt, s1, ma1; done].
  eexists. split; [exact Hma'|]. simpl. split; [lia|].
  unfold Thread.read_sp in Hsp. rewrite Hr in Hsp. simpl in Hsp.
  rewrite Hma2 in Hsp. simpl in Hsp. apply at_index_Ok in Hsp as [_ Hsp].
  unfold top_split_point in Hpar2. rewrite Hsz2, Hsz1 in Hpar2.
  replace (Z.to_nat (Thread.splitPointsSize ma + 1 - 1))
    with (Z.to_nat (Thread.splitPointsSize ma)) in Hpar2 by lia.
  rewrite Hr in Hpar1. simpl in Hpar1. rewrite Hpar1 in Hpar2.
  rewrite Nat2Z.id in Hsp. rewrite Hsp in Hpar2. simpl in Hpar2. congruence.
Qed.

Lemma demo_idle_loop_keeps_stack : idle_loop_keeps_stack Demo.externals.
Proof.
  intros m s s' th Hrun Hth. simpl in Hrun. unfold Demo.base_idle_loop in Hrun.
  inv_Ok.
  match goal with
  | H : threads s !! m = Some ?x |- _ => rewrite Hth in H; injection H as <-
  end.
  destruct (Thread.activeSplitPoint th) as [r|]; injection Hrun as <-.
  - destruct (decide (r.1 = m)) as [Hr|Hr].
    + subst m.
      pose proof (alter_sp_lookup_eq r (SplitPoint.set_nodes 42) s th Hth) as H1.
      eexists. split.
      * exact (alter_thread_lookup_eq r.1 (Thread.set_searching false) _ _ H1).
      * split; [reflexivity|]. unfold top_split_point. simpl.
        rewrite list_lookup_alter.
        destruct (decide (r.2 = Z.to_nat (Thread.splitPointsSize th - 1))) as [->|];
          [|reflexivity].
        destruct (Thread.splitPoints th !! _); reflexivity.
    + eexists. split.
      * apply alter_thread_lookup_eq. rewrite alter_sp_lookup_ne by done. exact Hth.
      * split; reflexivity.
  - eexists. split; [apply alter_thread_lookup_eq; exact Hth|]. split; reflexivity.
Qed.

Lemma split_restores_master_stack_witness :
  ∃ v s' ma',
    ThreadPool.split Demo.externals false Demo.call Demo.nested_pool = Ok (v, s')
    ∧ threads s' !! 0%nat = Some ma'
    ∧ Thread.splitPointsSize ma' = 1
    ∧ Thread.activeSplitPoint ma' = Some (0%nat, 0%nat).
Proof.
  assert (Hrun : ∃ v s', ThreadPool.split Demo.externals false Demo.call Demo.nested_pool
                         = Ok (v, s')).
  { eexists. eexists. vm_compute. reflexivity. }
  destruct Hrun as (v & s' & Hrun).
  destruct (split_restores_master_stack Demo.externals false Demo.call
              Demo.nested_pool v s' (Position.mk 0 100)
              (Thread.set_activeSplitPoint (Some (0%nat, 0%nat)) (Demo.deep_master 1))
              demo_idle_loop_keeps_stack eq_refl eq_refl Hrun)
    as ((ma' & Hma' & Hsz & Hact) & _).
  exists v, s', ma'. split; [exact Hrun|]. split; [exact Hma'|].
  split; [exact Hsz|exact Hact].
Defined.

(** When the sum of the two node counters leaves the range of [int64_t]
    the closing block has no defined result. *)
Lemma split_close_overflow (E : Externals) a m r s2 ma2 sp p2 :
  threads s2 !! m = Some ma2 →
  Thread.read_sp (MAX_SPLITPOINTS_PER_THREAD E) (threads s2) r = Ok sp →
  positions s2 !! Call.pos a = Some p2 →
  ¬ (INT64_MIN <= Position.nodes_searched p2 + SplitPoint.nodes sp <= INT64_MAX) →
  ThreadPool.split_close E a m r s2 = Undefined.
Proof.
  intros Hma2 Hsp Hp2 Hout. unfold ThreadPool.split_close. cbv zeta.
  rewrite threads_log, Hma2, (bind_Ok_l (deref (Some ma2)) ma2) by reflexivity.
  rewrite !read_sp_alter_thread by done.
  rewrite threads_log, Hsp, (bind_Ok_l (Ok sp) sp) by reflexivity.
  assert (Hp : positions
                 (alter_thread m (Thread.set_activeSplitPoint (SplitPoint.parent sp))
                    (alter_thread m
                       (fun th => Thread.set_splitPointsSize
                                    (Thread.splitPointsSize th - 1) th)
                       (alter_thread m (Thread.set_searching true)
                          (log [Lock PoolMutex; Lock (SplitPointMutex r)] s2))))
               !! Call.pos a = Some p2) by exact Hp2.
  rewrite (bind_Ok_l _ p2) by (rewrite Hp; reflexivity).
  assert (Hadd : add_int64 (Position.nodes_searched p2) (SplitPoint.nodes sp)
                 = Undefined).
  { unfold add_int64.
    destruct (Z.leb_spec INT64_MIN (Position.nodes_searched p2 + SplitPoint.nodes sp));
      destruct (Z.leb_spec (Position.nodes_searched p2 + SplitPoint.nodes sp) INT64_MAX);
      simpl; try reflexivity. lia. }
  rewrite Hadd. reflexivity.
Qed.

(** C5. A [split] that opens a split point and returns adds [sp.nodes] to
    the node counter of the position and nothing else: the counter after
    the call is its value when the closing locks are taken plus the
    [nodes] of the split point at that moment, a sum of two [int64_t]
    that is within the range of the type, and no other position is
    written. *)
Theorem split_adds_split_point_nodes
    (E : Externals) (Fake : bool) (a : Call.t) (s : State) (v : Value)
    (s' : State) (p : Position.t) (ma : Thread.t) :
  positions s !! Call.pos a = Some p →
  threads s !! Position.this_thread p = Some ma →
  Thread.splitPointsSize ma < MAX_SPLITPOINTS_PER_THREAD E →
  ThreadPool.split E Fake a s = Ok (v, s') →
  ∃ r cnt s1 s2 sp p2,
    ThreadPool.split_open E Fake a (Position.this_thread p) s = Ok (r, cnt, s1)
    ∧ ThreadPool.split_wait E Fake cnt (Position.this_thread p) s1 = Ok s2
    ∧ trace s' = trace s2 ++ [Lock PoolMutex; Lock (SplitPointMutex r);
                              Unlock (SplitPointMutex r); Unlock PoolMutex]
    ∧ Thread.read_sp (MAX_SPLITPOINTS_PER_THREAD E) (threads s2) r = Ok sp
    ∧ positions s2 !! Call.pos a = Some p2
    ∧ Position.nodes_searched <$> positions s' !! Call.pos a
      = Some (Position.nodes_searched p2 + SplitPoint.nodes sp)
    ∧ INT64_MIN <= Position.nodes_searched p2 + SplitPoint.nodes sp <= INT64_MAX
    ∧ (∀ q, q ≠ Call.pos a → positions s' !! q = positions s2 !! q).
Proof.
  intros Hp Hma Hroom Hrun.
  destruct (split_inv E Fake a s v s' Hrun) as (p' & ma0 & Hp' & _ & Hma0 & Hcases).
  rewrite Hp in Hp'. injection Hp' as <-.
  rewrite Hma in Hma0. injection Hma0 as <-.
  destruct Hcases as [(Hfull & _)|(_ & r & cnt & s1 & s2 & Hopen & Hwait & Hclose)];
    [lia|].
  destruct (split_open_spec E Fake a _ s r cnt s1 Hopen)
    as (_ & ma1 & _ & _ & _ & _ & Hma1 & _).
  assert (Hma2 : ∃ ma2, threads s2 !! Position.this_thread p = Some ma2).
  { unfold ThreadPool.split_close in Hclose. inv_Ok. rewrite threads_log in *. eauto. }
  destruct Hma2 as (ma2 & Hma2).
  destruct (split_close_spec E a _ r s2 v s' ma2 Hclose Hma2)
    as (sp & p2 & Hsp & Hp2 & _ & _ & _ & Hpos & _ & Htr).
  exists r, cnt, s1, s2, sp, p2.
  split; [exact Hopen|]. split; [exact Hwait|]. split; [exact Htr|].
  split; [exact Hsp|]. split; [exact Hp2|]. rewrite Hpos. split; [|split].
  - rewrite lookup_insert_eq. reflexivity.
  - exact (split_close_nodes_in_range E a _ r s2 v s' sp p2 Hclose Hsp Hp2).
  - intros q Hq. apply lookup_insert_ne. done.
Qed.

Lemma split_adds_split_point_nodes_witness :
  ∃ v s',
    ThreadPool.split Demo.externals false Demo.call (Demo.pool 8 3) = Ok (v, s')
    ∧ Position.nodes_searched <$> positions s' !! 0%nat = Some (100 + 42).
Proof.
  assert (Hrun : ∃ v s', ThreadPool.split Demo.externals false Demo.call (Demo.pool 8 3)
                         = Ok (v, s')
                         ∧ Position.nodes_searched <$> positions s' !! 0%nat
                           = Some (100 + 42)).
  { eexists. eexists. split; vm_compute; reflexivity. }
  destruct Hrun as (v & s' & Hrun & Hnodes).
  destruct (split_adds_split_point_nodes Demo.externals false Demo.call
              (Demo.pool 8 3) v s' (Position.mk 0 100) (Demo.worker true 0)
              eq_refl eq_refl ltac:(simpl; lia) Hrun)
    as (r & cnt & s1 & s2 & sp & p2 & _ & _ & _ & _ & _ & Hsum & _ & _).
  exists v, s'. split; [exact Hrun|exact Hnodes].
Defined.

(** * Further properties *)

(** ** ThreadPool::split: the split point and its slaves *)

Section SplitPoint.

Variable E : Externals.

Lemma recruit_one_slot i m k s ma sp :
  threads s !! m = Some ma →
  Thread.splitPoints ma !! k = Some sp →
  ∃ ma1, threads (recruited i (m, k) s) !! m = Some ma1
         ∧ Thread.splitPoints ma1 !! k
           = Some (SplitPoint.set_slavesMask
                     (Z.lor (SplitPoint.slavesMask sp) (shl64 1 i)) sp).
Proof.
  intros Hma Hsp. unfold recruited, notify_one.
  rewrite threads_log.
  pose proof (alter_sp_lookup_eq (m, k)
                (fun sp => SplitPoint.set_slavesMask
                             (Z.lor (SplitPoint.slavesMask sp) (shl64 1 i)) sp)
                s ma Hma) as H1.
  cbn [fst snd] in H1.
  rewrite !alter_thread_lookup. destruct (decide (i = m)) as [->|Hne].
  - rewrite H1. simpl. eexists. split; [reflexivity|]. simpl.
    rewrite list_lookup_alter_eq, Hsp. reflexivity.
  - rewrite H1. eexists. split; [reflexivity|]. simpl.
    rewrite list_lookup_alter_eq, Hsp. reflexivity.
Qed.

Lemma recruit_mask (m k : nat) (idxs : list nat) :
  ∀ cnt s cnt' s' ma sp,
    ThreadPool.recruit E m (m, k) idxs cnt s = Ok (cnt', s') →
    threads s !! m = Some ma →
    Thread.splitPoints ma !! k = Some sp →
    ∃ l ma',
      trace s' = trace s ++ flat_map notify_events l
      ∧ threads s' !! m = Some ma'
      ∧ Thread.splitPoints ma' !! k
        = Some (SplitPoint.set_slavesMask (with_slaves l (SplitPoint.slavesMask sp)) sp)
      ∧ Forall (fun i => (i < 64)%nat) l.
Proof.
  induction idxs as [|i rest IH]; intros cnt s cnt' s' ma sp Hrun Hma Hsp.
  - simpl in Hrun. injection Hrun as <- <-. exists [], ma. simpl.
    rewrite app_nil_r. split; [done|]. split; [done|].
    split; [|constructor]. rewrite Hsp. destruct sp; reflexivity.
  - rewrite recruit_cons in Hrun. inv_Ok.
    match goal with
    | H : Thread.is_available_to _ _ _ = Ok ?av |- _ => destruct av
    end.
    + apply bind_Ok in Hrun as (si & Hsi & Hrun).
      apply recruit_one_Ok in Hsi as [Hi64 ->].
      destruct (recruit_one_slot i m k s ma sp Hma Hsp) as (ma1 & Hma1 & Hsp1).
      destruct (_ >=? _).
      * injection Hrun as <- <-. exists [i], ma1. simpl.
        split; [done|]. split; [done|]. split; [exact Hsp1|].
        constructor; [exact Hi64|constructor].
      * destruct (IH _ _ _ _ _ _ Hrun Hma1 Hsp1)
          as (l & ma' & Htr & Hma' & Hsp' & Hl64).
        exists (i :: l), ma'. split.
        { rewrite Htr. simpl. rewrite <- app_assoc. reflexivity. }
        split; [done|]. split; [rewrite Hsp'; reflexivity|].
        constructor; assumption.
    + eauto.
Qed.

Lemma with_slaves_testbit (l : list nat) (mask : Z) (b : Z) :
  0 <= b →
  Z.testbit (with_slaves l mask) b
  = Z.testbit mask b || ((b <? 64) && existsb (fun i => Z.of_nat i =? b) l).
Proof.
  intros Hb. revert mask. induction l as [|i l IH]; intros mask; simpl.
  - rewrite andb_false_r, orb_false_r. reflexivity.
  - unfold with_slaves in *. simpl. rewrite IH, Z.lor_spec, shl64_1_testbit by done.
    destruct (Z.testbit mask b), (b <? 64), (Z.of_nat i =? b); simpl; try reflexivity.
Qed.

Lemma split_open_split_point Fake a m s r cnt s1 ma bm :
  ThreadPool.split_open E Fake a m s = Ok (r, cnt, s1) →
  threads s !! m = Some ma →
  moves s !! Call.bestMove a = Some bm →
  Thread.read_sp (MAX_SPLITPOINTS_PER_THREAD E) (threads s1) r
  = Ok (SplitPoint.set_slavesMask
          (with_slaves (booked_by E Fake s m) (shl64 1 (Thread.idx ma)))
          (opened_sp a m ma bm))
  ∧ (Thread.idx ma < 64)%nat
  ∧ Forall (fun i => (i < 64)%nat) (booked_by E Fake s m).
Proof.
  intros Hrun Hma Hbm.
  destruct (split_open_spec E Fake a m s r cnt s1 Hrun)
    as (ma0 & ma1 & Hma0 & Hsz & Hs & Hr & Hma1 & _ & _ & _ & _ & _ & _ & Hbook).
  rewrite Hma in Hma0. injection Hma0 as <-.
  cbv zeta in Hbook. fold (booked_by E Fake s m) in Hbook.
  destruct Hbook as (_ & Htr & _ & _).
  unfold ThreadPool.split_open in Hrun. inv_Ok.
  match goal with
  | H : threads s !! m = Some ?x |- _ => rewrite Hma in H; injection H as <-
  end.
  match goal with
  | H : moves s !! _ = Some ?x |- _ => rewrite Hbm in H; injection H as <-
  end.
  match goal with
  | H : Thread.splitPoints ma !! _ = Some ?x |- _ => rename x into old; rename H into Hold
  end.
  match goal with
  | H : (if Fake then _ else _) = Ok ?x |- _ =>
      destruct x as [cnt4 s4]; rename H into Hloop
  end.
  injection Hrun as <- <- <-.
  set (k := Z.to_nat (Thread.splitPointsSize ma)) in *.
  fold (opened_sp a m ma bm) in Hloop, Htr |- *.
  match type of Hloop with
  | (if Fake then Ok (0, ?st) else _) = _ => set (s3 := st) in *
  end.
  assert (Hma3 : ∃ ma3, threads s3 !! m = Some ma3
                        ∧ Thread.splitPoints ma3 !! k = Some (opened_sp a m ma bm)).
  { subst s3. rewrite threads_log.
    pose proof (alter_sp_lookup_eq (m, k) (fun _ => opened_sp a m ma bm) s ma Hma) as Ha.
    cbn [fst snd] in Ha.
    pose proof (alter_thread_lookup_eq m (Thread.set_activeSplitPoint (Some (m, k)))
                  _ _ Ha) as Hb.
    eexists. split; [exact Hb|]. simpl. rewrite list_lookup_alter_eq, Hold. reflexivity. }
  destruct Hma3 as (ma3 & Hma3 & Hsp3).
  assert (Hslot : ∃ ma4, threads s4 !! m = Some ma4
                         ∧ Thread.splitPoints ma4 !! k
                           = Some (SplitPoint.set_slavesMask
                                     (with_slaves (booked_by E Fake s m)
                                        (shl64 1 (Thread.idx ma)))
                                     (opened_sp a m ma bm))
                           ∧ Forall (fun i => (i < 64)%nat) (booked_by E Fake s m)).
  { destruct Fake.
    - injection Hloop as <- <-. exists ma3. split; [done|].
      split; [rewrite Hsp3; reflexivity|constructor].
    - destruct (recruit_mask m k _ _ _ _ _ _ _ Hloop Hma3 Hsp3)
        as (l & ma4 & Htr4 & Hma4 & Hsp4 & Hl64).
      exists ma4. split; [done|]. rewrite Hsp4.
      assert (Hl : l = booked_by E false s m).
      { change (trace s4 ++ [Unlock (SplitPointMutex (m, k)); Unlock PoolMutex]
                = trace s ++ [Lock PoolMutex; Lock (SplitPointMutex (m, k))]
                  ++ flat_map notify_events (booked_by E false s m)
                  ++ [Unlock (SplitPointMutex (m, k)); Unlock PoolMutex]) in Htr.
        rewrite Htr4 in Htr. subst s3. unfold log in Htr. simpl in Htr.
        rewrite <- !app_assoc in Htr. simpl in Htr.
        apply app_inv_head in Htr. injection Htr as Htr.
        apply (f_equal notified) in Htr.
        rewrite !notified_app, !notified_notify_events in Htr. simpl in Htr.
        rewrite !app_nil_r in Htr. exact Htr. }
      rewrite <- Hl. split; [reflexivity|exact Hl64]. }
  destruct Hslot as (ma4 & Hma4 & Hsp4 & Hb64).
  split; [|split; [assumption|exact Hb64]].
  unfold Thread.read_sp. rewrite threads_log. cbn [fst snd].
  rewrite (alter_thread_lookup_eq m _ s4 ma4 Hma4). simpl.
  apply at_index_Ok. split; [lia|]. rewrite Nat2Z.id. exact Hsp4.
Qed.

End SplitPoint.

(** ** ThreadPool::split: defined behaviour on a well-formed pool *)

Lemma lor_uint64 (a b : Z) :
  0 <= a < 2 ^ 64 → 0 <= b < 2 ^ 64 → 0 <= Z.lor a b < 2 ^ 64.
Proof.
  intros Ha Hb. split; [apply Z.lor_nonneg; lia|].
  assert (Hlog : ∀ x, 0 <= x < 2 ^ 64 → Z.log2 x < 64).
  { intros x Hx. destruct (Z.eq_dec x 0) as [->|Hne]; [simpl; lia|].
    apply Z.log2_lt_pow2; lia. }
  destruct (Z.eq_dec (Z.lor a b) 0) as [->|Hne]; [lia|].
  assert (0 <= Z.lor a b) by (apply Z.lor_nonneg; lia).
  apply Z.log2_lt_pow2; [lia|].
  rewrite Z.log2_lor by lia. pose proof (Hlog a Ha). pose proof (Hlog b Hb). lia.
Qed.

Lemma shl64_uint64 (x : Z) (n : nat) : 0 <= shl64 x n < 2 ^ 64.
Proof. unfold shl64. apply Z.mod_pos_bound. lia. Qed.

Lemma thread_ok_alter_sp cap th f k :
  thread_ok cap th →
  (∀ sp, 0 <= SplitPoint.slavesMask sp < 2 ^ 64 →
         0 <= SplitPoint.slavesMask (f sp) < 2 ^ 64) →
  thread_ok cap (Thread.set_splitPoints (alter f k (Thread.splitPoints th)) th).
Proof.
  intros [Hsz Hlen Hmask] Hf. split; simpl.
  - exact Hsz.
  - rewrite length_alter. exact Hlen.
  - intros sp Hsp. apply list_elem_of_lookup in Hsp as [j Hj].
    rewrite list_lookup_alter in Hj. destruct (decide (k = j)) as [->|Hne].
    + destruct (Thread.splitPoints th !! j) as [sp0|] eqn:Hsp0; simpl in Hj;
        [|discriminate].
      injection Hj as <-. apply Hf, Hmask. eapply list_elem_of_lookup_2. exact Hsp0.
    + apply Hmask. eapply list_elem_of_lookup_2. exact Hj.
Qed.

Lemma thread_ok_same_stack cap th th' :
  thread_ok cap th →
  Thread.splitPointsSize th' = Thread.splitPointsSize th →
  Thread.splitPoints th' = Thread.splitPoints th →
  thread_ok cap th'.
Proof. intros [Hsz Hlen Hmask] Hz Hl. split; rewrite ?Hz, ?Hl; assumption. Qed.

Lemma pool_ok_alter_thread cap i f s :
  pool_ok cap (threads s) →
  (∀ th, threads s !! i = Some th → thread_ok cap th → thread_ok cap (f th)) →
  pool_ok cap (threads (alter_thread i f s)).
Proof.
  intros Hok Hf j th Hj. rewrite alter_thread_lookup in Hj.
  destruct (decide (i = j)) as [->|Hne]; [|eauto].
  destruct (threads s !! j) as [th0|] eqn:Hth0; simpl in Hj; [|discriminate].
  injection Hj as <-. apply Hf; [reflexivity|]. eapply Hok. exact Hth0.
Qed.

Lemma is_available_to_defined cap th ma :
  thread_ok cap th → (Thread.idx ma < 64)%nat →
  ∃ b, Thread.is_available_to cap th ma = Ok b.
Proof.
  intros Hok Hidx. unfold Thread.is_available_to, Thread.is_available_to_at.
  destruct (Thread.searching th); [eauto|].
  destruct (Z.eqb_spec (Thread.splitPointsSize th) 0) as [?|Hnz]; [eauto|].
  destruct (top_split_point_is_Some cap th Hok Hnz) as (sp & _ & ->).
  rewrite (proj2 (shl_ull_Ok 1 (Thread.idx ma) _) (conj Hidx eq_refl)).
  simpl. eauto.
Qed.

Section WellDefined.

Variable E : Externals.

Lemma recruit_one_pool_ok i r s :
  pool_ok (MAX_SPLITPOINTS_PER_THREAD E) (threads s) →
  pool_ok (MAX_SPLITPOINTS_PER_THREAD E) (threads (recruited i r s)).
Proof.
  intros Hok. unfold recruited, notify_one. rewrite threads_log.
  apply pool_ok_alter_thread; [apply pool_ok_alter_thread|].
  - unfold alter_sp. apply pool_ok_alter_thread; [exact Hok|].
    intros th _ Hth. apply thread_ok_alter_sp; [exact Hth|].
    intros sp Hsp. simpl. apply lor_uint64; [exact Hsp|apply shl64_uint64].
  - intros th _ Hth. eapply thread_ok_same_stack; [exact Hth| |]; reflexivity.
  - intros th _ Hth. eapply thread_ok_same_stack; [exact Hth| |]; reflexivity.
Qed.

Lemma recruit_one_length i r s :
  length (threads (recruited i r s)) = length (threads s).
Proof.
  unfold recruited, notify_one, alter_sp, alter_thread. simpl.
  rewrite !length_alter. reflexivity.
Qed.

(** The booking loop keeps the pool well formed. *)
Lemma recruit_pool_ok (m : nat) (r : SplitPointRef) (idxs : list nat) :
  ∀ cnt s cnt' s',
    ThreadPool.recruit E m r idxs cnt s = Ok (cnt', s') →
    pool_ok (MAX_SPLITPOINTS_PER_THREAD E) (threads s) →
    pool_ok (MAX_SPLITPOINTS_PER_THREAD E) (threads s')
    ∧ length (threads s') = length (threads s).
Proof.
  induction idxs as [|i rest IH]; intros cnt s cnt' s' Hrun Hok.
  - simpl in Hrun. injection Hrun as <- <-. done.
  - rewrite recruit_cons in Hrun. inv_Ok.
    match goal with
    | H : Thread.is_available_to _ _ _ = Ok ?av |- _ => destruct av
    end; [|eauto].
    apply bind_Ok in Hrun as (si & Hsi & Hrun).
    apply recruit_one_Ok in Hsi as [_ ->].
    destruct (_ >=? _).
    + injection Hrun as <- <-.
      split; [apply recruit_one_pool_ok; exact Hok|apply recruit_one_length].
    + destruct (IH _ _ _ _ Hrun (recruit_one_pool_ok i r s Hok)) as [Hok' Hlen'].
      split; [exact Hok'|]. rewrite Hlen'. apply recruit_one_length.
Qed.

(** On a pool of threads with indices below 64 the booking loop is
    defined. *)
Lemma recruit_defined (m k : nat) (idxs : list nat) :
  ∀ cnt s ma,
    pool_ok (MAX_SPLITPOINTS_PER_THREAD E) (threads s) →
    threads s !! m = Some ma → (Thread.idx ma < 64)%nat →
    Thread.searching ma = true →
    (∀ i, i ∈ idxs → (i < length (threads s))%nat ∧ (i < 64)%nat) →
    ∃ cnt' s', ThreadPool.recruit E m (m, k) idxs cnt s = Ok (cnt', s').
Proof.
  induction idxs as [|i rest IH]; intros cnt s ma Hok Hma Hidx Hs Hin.
  - exists cnt, s. done.
  - rewrite recruit_cons.
    destruct (Hin i) as [Hi Hi64]; [apply elem_of_cons; auto|].
    destruct (lookup_lt_is_Some_2 (threads s) i Hi) as [th Hth].
    destruct (is_available_to_defined _ th ma (Hok _ _ Hth) Hidx) as [av Hav].
    rewrite Hth, Hma. simpl. rewrite Hav. simpl.
    assert (Hrest : ∀ j, j ∈ rest → (j < length (threads s))%nat ∧ (j < 64)%nat).
    { intros j Hj. apply Hin. apply elem_of_cons. auto. }
    destruct av; [|eapply IH; eassumption].
    rewrite (proj2 (recruit_one_Ok i (m, k) s _) (conj Hi64 eq_refl)). simpl.
    destruct (_ >=? _); [eauto|].
    assert (Him : i ≠ m).
    { intros ->. rewrite Hma in Hth. injection Hth as <-.
      rewrite searching_not_available in Hav by done. discriminate. }
    destruct (recruit_one_master i (m, k) s ma Him Hma) as (ma1 & Hma1 & Hkept).
    cbn [fst snd] in Hma1.
    apply (IH _ _ ma1).
    + apply recruit_one_pool_ok. exact Hok.
    + exact Hma1.
    + rewrite (kept_idx _ _ _ Hkept). exact Hidx.
    + apply (kept_searching _ _ _ Hkept). exact Hs.
    + intros j Hj. rewrite recruit_one_length. auto.
Qed.

(** When no thread is available the booking loop books nobody. *)
Lemma recruit_none (m : nat) (r : SplitPointRef) (idxs : list nat) (cnt : Z) (s : State) :
  ThreadPool.slave_available_from E idxs m s = Ok false →
  ThreadPool.recruit E m r idxs cnt s = Ok (cnt, s).
Proof.
  induction idxs as [|i rest IH]; [reflexivity|].
  rewrite recruit_cons. simpl. intros Hsa.
  destruct (deref (threads s !! i)) as [th| | |]; try discriminate. simpl in *.
  destruct (deref (threads s !! m)) as [ma| | |]; try discriminate. simpl in *.
  destruct (Thread.is_available_to (MAX_SPLITPOINTS_PER_THREAD E) th ma)
    as [[|]| | |]; try discriminate; simpl in *.
  apply IH. exact Hsa.
Qed.

(** [slave_available] sees the threads themselves and the index of the
    master, which is searching. *)
Lemma slave_available_from_ext (idxs : list nat) (m : nat) (s s' : State)
    (ma ma' : Thread.t) :
  threads s !! m = Some ma → threads s' !! m = Some ma' →
  Thread.searching ma = true → Thread.searching ma' = true →
  Thread.idx ma' = Thread.idx ma →
  (∀ j, j ≠ m → threads s' !! j = threads s !! j) →
  ThreadPool.slave_available_from E idxs m s'
  = ThreadPool.slave_available_from E idxs m s.
Proof.
  intros Hma Hma' Hs Hs' Hidx Hother.
  induction idxs as [|i rest IH]; [reflexivity|]. simpl.
  rewrite Hma, Hma'. destruct (decide (i = m)) as [->|Hne].
  - rewrite Hma, Hma'. simpl. rewrite !searching_not_available by done.
    simpl. exact IH.
  - rewrite (Hother i Hne). destruct (threads s !! i) as [th|]; [|reflexivity].
    simpl. rewrite (is_available_to_master_idx _ _ _ _ Hidx).
    destruct (Thread.is_available_to _ th ma) as [[|]| | |]; try reflexivity.
    simpl. exact IH.
Qed.

(** The state in which the booking loop of [split_open] starts. *)
Lemma split_open_before_loop a m s ma bm :
  threads s !! m = Some ma →
  let r := (m, Z.to_nat (Thread.splitPointsSize ma)) in
  let s3 := log [Lock PoolMutex; Lock (SplitPointMutex r)]
              (alter_thread m (Thread.set_activeSplitPoint (Some r))
                 (alter_sp r (fun _ => opened_sp a m ma bm) s)) in
  (pool_ok (MAX_SPLITPOINTS_PER_THREAD E) (threads s) →
   pool_ok (MAX_SPLITPOINTS_PER_THREAD E) (threads s3))
  ∧ length (threads s3) = length (threads s)
  ∧ (∃ ma3, threads s3 !! m = Some ma3
            ∧ Thread.idx ma3 = Thread.idx ma
            ∧ Thread.searching ma3 = Thread.searching ma)
  ∧ (∀ j, j ≠ m → threads s3 !! j = threads s !! j).
Proof.
  intros Hma r s3. split; [|split; [|split]].
  - intros Hok. subst s3. rewrite threads_log. apply pool_ok_alter_thread.
    + unfold alter_sp. apply pool_ok_alter_thread; [exact Hok|].
      intros th _ Hth. apply thread_ok_alter_sp; [exact Hth|].
      intros _ _. simpl. apply shl64_uint64.
    + intros th _ Hth. eapply thread_ok_same_stack; [exact Hth| |]; reflexivity.
  - subst s3. unfold alter_sp, alter_thread. simpl. rewrite !length_alter. reflexivity.
  - subst s3. rewrite threads_log. eexists. split.
    + apply alter_thread_lookup_eq. apply (alter_sp_lookup_eq r). exact Hma.
    + split; reflexivity.
  - intros j Hj. subst s3. rewrite threads_log.
    rewrite alter_thread_lookup_ne by done. apply alter_sp_lookup_ne. done.
Qed.

(** [split_open] runs to its end once its booking loop does. *)
Lemma split_open_run (Fake : bool) a m s ma bm (cnt : Z) (s4 : State) :
  pool_ok (MAX_SPLITPOINTS_PER_THREAD E) (threads s) →
  threads s !! m = Some ma →
  Thread.searching ma = true →
  Thread.splitPointsSize ma < MAX_SPLITPOINTS_PER_THREAD E →
  moves s !! Call.bestMove a = Some bm →
  (Thread.idx ma < 64)%nat →
  let r := (m, Z.to_nat (Thread.splitPointsSize ma)) in
  let s3 := log [Lock PoolMutex; Lock (SplitPointMutex r)]
              (alter_thread m (Thread.set_activeSplitPoint (Some r))
                 (alter_sp r (fun _ => opened_sp a m ma bm) s)) in
  (if Fake then Ok (0, s3)
   else ThreadPool.recruit E m r (seq 0 (length (threads s3))) 0 s3) = Ok (cnt, s4) →
  ThreadPool.split_open E Fake a m s
  = Ok (r, cnt,
        log [Unlock (SplitPointMutex r); Unlock PoolMutex]
          (alter_thread m (fun th =>
             Thread.set_splitPointsSize (Thread.splitPointsSize th + 1) th) s4)).
Proof.
  intros Hok Hma Hs Hroom Hbm Hidx r s3 Hloop.
  pose proof (Hok _ _ Hma) as [Hsz Hlen Hmask].
  destruct (lookup_lt_is_Some_2 (Thread.splitPoints ma)
              (Z.to_nat (Thread.splitPointsSize ma))) as [old Hold]; [lia|].
  unfold ThreadPool.split_open.
  apply bind_Ok. exists ma. split; [apply deref_Ok; exact Hma|]. cbv beta zeta.
  apply bind_Ok. exists old. split.
  { apply at_index_Ok. split; [lia|exact Hold]. }
  cbv beta zeta.
  apply bind_Ok. exists (shl64 1 (Thread.idx ma)). split.
  { apply shl_ull_Ok. done. }
  cbv beta zeta.
  apply bind_Ok. exists bm. split; [apply deref_Ok; exact Hbm|]. cbv beta zeta.
  apply bind_Ok. exists tt. split; [apply assert_Ok; exact Hs|]. cbv beta zeta.
  apply bind_Ok. exists (cnt, s4). split; [exact Hloop|]. reflexivity.
Qed.

(** The master needs a bit in the mask: with an index of 64 or more the
    shift that starts the mask of the new split point is undefined. *)
Lemma split_open_shift_undefined (Fake : bool) a m s ma :
  threads s !! m = Some ma →
  thread_ok (MAX_SPLITPOINTS_PER_THREAD E) ma →
  Thread.splitPointsSize ma < MAX_SPLITPOINTS_PER_THREAD E →
  (64 ≤ Thread.idx ma)%nat →
  ThreadPool.split_open E Fake a m s = Undefined.
Proof.
  intros Hma [Hsz Hlen _] Hroom Hidx.
  destruct (lookup_lt_is_Some_2 (Thread.splitPoints ma)
              (Z.to_nat (Thread.splitPointsSize ma))) as [old Hold]; [lia|].
  unfold ThreadPool.split_open.
  rewrite (bind_Ok_l _ ma) by (rewrite Hma; reflexivity). cbv beta zeta.
  rewrite (bind_Ok_l _ old) by (apply at_index_Ok; split; [lia|exact Hold]).
  unfold shl_ull. destruct (Nat.ltb_spec (Thread.idx ma) 64); [lia|reflexivity].
Qed.

(** A [split_open] that returns keeps the pool well formed. *)
Lemma split_open_pool_ok Fake a m s r cnt s1 :
  ThreadPool.split_open E Fake a m s = Ok (r, cnt, s1) →
  pool_ok (MAX_SPLITPOINTS_PER_THREAD E) (threads s) →
  pool_ok (MAX_SPLITPOINTS_PER_THREAD E) (threads s1).
Proof.
  intros Hopen Hok.
  destruct (split_open_spec E Fake a m s r cnt s1 Hopen)
    as (ma & ma1 & Hma & Hsz & _ & _ & Hma1 & Hsz1 & _).
  unfold ThreadPool.split_open in Hopen. inv_Ok.
  match goal with
  | H : threads s !! m = Some ?x |- _ => rewrite Hma in H; injection H as <-
  end.
  match goal with
  | H : moves s !! _ = Some ?x |- _ => rename x into bm
  end.
  match goal with
  | H : (if Fake then _ else _) = Ok ?x |- _ =>
      destruct x as [cnt4 s4]; rename H into Hloop
  end.
  injection Hopen as <- <- <-.
  fold (opened_sp a m ma bm) in Hloop.
  destruct (split_open_before_loop a m s ma bm Hma) as (Hok3 & _).
  cbv zeta in Hok3. specialize (Hok3 Hok).
  assert (Hok4 : pool_ok (MAX_SPLITPOINTS_PER_THREAD E) (threads s4)).
  { destruct Fake.
    - injection Hloop as <- <-. exact Hok3.
    - apply (recruit_pool_ok _ _ _ _ _ _ _ Hloop Hok3). }
  rewrite threads_log in Hma1 |- *.
  apply pool_ok_alter_thread; [exact Hok4|].
  intros th Hth4 [Hz Hl Hk].
  rewrite (alter_thread_lookup_eq m _ s4 th Hth4) in Hma1. injection Hma1 as <-.
  simpl in Hsz1. split; simpl; [lia|exact Hl|exact Hk].
Qed.

(** On a well-formed pool of at most 64 threads, each with its place as
    index, [split_open] is defined. *)
Lemma split_open_defined Fake a m s ma bm :
  pool_ok (MAX_SPLITPOINTS_PER_THREAD E) (threads s) →
  threads s !! m = Some ma →
  Thread.searching ma = true →
  Thread.splitPointsSize ma < MAX_SPLITPOINTS_PER_THREAD E →
  moves s !! Call.bestMove a = Some bm →
  (Thread.idx ma < 64)%nat →
  (length (threads s) ≤ 64)%nat →
  ∃ cnt s1,
    ThreadPool.split_open E Fake a m s
    = Ok ((m, Z.to_nat (Thread.splitPointsSize ma)), cnt, s1).
Proof.
  intros Hok Hma Hs Hroom Hbm Hidx Hlen.
  destruct (split_open_before_loop a m s ma bm Hma)
    as (Hok3 & Hlen3 & (ma3 & Hma3 & Hidx3 & Hs3) & Hother3).
  cbv zeta in Hok3, Hlen3, Hma3, Hother3.
  set (r := (m, Z.to_nat (Thread.splitPointsSize ma))) in *.
  set (s3 := log [Lock PoolMutex; Lock (SplitPointMutex r)]
               (alter_thread m (Thread.set_activeSplitPoint (Some r))
                  (alter_sp r (fun _ => opened_sp a m ma bm) s))) in *.
  assert (Hloop : ∃ cnt s4,
             (if Fake then Ok (0, s3)
              else ThreadPool.recruit E m r (seq 0 (length (threads s3))) 0 s3)
             = Ok (cnt, s4)).
  { destruct Fake; [exists 0, s3; done|].
    apply (recruit_defined m _ _ 0 s3 ma3); [auto|exact Hma3|lia|congruence|].
    intros i Hi. apply elem_of_seq in Hi. lia. }
  destruct Hloop as (cnt & s4 & Hloop).
  eexists. eexists. eapply split_open_run; eassumption.
Qed.

End WellDefined.

(** ** ThreadPool::split: further properties *)

Lemma booked_by_nil_iff E s m :
  booked_by E false s m = []
  ↔ ∀ i, (i < length (threads s))%nat → ThreadPool.available E s m i = false.
Proof.
  unfold booked_by.
  set (cands := List.filter (ThreadPool.available E s m) (seq 0 (length (threads s)))).
  assert (Hn : ∃ n, Z.to_nat (Z.max 1 (maxThreadsPerSplitPoint s - 1)) = S n).
  { exists (Z.to_nat (Z.max 1 (maxThreadsPerSplitPoint s - 1)) - 1)%nat. lia. }
  destruct Hn as [n ->]. split.
  - intros Hnil i Hi. destruct (ThreadPool.available E s m i) eqn:Hav; [|done].
    assert (Hin : In i cands).
    { apply filter_In. split; [|exact Hav]. apply in_seq. lia. }
    destruct cands; [destruct Hin|]. simpl in Hnil. discriminate.
  - intros Hnone. destruct cands as [|i l] eqn:Hc; [reflexivity|].
    assert (Hin : In i cands) by (rewrite Hc; left; reflexivity).
    apply filter_In in Hin as [Hi Hav]. apply in_seq in Hi.
    rewrite Hnone in Hav by lia. discriminate.
Qed.

(** X1. [slave_available] and the booking loop of [split<false>] agree: the
    loop books at least one slave exactly when [slave_available] answers
    true for the same master in the same state, whatever
    [maxThreadsPerSplitPoint] is. *)
Theorem slave_available_iff_split_books
    (E : Externals) (a : Call.t) (m : nat) (s : State) (b : bool)
    (r : SplitPointRef) (cnt : Z) (s1 : State) :
  ThreadPool.slave_available E m s = Ok b →
  ThreadPool.split_open E false a m s = Ok (r, cnt, s1) →
  (b = true ↔ 1 <= cnt).
Proof.
  intros Hsa Hopen. unfold ThreadPool.slave_available in Hsa.
  rewrite (slave_available_from_spec E _ m s b Hsa).
  destruct (split_open_spec E false a m s r cnt s1 Hopen)
    as (_ & _ & _ & _ & _ & _ & _ & _ & _ & _ & _ & _ & _ & Hbook).
  cbv zeta in Hbook. fold (booked_by E false s m) in Hbook.
  destruct Hbook as (-> & _).
  pose proof (booked_by_nil_iff E s m) as Hnil. split.
  - intros (i & Hi & Hav). apply elem_of_seq in Hi.
    destruct (booked_by E false s m) as [|j l]; [|simpl; lia].
    rewrite (proj1 Hnil eq_refl i) in Hav by lia. discriminate.
  - intros Hcnt.
    destruct (booked_by E false s m) as [|j l] eqn:Hb; [simpl in Hcnt; lia|].
    assert (Hj : j ∈ booked_by E false s m) by (rewrite Hb; apply elem_of_cons; auto).
    unfold booked_by in Hj. pose proof (elem_of_take_filter _ _ _ _ Hj) as Hseq.
    exists j. split; [exact Hseq|].
    assert (Hin : j ∈ List.filter (ThreadPool.available E s m)
                      (seq 0 (length (threads s)))).
    { rewrite <- (take_drop (Z.to_nat (Z.max 1 (maxThreadsPerSplitPoint s - 1)))
                           (List.filter _ _)). apply elem_of_app. auto. }
    apply list_elem_of_In, filter_In in Hin. tauto.
Qed.

Lemma slave_available_iff_split_books_witness :
  ∃ r cnt s1,
    ThreadPool.slave_available Demo.externals 0 (Demo.pool 8 3) = Ok true
    ∧ ThreadPool.split_open Demo.externals false Demo.call 0 (Demo.pool 8 3)
      = Ok (r, cnt, s1)
    ∧ 1 <= cnt.
Proof.
  assert (Hrun : ∃ r cnt s1,
             ThreadPool.split_open Demo.externals false Demo.call 0 (Demo.pool 8 3)
             = Ok (r, cnt, s1)).
  { eexists. eexists. eexists. vm_compute. reflexivity. }
  destruct Hrun as (r & cnt & s1 & Hrun).
  assert (Hsa : ThreadPool.slave_available Demo.externals 0 (Demo.pool 8 3) = Ok true)
    by (vm_compute; reflexivity).
  exists r, cnt, s1. split; [exact Hsa|]. split; [exact Hrun|].
  apply (slave_available_iff_split_books Demo.externals Demo.call 0 (Demo.pool 8 3)
           true r cnt s1 Hsa Hrun). reflexivity.
Defined.

(** X2. The split point that [split] leaves for the idle loop: it holds the
    arguments of the call, [nodes = 0] and [cutoff = false], its [parent]
    is the master's former active split point, and bit [k] of
    [slavesMask] is set exactly for [k = master->idx] and for the booked
    slaves, for every [k]: the shifts that set the bits are defined only
    below 64, so when the block has run to its end the index of the
    master and those of the booked slaves are below 64. The master and
    every booked slave have the split point as their [activeSplitPoint]. *)
Theorem split_open_split_point_and_mask
    (E : Externals) (Fake : bool) (a : Call.t) (m : nat) (s : State)
    (r : SplitPointRef) (cnt : Z) (s1 : State) (ma : Thread.t) :
  ThreadPool.split_open E Fake a m s = Ok (r, cnt, s1) →
  threads s !! m = Some ma →
  ∃ sp bm,
    Thread.read_sp (MAX_SPLITPOINTS_PER_THREAD E) (threads s1) r = Ok sp
    ∧ moves s !! Call.bestMove a = Some bm
    ∧ sp = SplitPoint.set_slavesMask (SplitPoint.slavesMask sp) (opened_sp a m ma bm)
    ∧ 0 <= SplitPoint.slavesMask sp < 2 ^ 64
    ∧ (∀ k : nat,
         Z.testbit (SplitPoint.slavesMask sp) (Z.of_nat k) = true
         ↔ k = Thread.idx ma ∨ k ∈ booked_by E Fake s m)
    ∧ (Thread.idx ma < 64)%nat
    ∧ (∀ j, j ∈ booked_by E Fake s m → (j < 64)%nat)
    ∧ (∀ j, j = m ∨ j ∈ booked_by E Fake s m →
         Thread.activeSplitPoint <$> threads s1 !! j = Some (Some r)).
Proof.
  intros Hopen Hma.
  assert (Hbm : ∃ bm, moves s !! Call.bestMove a = Some bm).
  { pose proof Hopen as H. unfold ThreadPool.split_open in H. inv_Ok. eauto. }
  destruct Hbm as [bm Hbm].
  destruct (split_open_split_point E Fake a m s r cnt s1 ma bm Hopen Hma Hbm)
    as (Hsp & Hidx & Hb64).
  rewrite Forall_forall in Hb64.
  eexists. exists bm. split; [exact Hsp|]. split; [exact Hbm|].
  split; [reflexivity|]. simpl.
  assert (Hrange : ∀ l mask, 0 <= mask < 2 ^ 64 → 0 <= with_slaves l mask < 2 ^ 64).
  { induction l as [|i l IH]; intros mask Hmask; [exact Hmask|].
    unfold with_slaves in *. simpl. apply IH. apply lor_uint64; [exact Hmask|].
    apply shl64_uint64. }
  split; [apply Hrange, shl64_uint64|]. split; [|split; [exact Hidx|split; [exact Hb64|]]].
  - intros k. destruct (Nat.lt_ge_cases k 64) as [Hk|Hk].
    2:{ rewrite uint64_high_bits by (try apply Hrange, shl64_uint64; lia).
        split; [discriminate|]. intros [->|Hin]; [lia|].
        specialize (Hb64 k Hin). lia. }
    rewrite with_slaves_testbit, shl64_1_testbit by lia.
    assert (Hlt : (Z.of_nat k <? 64) = true) by (apply Z.ltb_lt; lia).
    rewrite Hlt. simpl. rewrite orb_true_iff, Z.eqb_eq, existsb_exists. split.
    + intros [Heq|(i & Hi & Heq)].
      * left. lia.
      * right. apply Z.eqb_eq in Heq. apply list_elem_of_In.
        replace k with i by lia. exact Hi.
    + intros [->|Hin]; [left; reflexivity|].
      right. exists k. split; [apply list_elem_of_In; exact Hin|apply Z.eqb_refl].
  - destruct (split_open_spec E Fake a m s r cnt s1 Hopen)
      as (ma0 & ma1 & _ & _ & _ & _ & Hma1 & _ & Hact1 & _ & _ & _ & _ & Hbook).
    cbv zeta in Hbook. fold (booked_by E Fake s m) in Hbook.
    destruct Hbook as (_ & _ & Hin & _).
    intros j [->|Hj].
    + rewrite Hma1. simpl. rewrite Hact1. reflexivity.
    + destruct (Hin j Hj) as (th' & -> & _ & Hact). simpl. rewrite Hact. reflexivity.
Qed.

Lemma split_open_split_point_and_mask_witness :
  ∃ r cnt s1 sp,
    ThreadPool.split_open Demo.externals false Demo.call 0 (Demo.pool 8 3)
    = Ok (r, cnt, s1)
    ∧ Thread.read_sp 8 (threads s1) r = Ok sp
    ∧ SplitPoint.slavesMask sp = 7.
Proof.
  assert (Hrun : ∃ r cnt s1 sp,
             ThreadPool.split_open Demo.externals false Demo.call 0 (Demo.pool 8 3)
             = Ok (r, cnt, s1)
             ∧ Thread.read_sp 8 (threads s1) r = Ok sp
             ∧ SplitPoint.slavesMask sp = 7).
  { eexists. eexists. eexists. eexists. split; [vm_compute; reflexivity|].
    split; vm_compute; reflexivity. }
  destruct Hrun as (r & cnt & s1 & sp & Hrun & Hread & Hmask).
  destruct (split_open_split_point_and_mask Demo.externals false Demo.call 0
              (Demo.pool 8 3) r cnt s1 (Demo.worker true 0) Hrun eq_refl)
    as (sp' & bm & Hread' & _).
  exists r, cnt, s1, sp. split; [exact Hrun|]. split; [exact Hread|exact Hmask].
Defined.

Lemma split_close_master Ecl a m r s2 v s' :
  ThreadPool.split_close Ecl a m r s2 = Ok (v, s') →
  ∃ ma2, threads s2 !! m = Some ma2.
Proof.
  unfold ThreadPool.split_close. intros Hrun. inv_Ok.
  rewrite threads_log in *. eauto.
Qed.

(** X3. Whatever the idle loop does, a [split] that returns leaves the
    master's [searching] flag as it was at the call: a declined call does
    not touch it, and a call that opened a split point found it set (the
    [assert] of line 290) and sets it again before returning. *)
Theorem split_leaves_master_searching
    (E : Externals) (Fake : bool) (a : Call.t) (s : State) (v : Value)
    (s' : State) (p : Position.t) (ma : Thread.t) :
  positions s !! Call.pos a = Some p →
  threads s !! Position.this_thread p = Some ma →
  ThreadPool.split E Fake a s = Ok (v, s') →
  ∃ ma', threads s' !! Position.this_thread p = Some ma'
         ∧ Thread.searching ma' = Thread.searching ma
         ∧ (Thread.splitPointsSize ma < MAX_SPLITPOINTS_PER_THREAD E →
            Thread.searching ma' = true).
Proof.
  intros Hp Hma Hrun.
  destruct (split_inv E Fake a s v s' Hrun) as (p' & ma0 & Hp' & _ & Hma0 & Hcases).
  rewrite Hp in Hp'. injection Hp' as <-.
  rewrite Hma in Hma0. injection Hma0 as <-.
  destruct Hcases as [(? & _ & ->)|(_ & r & cnt & s1 & s2 & Hopen & Hwait & Hclose)].
  { exists ma. split; [done|]. split; [done|]. intros. lia. }
  destruct (split_open_spec E Fake a _ s r cnt s1 Hopen)
    as (ma0 & _ & Hma0 & _ & Hs & _).
  rewrite Hma in Hma0. injection Hma0 as <-.
  destruct (split_close_master E a _ r s2 v s' Hclose) as (ma2 & Hma2).
  destruct (split_close_spec E a _ r s2 v s' ma2 Hclose Hma2)
    as (sp & p2 & _ & _ & _ & Hma' & _).
  eexists. split; [exact Hma'|]. simpl. rewrite Hs. done.
Qed.

Lemma split_leaves_master_searching_witness :
  ∃ v s' ma',
    ThreadPool.split Demo.externals false Demo.call (Demo.pool 8 3) = Ok (v, s')
    ∧ threads s' !! 0%nat = Some ma'
    ∧ Thread.searching ma' = true.
Proof.
  assert (Hrun : ∃ v s', ThreadPool.split Demo.externals false Demo.call (Demo.pool 8 3)
                         = Ok (v, s')).
  { eexists. eexists. vm_compute. reflexivity. }
  destruct Hrun as (v & s' & Hrun).
  destruct (split_leaves_master_searching Demo.externals false Demo.call
              (Demo.pool 8 3) v s' (Position.mk 0 100) (Demo.worker true 0)
              eq_refl eq_refl Hrun) as (ma' & Hma' & Hs & _).
  exists v, s', ma'. split; [exact Hrun|]. split; [exact Hma'|exact Hs].
Defined.

(** X4. What the slaves leave in the split point reaches the caller: a
    [split] that opened a split point returns the [bestValue] that the
    split point holds when the closing locks are taken, and stores its
    [bestMove] through the [bestMove] pointer; no other move cell is
    written. *)
Theorem split_returns_split_point_results
    (E : Externals) (Fake : bool) (a : Call.t) (s : State) (v : Value)
    (s' : State) (p : Position.t) (ma : Thread.t) :
  positions s !! Call.pos a = Some p →
  threads s !! Position.this_thread p = Some ma →
  Thread.splitPointsSize ma < MAX_SPLITPOINTS_PER_THREAD E →
  ThreadPool.split E Fake a s = Ok (v, s') →
  ∃ r cnt s1 s2 sp,
    ThreadPool.split_open E Fake a (Position.this_thread p) s = Ok (r, cnt, s1)
    ∧ ThreadPool.split_wait E Fake cnt (Position.this_thread p) s1 = Ok s2
    ∧ Thread.read_sp (MAX_SPLITPOINTS_PER_THREAD E) (threads s2) r = Ok sp
    ∧ v = SplitPoint.bestValue sp
    ∧ moves s' !! Call.bestMove a = Some (SplitPoint.bestMove sp)
    ∧ (∀ q, q ≠ Call.bestMove a → moves s' !! q = moves s2 !! q).
Proof.
  intros Hp Hma Hroom Hrun.
  destruct (split_inv E Fake a s v s' Hrun) as (p' & ma0 & Hp' & _ & Hma0 & Hcases).
  rewrite Hp in Hp'. injection Hp' as <-.
  rewrite Hma in Hma0. injection Hma0 as <-.
  destruct Hcases as [(Hfull & _)|(_ & r & cnt & s1 & s2 & Hopen & Hwait & Hclose)];
    [lia|].
  destruct (split_close_master E a _ r s2 v s' Hclose) as (ma2 & Hma2).
  destruct (split_close_spec E a _ r s2 v s' ma2 Hclose Hma2)
    as (sp & p2 & Hsp & _ & Hv & _ & _ & _ & Hmoves & _).
  exists r, cnt, s1, s2, sp.
  split; [exact Hopen|]. split; [exact Hwait|]. split; [exact Hsp|].
  split; [exact Hv|]. rewrite Hmoves. split.
  - apply lookup_insert_eq.
  - intros q Hq. apply lookup_insert_ne. done.
Qed.

Lemma split_returns_split_point_results_witness :
  ∃ v s',
    ThreadPool.split Demo.externals false Demo.call (Demo.pool 8 3) = Ok (v, s')
    ∧ v = -20
    ∧ moves s' !! 0%nat = Some 77.
Proof.
  assert (Hrun : ∃ v s', ThreadPool.split Demo.externals false Demo.call (Demo.pool 8 3)
                         = Ok (v, s') ∧ v = -20 ∧ moves s' !! 0%nat = Some 77).
  { eexists. eexists. split; [vm_compute; reflexivity|]. split; vm_compute; reflexivity. }
  destruct Hrun as (v & s' & Hrun & Hv & Hm).
  destruct (split_returns_split_point_results Demo.externals false Demo.call
              (Demo.pool 8 3) v s' (Position.mk 0 100) (Demo.worker true 0)
              eq_refl eq_refl ltac:(simpl; lia) Hrun) as (r & _).
  exists v, s'. split; [exact Hrun|]. split; [exact Hv|exact Hm].
Defined.

(** X5. [split<true>] books no slave, whatever threads are idle, and still
    enters the master's idle loop: the loop is run on the state in which
    only the master, its new split point and the trace differ from the
    state at the call, and it has returned with the master idle when
    [split] returns. *)
Theorem fake_split_books_nobody_and_waits
    (E : Externals) (a : Call.t) (s : State) (v : Value) (s' : State)
    (p : Position.t) (ma : Thread.t) :
  positions s !! Call.pos a = Some p →
  threads s !! Position.this_thread p = Some ma →
  Thread.splitPointsSize ma < MAX_SPLITPOINTS_PER_THREAD E →
  ThreadPool.split E true a s = Ok (v, s') →
  ∃ r s1 s2 ma2,
    ThreadPool.split_open E true a (Position.this_thread p) s = Ok (r, 0, s1)
    ∧ notified (trace s1) = notified (trace s)
    ∧ (∀ j, j ≠ Position.this_thread p → threads s1 !! j = threads s !! j)
    ∧ idle_loop E (Position.this_thread p) s1 = Ok s2
    ∧ threads s2 !! Position.this_thread p = Some ma2
    ∧ Thread.searching ma2 = false
    ∧ ThreadPool.split_close E a (Position.this_thread p) r s2 = Ok (v, s').
Proof.
  intros Hp Hma Hroom Hrun.
  destruct (split_inv E true a s v s' Hrun) as (p' & ma0 & Hp' & _ & Hma0 & Hcases).
  rewrite Hp in Hp'. injection Hp' as <-.
  rewrite Hma in Hma0. injection Hma0 as <-.
  destruct Hcases as [(Hfull & _)|(_ & r & cnt & s1 & s2 & Hopen & Hwait & Hclose)];
    [lia|].
  destruct (split_open_spec E true a _ s r cnt s1 Hopen)
    as (_ & _ & _ & _ & _ & _ & _ & _ & _ & _ & _ & _ & _ & Hbook).
  cbv zeta in Hbook. destruct Hbook as (Hcnt & Htr & _ & Hout).
  simpl in Hcnt. subst cnt.
  unfold ThreadPool.split_wait in Hwait. rewrite orb_true_r in Hwait. inv_Ok.
  match goal with
  | H : threads s2 !! _ = Some ?x |- _ => rename x into ma2; rename H into Hma2
  end.
  match goal with
  | H : negb _ = true |- _ => apply negb_true_iff in H; rename H into Hidle
  end.
  exists r, s1, s2, ma2. split; [exact Hopen|]. split.
  { rewrite Htr, !notified_app. simpl. rewrite app_nil_r. reflexivity. }
  split.
  { intros j Hj. apply Hout; [|exact Hj]. intros Hin. by apply elem_of_nil in Hin. }
  done.
Qed.

Lemma fake_split_books_nobody_and_waits_witness :
  ∃ v s',
    ThreadPool.split Demo.externals true Demo.call (Demo.pool 8 3) = Ok (v, s')
    ∧ notified (trace s') = [].
Proof.
  assert (Hrun : ∃ v s', ThreadPool.split Demo.externals true Demo.call (Demo.pool 8 3)
                         = Ok (v, s') ∧ notified (trace s') = []).
  { eexists. eexists. split; vm_compute; reflexivity. }
  destruct Hrun as (v & s' & Hrun & Hn).
  destruct (fake_split_books_nobody_and_waits Demo.externals Demo.call
              (Demo.pool 8 3) v s' (Position.mk 0 100) (Demo.worker true 0)
              eq_refl eq_refl ltac:(simpl; lia) Hrun) as (r & _).
  exists v, s'. split; [exact Hrun|exact Hn].
Defined.

Section Alone.

Variable E : Externals.

Lemma split_close_defined a m r s2 ma2 sp p2 :
  threads s2 !! m = Some ma2 →
  Thread.read_sp (MAX_SPLITPOINTS_PER_THREAD E) (threads s2) r = Ok sp →
  positions s2 !! Call.pos a = Some p2 →
  INT64_MIN <= Position.nodes_searched p2 + SplitPoint.nodes sp <= INT64_MAX →
  ∃ s', ThreadPool.split_close E a m r s2 = Ok (SplitPoint.bestValue sp, s').
Proof.
  intros Hma2 Hsp Hp2 Hrange. unfold ThreadPool.split_close. cbv zeta.
  eexists. apply bind_Ok. exists ma2. split.
  { apply deref_Ok. rewrite threads_log. exact Hma2. }
  apply bind_Ok. exists sp. split.
  { rewrite !read_sp_alter_thread by done. rewrite threads_log. exact Hsp. }
  apply bind_Ok. exists p2. split; [apply deref_Ok; exact Hp2|].
  apply bind_Ok. exists (Position.nodes_searched p2 + SplitPoint.nodes sp).
  split; [apply add_int64_Ok; done|]. reflexivity.
Qed.

Lemma split_normal_path Fake a s p ma r cnt s1 s2 v s' :
  positions s !! Call.pos a = Some p →
  ThreadPool.split_asserts E a p = true →
  threads s !! Position.this_thread p = Some ma →
  Thread.splitPointsSize ma < MAX_SPLITPOINTS_PER_THREAD E →
  ThreadPool.split_open E Fake a (Position.this_thread p) s = Ok (r, cnt, s1) →
  ThreadPool.split_wait E Fake cnt (Position.this_thread p) s1 = Ok s2 →
  ThreadPool.split_close E a (Position.this_thread p) r s2 = Ok (v, s') →
  ThreadPool.split E Fake a s = Ok (v, s').
Proof.
  intros Hp Hasserts Hma Hroom Hopen Hwait Hclose. unfold ThreadPool.split.
  apply bind_Ok. exists p. split; [apply deref_Ok; exact Hp|].
  apply bind_Ok. exists tt. split; [apply assert_Ok; exact Hasserts|]. cbv zeta.
  apply bind_Ok. exists ma. split; [apply deref_Ok; exact Hma|].
  rewrite Z.geb_leb.
  destruct (Z.leb_spec (MAX_SPLITPOINTS_PER_THREAD E) (Thread.splitPointsSize ma));
    [lia|].
  apply bind_Ok. exists (r, cnt, s1). split; [exact Hopen|].
  apply bind_Ok. exists s2. split; [exact Hwait|exact Hclose].
Qed.

End Alone.

(** X6. When [slave_available] answers false, [split<false>] books nobody,
    does not enter the idle loop and returns [bestValue] as it was
    passed; it leaves the node counter, [*bestMove], the other threads
    and the master's [searching], [splitPointsSize] and
    [activeSplitPoint] as they were, and notifies no thread. The master
    has its bit in the mask, that is an index below 64, and the node
    counter is an [int64_t]. *)
Theorem split_without_available_slave
    (E : Externals) (a : Call.t) (s : State) (p : Position.t)
    (ma : Thread.t) (bm : Move) :
  pool_ok (MAX_SPLITPOINTS_PER_THREAD E) (threads s) →
  positions s !! Call.pos a = Some p →
  ThreadPool.split_asserts E a p = true →
  threads s !! Position.this_thread p = Some ma →
  Thread.searching ma = true →
  Thread.splitPointsSize ma < MAX_SPLITPOINTS_PER_THREAD E →
  moves s !! Call.bestMove a = Some bm →
  (Thread.idx ma < 64)%nat →
  INT64_MIN <= Position.nodes_searched p <= INT64_MAX →
  ThreadPool.slave_available E (Position.this_thread p) s = Ok false →
  ∃ s', ThreadPool.split E false a s = Ok (Call.bestValue a, s')
        ∧ notified (trace s') = notified (trace s)
        ∧ positions s' = positions s
        ∧ moves s' = moves s
        ∧ (∀ j, j ≠ Position.this_thread p → threads s' !! j = threads s !! j)
        ∧ ∃ ma', threads s' !! Position.this_thread p = Some ma'
                 ∧ Thread.searching ma' = true
                 ∧ Thread.splitPointsSize ma' = Thread.splitPointsSize ma
                 ∧ Thread.activeSplitPoint ma' = Thread.activeSplitPoint ma.
Proof.
  intros Hok Hp Hasserts Hma Hs Hroom Hbm Hidx Hnodes Hsa.
  set (m := Position.this_thread p) in *.
  assert (Hopen : ∃ cnt s1,
             ThreadPool.split_open E false a m s
             = Ok ((m, Z.to_nat (Thread.splitPointsSize ma)), cnt, s1)).
  { destruct (split_open_before_loop E a m s ma bm Hma)
      as (_ & Hlen3 & (ma3 & Hma3 & Hidx3 & Hs3) & Hother3).
    cbv zeta in Hlen3, Hma3, Hother3.
    eexists. eexists.
    eapply (split_open_run E false a m s ma bm 0); try eassumption.
    apply recruit_none. rewrite Hlen3.
    rewrite (slave_available_from_ext E _ m s _ ma ma3 Hma Hma3 Hs); try done.
    congruence. }
  destruct Hopen as (cnt & s1 & Hopen).
  set (r := (m, Z.to_nat (Thread.splitPointsSize ma))) in *.
  destruct (split_open_split_point E false a m s r cnt s1 ma bm Hopen Hma Hbm)
    as (Hsp & _ & _).
  destruct (split_open_spec E false a m s r cnt s1 Hopen)
    as (ma0 & ma1 & Hma0 & Hsz & _ & _ & Hma1 & Hsz1 & Hact1 & Hpar1 & _ & Hpos1
        & Hmov1 & Hbook).
  rewrite Hma in Hma0. injection Hma0 as <-.
  cbv zeta in Hbook. fold (booked_by E false s m) in Hbook.
  assert (Hnil : booked_by E false s m = []).
  { apply booked_by_nil_iff. intros i Hi.
    destruct (ThreadPool.available E s m i) eqn:Hav; [|done].
    unfold ThreadPool.slave_available in Hsa.
    assert (Hfalse : false = true); [|discriminate].
    apply (slave_available_from_spec E _ m s false Hsa).
    exists i. split; [apply elem_of_seq; lia|exact Hav]. }
  rewrite Hnil in Hbook, Hsp. destruct Hbook as (Hcnt & Htr & _ & Hout).
  simpl in Hcnt. subst cnt.
  assert (Hwait : ThreadPool.split_wait E false 0 m s1 = Ok s1) by reflexivity.
  assert (Hp1 : positions s1 !! Call.pos a = Some p) by (rewrite Hpos1; exact Hp).
  destruct (split_close_defined E a m r s1 ma1 _ p Hma1 Hsp Hp1) as (s' & Hclose).
  { simpl. lia. }
  exists s'. split.
  { eapply split_normal_path; eassumption. }
  destruct (split_close_spec E a m r s1 _ s' ma1 Hclose Hma1)
    as (sp & p2 & Hsp' & Hp2 & _ & Hma' & Hother & Hpos' & Hmov' & Htr').
  rewrite Hsp in Hsp'. injection Hsp' as <-.
  rewrite Hp1 in Hp2. injection Hp2 as <-.
  split.
  { rewrite Htr', Htr, !notified_app. simpl. rewrite !app_nil_r. reflexivity. }
  split.
  { rewrite Hpos', Hpos1. simpl. apply insert_id. rewrite Hp.
    destruct p. unfold Position.set_nodes_searched, Position.nodes_searched. simpl.
    rewrite Z.add_0_r. reflexivity. }
  split.
  { rewrite Hmov', Hmov1. simpl. apply insert_id. exact Hbm. }
  split.
  { intros j Hj. rewrite Hother by done. apply Hout; [|done].
    intros Hin. by apply elem_of_nil in Hin. }
  eexists. split; [exact Hma'|]. simpl. split; [done|]. split; [lia|done].
Qed.

Lemma split_without_available_slave_witness :
  ∃ s', ThreadPool.split Demo.externals false Demo.call (Demo.pool 1 3) = Ok (-20, s')
        ∧ positions s' = positions (Demo.pool 1 3)
        ∧ moves s' = moves (Demo.pool 1 3).
Proof.
  destruct (split_without_available_slave Demo.externals Demo.call (Demo.pool 1 3)
              (Position.mk 0 100) (Demo.worker true 0) 77)
    as (s' & Hrun & _ & Hpos & Hmov & _).
  - intros i th Hi. destruct i as [|i]; [|discriminate].
    injection Hi as <-. split.
    + simpl. lia.
    + reflexivity.
    + intros sp Hsp. apply elem_of_replicate in Hsp as [-> _]. simpl. lia.
  - reflexivity.
  - reflexivity.
  - reflexivity.
  - reflexivity.
  - simpl. lia.
  - reflexivity.
  - simpl. lia.
  - unfold INT64_MIN, INT64_MAX. simpl. lia.
  - reflexivity.
  - exists s'. split; [exact Hrun|]. split; [exact Hpos|exact Hmov].
Defined.

(** ** The pool stays well formed *)

(** X7. [split] keeps every thread's stack within its array and every mask
    within 64 bits: if the pool is well formed at the call and the idle
    loop keeps it so and leaves the master's stack as it found it, the
    pool is well formed when [split] returns. *)
Theorem split_keeps_pool_ok
    (E : Externals) (Fake : bool) (a : Call.t) (s : State) (v : Value) (s' : State) :
  idle_loop_keeps_pool_ok E →
  idle_loop_keeps_stack E →
  pool_ok (MAX_SPLITPOINTS_PER_THREAD E) (threads s) →
  ThreadPool.split E Fake a s = Ok (v, s') →
  pool_ok (MAX_SPLITPOINTS_PER_THREAD E) (threads s').
Proof.
  intros Hkeep Hframe Hok Hrun.
  destruct (split_inv E Fake a s v s' Hrun) as (p & ma & Hp & _ & Hma & Hcases).
  destruct Hcases as [(_ & _ & ->)|(Hroom & r & cnt & s1 & s2 & Hopen & Hwait & Hclose)];
    [exact Hok|].
  set (m := Position.this_thread p) in *.
  destruct (split_open_spec E Fake a m s r cnt s1 Hopen)
    as (ma0 & ma1 & Hma0 & Hsz & Hs & Hr & Hma1 & Hsz1 & _).
  rewrite Hma in Hma0. injection Hma0 as <-.
  assert (Hbm : ∃ bm, moves s !! Call.bestMove a = Some bm).
  { pose proof Hopen as H. unfold ThreadPool.split_open in H. inv_Ok. eauto. }
  destruct Hbm as [bm Hbm].
  pose proof (split_open_pool_ok E Fake a m s r cnt s1 Hopen Hok) as Hok1.
  assert (Hok2 : pool_ok (MAX_SPLITPOINTS_PER_THREAD E) (threads s2)).
  { unfold ThreadPool.split_wait in Hwait.
    destruct (negb (cnt =? 0) || Fake); [|injection Hwait as <-; exact Hok1].
    inv_Ok. eapply Hkeep; eassumption. }
  destruct (split_wait_master E Fake cnt m s1 s2 ma1 Hframe Hwait Hma1)
    as (ma2 & Hma2 & Hsz2 & _).
  destruct (split_close_spec E a m r s2 v s' ma2 Hclose Hma2)
    as (sp & p2 & _ & _ & _ & Hma' & Hother & _).
  pose proof (Hok2 _ _ Hma2) as [Hz2 Hl2 Hk2].
  intros j th Hj. destruct (decide (j = m)) as [->|Hne].
  - rewrite Hma' in Hj. injection Hj as <-. split; simpl; [lia|exact Hl2|exact Hk2].
  - rewrite Hother in Hj by done. eapply Hok2. exact Hj.
Qed.

Lemma demo_pool_ok n maxThreads :
  pool_ok 8 (threads (Demo.pool n maxThreads)).
Proof.
  assert (Hw : ∀ b i, thread_ok 8 (Demo.worker b i)).
  { intros b i. split.
    - simpl. lia.
    - reflexivity.
    - intros sp Hsp. apply elem_of_replicate in Hsp as [-> _]. simpl. lia. }
  intros i th Hi. simpl in Hi. destruct i as [|i].
  - injection Hi as <-. apply Hw.
  - simpl in Hi. rewrite list_lookup_fmap in Hi.
    destruct (seq 1 (n - 1) !! i); simpl in Hi; [|discriminate].
    injection Hi as <-. apply Hw.
Qed.

Lemma demo_idle_loop_keeps_pool_ok : idle_loop_keeps_pool_ok Demo.externals.
Proof.
  intros m s s' Hrun Hok. simpl in Hrun. unfold Demo.base_idle_loop in Hrun.
  inv_Ok.
  assert (Hidle : pool_ok 8 (threads s) →
                  pool_ok 8 (threads (alter_thread m (Thread.set_searching false) s))).
  { intros Hpool. apply pool_ok_alter_thread; [exact Hpool|].
    intros th _ Hth. eapply thread_ok_same_stack; [exact Hth| |]; reflexivity. }
  match goal with
  | H : threads s !! m = Some ?x |- _ => destruct (Thread.activeSplitPoint x) as [r|]
  end; injection Hrun as <-.
  - apply pool_ok_alter_thread.
    + unfold alter_sp. apply pool_ok_alter_thread; [exact Hok|].
      intros th _ Hth. apply thread_ok_alter_sp; [exact Hth|]. intros sp Hsp. exact Hsp.
    + intros th _ Hth. eapply thread_ok_same_stack; [exact Hth| |]; reflexivity.
  - apply Hidle. exact Hok.
Qed.

Lemma split_keeps_pool_ok_witness :
  ∃ v s',
    ThreadPool.split Demo.externals false Demo.call (Demo.pool 8 3) = Ok (v, s')
    ∧ pool_ok 8 (threads s').
Proof.
  assert (Hrun : ∃ v s', ThreadPool.split Demo.externals false Demo.call (Demo.pool 8 3)
                         = Ok (v, s')).
  { eexists. eexists. vm_compute. reflexivity. }
  destruct Hrun as (v & s' & Hrun). exists v, s'. split; [exact Hrun|].
  exact (split_keeps_pool_ok Demo.externals false Demo.call (Demo.pool 8 3) v s'
           demo_idle_loop_keeps_pool_ok demo_idle_loop_keeps_stack
           (demo_pool_ok 8 3) Hrun).
Defined.

(** ** Lock discipline *)

Lemma holds_app held tr1 tr2 :
  holds held (tr1 ++ tr2) = held' ← holds held tr1; holds held' tr2.
Proof.
  revert held. induction tr1 as [|e tr1 IH]; intros held; [reflexivity|].
  destruct e as [m|m|i|ms|]; simpl.
  - destruct (bool_decide (m ∈ held)); [reflexivity|apply IH].
  - destruct held as [|h held]; [reflexivity|].
    destruct (bool_decide (h = m)); [apply IH|reflexivity].
  - destruct (bool_decide (ThreadMutex i ∈ held)); [apply IH|reflexivity].
  - destruct (bool_decide (held = [TimerMutex])); [apply IH|reflexivity].
  - destruct (bool_decide (held = [])); [apply IH|reflexivity].
Qed.

Lemma held_at_notify_app held tr1 tr2 held' :
  holds held tr1 = Some held' →
  held_at_notify held (tr1 ++ tr2)
  = held_at_notify held tr1 ++ held_at_notify held' tr2.
Proof.
  revert held. induction tr1 as [|e tr1 IH]; intros held Hh.
  - simpl in Hh. injection Hh as <-. reflexivity.
  - destruct e as [m|m|i|ms|]; simpl in *.
    + destruct (bool_decide (m ∈ held)); [discriminate|]. apply IH. exact Hh.
    + destruct held as [|h held]; [discriminate|].
      destruct (bool_decide (h = m)); [|discriminate]. apply IH. exact Hh.
    + destruct (bool_decide (ThreadMutex i ∈ held)); [|discriminate].
      f_equal. apply IH. exact Hh.
    + destruct (bool_decide (held = [TimerMutex])); [|discriminate]. apply IH. exact Hh.
    + destruct (bool_decide (held = [])); [|discriminate]. apply IH. exact Hh.
Qed.

Lemma holds_notify_events (held : list Mutex) (l : list nat) :
  (∀ i, ThreadMutex i ∉ held) →
  holds held (flat_map notify_events l) = Some held
  ∧ held_at_notify held (flat_map notify_events l)
    = map (fun i => (i, ThreadMutex i :: held)) l.
Proof.
  intros Hfree. induction l as [|i l [IH1 IH2]]; [done|].
  simpl. rewrite bool_decide_eq_false_2 by apply Hfree.
  rewrite bool_decide_eq_true_2 by (apply elem_of_cons; auto).
  rewrite bool_decide_eq_true_2 by reflexivity.
  split; [exact IH1|]. f_equal. exact IH2.
Qed.

Lemma locked_app tr1 tr2 : locked (tr1 ++ tr2) = locked tr1 ++ locked tr2.
Proof. apply flat_map_app. Qed.

Lemma locked_notify_events (l : list nat) :
  locked (flat_map notify_events l) = map ThreadMutex l.
Proof. induction l as [|i l IH]; [reflexivity|]. simpl. f_equal. exact IH. Qed.

(** X8. The locks of [split]. The opening block locks the pool's mutex, then
    the split point's, notifies each booked slave under its own mutex
    with both still held, and unlocks in the reverse order; the closing
    block locks and unlocks the same two mutexes. No mutex is held when
    the master enters the idle loop or when [split] returns. *)
Theorem split_lock_discipline
    (E : Externals) (Fake : bool) (a : Call.t) (s : State) (v : Value)
    (s' : State) (p : Position.t) (ma : Thread.t) :
  positions s !! Call.pos a = Some p →
  threads s !! Position.this_thread p = Some ma →
  Thread.splitPointsSize ma < MAX_SPLITPOINTS_PER_THREAD E →
  ThreadPool.split E Fake a s = Ok (v, s') →
  ∃ r cnt s1 s2 opening closing,
    ThreadPool.split_open E Fake a (Position.this_thread p) s = Ok (r, cnt, s1)
    ∧ trace s1 = trace s ++ opening
    ∧ holds [] opening = Some []
    ∧ locked opening
      = PoolMutex :: SplitPointMutex r
        :: map ThreadMutex (booked_by E Fake s (Position.this_thread p))
    ∧ held_at_notify [] opening
      = map (fun i => (i, [ThreadMutex i; SplitPointMutex r; PoolMutex]))
            (booked_by E Fake s (Position.this_thread p))
    ∧ ThreadPool.split_wait E Fake cnt (Position.this_thread p) s1 = Ok s2
    ∧ trace s' = trace s2 ++ closing
    ∧ holds [] closing = Some []
    ∧ locked closing = [PoolMutex; SplitPointMutex r].
Proof.
  intros Hp Hma Hroom Hrun.
  destruct (split_inv E Fake a s v s' Hrun) as (p' & ma0 & Hp' & _ & Hma0 & Hcases).
  rewrite Hp in Hp'. injection Hp' as <-.
  rewrite Hma in Hma0. injection Hma0 as <-.
  destruct Hcases as [(Hfull & _)|(_ & r & cnt & s1 & s2 & Hopen & Hwait & Hclose)];
    [lia|].
  set (m := Position.this_thread p) in *.
  destruct (split_open_spec E Fake a m s r cnt s1 Hopen)
    as (_ & _ & _ & _ & _ & _ & _ & _ & _ & _ & _ & _ & _ & Hbook).
  cbv zeta in Hbook. fold (booked_by E Fake s m) in Hbook.
  destruct Hbook as (_ & Htr & _ & _).
  destruct (split_close_master E a m r s2 v s' Hclose) as (ma2 & Hma2).
  destruct (split_close_spec E a m r s2 v s' ma2 Hclose Hma2)
    as (sp & p2 & _ & _ & _ & _ & _ & _ & _ & Htr').
  assert (Hfree : ∀ i, ThreadMutex i ∉ [SplitPointMutex r; PoolMutex]).
  { intros i Hin. apply list_elem_of_In in Hin. simpl in Hin.
    intuition discriminate. }
  destruct (holds_notify_events [SplitPointMutex r; PoolMutex]
              (booked_by E Fake s m) Hfree) as [Hh Hn].
  exists r, cnt, s1, s2. eexists. eexists.
  split; [exact Hopen|]. split; [exact Htr|]. split.
  { change ([Lock PoolMutex; Lock (SplitPointMutex r)] ++ ?x)
      with (Lock PoolMutex :: Lock (SplitPointMutex r) :: x).
    simpl. rewrite holds_app, Hh. simpl.
    rewrite ?bool_decide_eq_true_2 by reflexivity. reflexivity. }
  split.
  { rewrite !locked_app, locked_notify_events. simpl.
    rewrite app_nil_r. reflexivity. }
  split.
  { change ([Lock PoolMutex; Lock (SplitPointMutex r)] ++ ?x)
      with (Lock PoolMutex :: Lock (SplitPointMutex r) :: x).
    simpl. rewrite (held_at_notify_app _ _ _ _ Hh), Hn. simpl.
    rewrite app_nil_r. reflexivity. }
  split; [exact Hwait|]. split; [exact Htr'|]. split; [|reflexivity].
  simpl. rewrite ?bool_decide_eq_true_2 by reflexivity. reflexivity.
Qed.

Lemma split_lock_discipline_witness :
  ∃ v s',
    ThreadPool.split Demo.externals false Demo.call (Demo.pool 8 3) = Ok (v, s')
    ∧ holds [] (trace s') = Some [].
Proof.
  assert (Hrun : ∃ v s', ThreadPool.split Demo.externals false Demo.call (Demo.pool 8 3)
                         = Ok (v, s') ∧ holds [] (trace s') = Some []).
  { eexists. eexists. split; vm_compute; reflexivity. }
  destruct Hrun as (v & s' & Hrun & Hh).
  destruct (split_lock_discipline Demo.externals false Demo.call (Demo.pool 8 3)
              v s' (Position.mk 0 100) (Demo.worker true 0)
              eq_refl eq_refl ltac:(simpl; lia) Hrun) as (r & _).
  exists v, s'. split; [exact Hrun|exact Hh].
Defined.

(** X9. The timer calls [check_time()] with no mutex held and waits on its
    condition holding its mutex and no other; it holds no mutex between
    two passes of the loop, nor when the loop returns. This for every
    sequence of values read from [exit] and [msec]. *)
Theorem timer_lock_discipline (env : list TimerThread.Reads) :
  holds [] (TimerThread.idle_loop env).1 = Some [].
Proof.
  induction env as [|o env IH]; [reflexivity|].
  simpl. destruct (TimerThread.exit_at_loop o); [reflexivity|].
  destruct (TimerThread.idle_loop env) as [tr returned]. simpl in *.
  unfold TimerThread.iteration. rewrite holds_app.
  destruct (TimerThread.exit_under_mutex o), (TimerThread.msec_at_check o =? 0);
    simpl; exact IH.
Qed.

(** ** ThreadPool::read_uci_options *)

Section SetupFacts.

Variable cap : Z.
Variable Sys : Setup.System.

Lemma new_Thread_Ok n th :
  Setup.new_Thread cap Sys n = Ok th
  ↔ Setup.thread_create Sys n = true ∧ th = Setup.fresh_thread cap n.
Proof.
  unfold Setup.new_Thread. simpl. destruct (Setup.thread_create Sys n).
  - split; [intros H; injection H as <-; done|intros [_ ->]; done].
  - split; [discriminate|intros [? _]; discriminate].
Qed.

Lemma set_threads_id s : set_threads (threads s) s = s.
Proof. destruct s. reflexivity. Qed.

Lemma grow_Ok n :
  ∀ s s', Setup.grow cap Sys n s = Ok s' →
    s' = set_threads (threads s ++ map (Setup.fresh_thread cap)
                                       (seq (length (threads s)) n)) s
    ∧ ∀ i, (length (threads s) ≤ i < length (threads s) + n)%nat →
           Setup.thread_create Sys i = true.
Proof.
  induction n as [|n IH]; intros s s' Hrun; simpl in Hrun.
  - injection Hrun as <-. simpl. rewrite app_nil_r, set_threads_id.
    split; [done|]. intros i Hi. lia.
  - apply bind_Ok in Hrun as (th & Hth & Hrun).
    apply new_Thread_Ok in Hth as [Hc ->].
    destruct (IH _ _ Hrun) as [-> Hcs]. simpl in *. split.
    + unfold set_threads. simpl. rewrite length_app. simpl.
      rewrite <- app_assoc. simpl. rewrite Nat.add_1_r. reflexivity.
    + intros i Hi. rewrite length_app in Hcs. simpl in Hcs.
      destruct (decide (i = length (threads s))) as [->|Hne]; [exact Hc|].
      apply Hcs. lia.
Qed.

Lemma grow_defined n :
  ∀ s, (∀ i, (length (threads s) ≤ i < length (threads s) + n)%nat →
             Setup.thread_create Sys i = true) →
       ∃ s', Setup.grow cap Sys n s = Ok s'.
Proof.
  induction n as [|n IH]; intros s Hc; simpl; [eauto|].
  unfold Setup.new_Thread. simpl. rewrite Hc by lia. simpl.
  apply IH. intros i Hi. simpl in Hi. rewrite length_app in Hi. simpl in Hi.
  apply Hc. lia.
Qed.

Lemma grow_exits n :
  ∀ s i, (length (threads s) ≤ i < length (threads s) + n)%nat →
         Setup.thread_create Sys i = false →
         Setup.grow cap Sys n s = NoReturn.
Proof.
  induction n as [|n IH]; intros s i Hi Hc; [lia|].
  simpl. unfold Setup.new_Thread. simpl.
  destruct (Setup.thread_create Sys (length (threads s))) eqn:Hfirst; [|reflexivity].
  simpl. apply (IH _ i); [|exact Hc]. simpl. rewrite length_app. simpl.
  destruct (decide (i = length (threads s))) as [->|Hne]; [congruence|lia].
Qed.

Lemma shrink_eq n :
  ∀ s, (n ≤ length (threads s))%nat →
    Setup.shrink n s
    = log (flat_map notify_events (rev (seq (length (threads s) - n) n)))
          (set_threads (take (length (threads s) - n) (threads s)) s).
Proof.
  induction n as [|n IH]; intros s Hn.
  - simpl. rewrite Nat.sub_0_r, firstn_all, set_threads_id.
    destruct s. unfold log. simpl. rewrite app_nil_r. reflexivity.
  - cbn [Setup.shrink]. cbv zeta.
    assert (Hstep : set_threads
                      (removelast (threads (Setup.delete_Thread (length (threads s) - 1) s)))
                      (Setup.delete_Thread (length (threads s) - 1) s)
                    = log (notify_events (length (threads s) - 1))
                          (set_threads (take (length (threads s) - 1) (threads s)) s)).
    { unfold Setup.delete_Thread, notify_one, alter_thread, log, set_threads. simpl.
      rewrite removelast_firstn_len, length_alter.
      rewrite take_alter_ge by lia.
      replace (Init.Nat.pred (length (threads s))) with (length (threads s) - 1)%nat by lia.
      reflexivity. }
    rewrite Hstep. rewrite IH.
    + rewrite (seq_S n), rev_unit.
      replace (length (threads s) - S n + n)%nat with (length (threads s) - 1)%nat by lia.
      unfold log, set_threads. cbn [threads maxThreadsPerSplitPoint minimumSplitDepth
                                    sleepWhileIdle positions moves trace].
      rewrite length_take_le by lia. rewrite take_take.
      replace (length (threads s) - 1 - n)%nat with (length (threads s) - S n)%nat by lia.
      replace ((length (threads s) - S n) `min` (length (threads s) - 1))%nat
        with (length (threads s) - S n)%nat by lia.
      cbn [flat_map]. rewrite <- app_assoc. reflexivity.
    + unfold log, set_threads. cbn [threads]. rewrite length_take_le by lia. lia.
Qed.

(** The state that [read_uci_options] leaves, when it returns. *)
Lemma read_uci_options_state o s s' :
  Setup.read_uci_options cap Sys o s = Ok s' →
  s' = log (flat_map notify_events
              (rev (seq (Setup.Threads o) (length (threads s) - Setup.Threads o))))
           (set_threads
              (take (Setup.Threads o) (threads s)
               ++ map (Setup.fresh_thread cap)
                      (seq (length (threads s)) (Setup.Threads o - length (threads s))))
              (Setup.set_options (Setup.Max_Threads_per_Split_Point o)
                 (Setup.Min_Split_Depth o * Setup.ONE_PLY Sys) s)).
Proof.
  unfold Setup.read_uci_options. cbv zeta. intros Hrun.
  apply bind_Ok in Hrun as (_ & _ & Hrun).
  apply bind_Ok in Hrun as (s2 & Hgrow & Hrun). injection Hrun as <-.
  apply grow_Ok in Hgrow as [-> _].
  change (threads (Setup.set_options ?x ?y s)) with (threads s).
  set (fresh := map (Setup.fresh_thread cap)
                    (seq (length (threads s)) (Setup.Threads o - length (threads s)))).
  assert (Hlen : length (threads s ++ fresh)
                 = (length (threads s) + (Setup.Threads o - length (threads s)))%nat).
  { subst fresh. rewrite length_app, length_map, length_seq. reflexivity. }
  rewrite shrink_eq; simpl; [|lia].
  rewrite Hlen.
  replace (length (threads s) + (Setup.Threads o - length (threads s))
           - (length (threads s) + (Setup.Threads o - length (threads s))
              - Setup.Threads o))%nat with (Setup.Threads o) by lia.
  replace (length (threads s) + (Setup.Threads o - length (threads s))
           - Setup.Threads o)%nat
    with (length (threads s) - Setup.Threads o)%nat by lia.
  unfold log, set_threads. simpl. f_equal.
  destruct (Nat.le_gt_cases (Setup.Threads o) (length (threads s))) as [Hle|Hgt].
  - subst fresh.
    replace (Setup.Threads o - length (threads s))%nat with 0%nat by lia.
    simpl. rewrite !app_nil_r. reflexivity.
  - rewrite take_ge by lia. rewrite (take_ge (threads s)) by lia. reflexivity.
Qed.

End SetupFacts.

Lemma read_uci_options_Ok_iff cap Sys o s :
  (∃ s', Setup.read_uci_options cap Sys o s = Ok s')
  ↔ (0 < Setup.Threads o)%nat
    ∧ ∀ i, (length (threads s) ≤ i < Setup.Threads o)%nat →
           Setup.thread_create Sys i = true.
Proof.
  unfold Setup.read_uci_options. cbv zeta.
  change (threads (Setup.set_options ?x ?y s)) with (threads s). split.
  - intros [s' Hrun].
    apply bind_Ok in Hrun as (u & Hpos & Hrun). apply assert_Ok in Hpos.
    apply Nat.ltb_lt in Hpos.
    apply bind_Ok in Hrun as (s2 & Hgrow & _).
    apply grow_Ok in Hgrow as [_ Hc]. split; [exact Hpos|].
    intros i Hi. apply Hc.
    change (threads (Setup.set_options ?x ?y s)) with (threads s). lia.
  - intros [Hpos Hc].
    destruct (grow_defined cap Sys (Setup.Threads o - length (threads s))
                (Setup.set_options (Setup.Max_Threads_per_Split_Point o)
                   (Setup.Min_Split_Depth o * Setup.ONE_PLY Sys) s))
      as [s2 Hs2].
    { intros i Hi. apply Hc.
      change (threads (Setup.set_options ?x ?y s)) with (threads s) in Hi. lia. }
    eexists. apply bind_Ok. exists tt. split.
    { apply assert_Ok. apply Nat.ltb_lt. exact Hpos. }
    apply bind_Ok. exists s2. split; [exact Hs2|reflexivity].
Qed.

(** X10. How [read_uci_options] ends: with [Threads = 0] its [assert] fails;
    when a thread it has to create cannot be created the process exits;
    otherwise it returns. Threads are created for the indices from the
    present size up to [Threads], so a call that does not grow the pool
    never exits. *)
Theorem read_uci_options_outcome
    (cap : Z) (Sys : Setup.System) (o : Setup.Options) (s : State) :
  (Setup.Threads o = 0%nat →
   Setup.read_uci_options cap Sys o s = AssertFailed)
  ∧ (∀ i, (0 < Setup.Threads o)%nat →
          (length (threads s) ≤ i < Setup.Threads o)%nat →
          Setup.thread_create Sys i = false →
          Setup.read_uci_options cap Sys o s = NoReturn)
  ∧ ((∃ s', Setup.read_uci_options cap Sys o s = Ok s')
     ↔ (0 < Setup.Threads o)%nat
       ∧ ∀ i, (length (threads s) ≤ i < Setup.Threads o)%nat →
              Setup.thread_create Sys i = true).
Proof.
  split; [|split; [|apply read_uci_options_Ok_iff]].
  - unfold Setup.read_uci_options. cbv zeta. intros ->. reflexivity.
  - intros i Hpos Hi Hc. unfold Setup.read_uci_options. cbv zeta.
    assert (Ha : assert (0 <? Setup.Threads o)%nat = Ok tt).
    { apply assert_Ok. apply Nat.ltb_lt. exact Hpos. }
    rewrite Ha. simpl.
    rewrite (grow_exits cap Sys _ _ i); [reflexivity| |exact Hc].
    change (threads (Setup.set_options ?x ?y s)) with (threads s). lia.
Qed.

(** X11. What [read_uci_options] leaves when it returns: [threads] has
    [Threads] elements, the first of them being the threads that were
    there, unchanged, and the others new threads, each idle with an empty
    stack and its place as [idx]; the two options are stored, the second
    one times [ONE_PLY]; the threads removed are notified from the last
    one down. *)
Theorem read_uci_options_result
    (cap : Z) (Sys : Setup.System) (o : Setup.Options) (s s' : State) :
  Setup.read_uci_options cap Sys o s = Ok s' →
  length (threads s') = Setup.Threads o
  ∧ threads s'
    = take (Setup.Threads o) (threads s)
      ++ map (Setup.fresh_thread cap)
             (seq (length (threads s)) (Setup.Threads o - length (threads s)))
  ∧ maxThreadsPerSplitPoint s' = Setup.Max_Threads_per_Split_Point o
  ∧ minimumSplitDepth s' = Setup.Min_Split_Depth o * Setup.ONE_PLY Sys
  ∧ sleepWhileIdle s' = sleepWhileIdle s
  ∧ positions s' = positions s
  ∧ moves s' = moves s
  ∧ notified (trace s')
    = notified (trace s)
      ++ rev (seq (Setup.Threads o) (length (threads s) - Setup.Threads o)).
Proof.
  intros Hrun. rewrite (read_uci_options_state cap Sys o s s' Hrun).
  unfold log, set_threads, Setup.set_options. simpl.
  split; [|split; [reflexivity|]].
  - rewrite length_app, length_map, length_seq, length_take. lia.
  - repeat split. rewrite notified_app, notified_notify_events. reflexivity.
Qed.

Lemma read_uci_options_result_witness :
  ∃ s', Setup.read_uci_options 8 SetupDemo.system (SetupDemo.options 2) (Demo.pool 4 3)
        = Ok s'
        ∧ map Thread.idx (threads s') = [0; 1]%nat
        ∧ notified (trace s') = [3; 2]%nat.
Proof.
  assert (Hrun : ∃ s', Setup.read_uci_options 8 SetupDemo.system (SetupDemo.options 2)
                         (Demo.pool 4 3) = Ok s').
  { eexists. vm_compute. reflexivity. }
  destruct Hrun as (s' & Hrun). exists s'. split; [exact Hrun|].
  destruct (read_uci_options_result 8 SetupDemo.system (SetupDemo.options 2)
              (Demo.pool 4 3) s' Hrun) as (_ & Hths & _ & _ & _ & _ & _ & Hn).
  rewrite Hths, Hn. split; reflexivity.
Defined.

Lemma fresh_thread_ok cap n : 0 <= cap → thread_ok cap (Setup.fresh_thread cap n).
Proof.
  intros Hcap. split.
  - simpl. lia.
  - simpl. apply length_replicate.
  - intros sp Hsp. simpl in Hsp. apply elem_of_replicate in Hsp as [-> _]. simpl. lia.
Qed.

Lemma read_uci_options_lookup cap Sys o s s' i th :
  Setup.read_uci_options cap Sys o s = Ok s' →
  threads s' !! i = Some th →
  ((i < length (threads s))%nat ∧ threads s !! i = Some th)
  ∨ ((length (threads s) ≤ i)%nat ∧ th = Setup.fresh_thread cap i).
Proof.
  intros Hrun Hi. rewrite (read_uci_options_state cap Sys o s s' Hrun) in Hi.
  rewrite threads_log in Hi. unfold set_threads in Hi. simpl in Hi.
  apply lookup_app_Some in Hi as [Hi|[Hge Hi]].
  - left. apply lookup_take_Some in Hi as [Hi _]. split; [|exact Hi].
    eapply lookup_lt_Some. exact Hi.
  - right. rewrite list_lookup_fmap in Hi.
    destruct (seq _ _ !! _) as [j|] eqn:Hj; simpl in Hi; [|discriminate].
    injection Hi as <-. apply lookup_seq in Hj as [-> Hlt].
    rewrite length_take in Hge |- *. rewrite length_take in Hlt.
    assert ((length (threads s) + (i - Setup.Threads o `min` length (threads s)))%nat = i)
      as -> by lia.
    split; [lia|reflexivity].
Qed.

(** X12. [read_uci_options] keeps the pool as [split] needs it: if every
    thread had its place in [threads] as its [idx], so has every thread
    after the call, the new ones included; and if every stack was within
    its array, so it is after the call. *)
Theorem read_uci_options_keeps_pool_ok
    (cap : Z) (Sys : Setup.System) (o : Setup.Options) (s s' : State) :
  0 <= cap →
  Setup.read_uci_options cap Sys o s = Ok s' →
  (idx_is_position (threads s) → idx_is_position (threads s'))
  ∧ (pool_ok cap (threads s) → pool_ok cap (threads s')).
Proof.
  intros Hcap Hrun. split.
  - intros Hidx i th Hi.
    destruct (read_uci_options_lookup cap Sys o s s' i th Hrun Hi) as [[_ H]|[_ ->]];
      [eauto|reflexivity].
  - intros Hok i th Hi.
    destruct (read_uci_options_lookup cap Sys o s s' i th Hrun Hi) as [[_ H]|[_ ->]];
      [eauto|apply fresh_thread_ok; exact Hcap].
Qed.

Lemma read_uci_options_keeps_pool_ok_witness :
  ∃ s', Setup.read_uci_options 8 SetupDemo.system (SetupDemo.options 6) (Demo.pool 4 3)
        = Ok s'
        ∧ pool_ok 8 (threads s')
        ∧ map Thread.idx (threads s') = [0; 1; 2; 3; 4; 5]%nat.
Proof.
  assert (Hrun : ∃ s', Setup.read_uci_options 8 SetupDemo.system (SetupDemo.options 6)
                         (Demo.pool 4 3) = Ok s'
                       ∧ map Thread.idx (threads s') = [0; 1; 2; 3; 4; 5]%nat).
  { eexists. split; vm_compute; reflexivity. }
  destruct Hrun as (s' & Hrun & Hidx). exists s'. split; [exact Hrun|].
  split; [|exact Hidx].
  apply (read_uci_options_keeps_pool_ok 8 SetupDemo.system (SetupDemo.options 6)
           (Demo.pool 4 3) s' ltac:(lia) Hrun). apply demo_pool_ok.
Defined.

(** X13. Growing the pool and then setting [Threads] back gives back the
    threads there were: the second call creates no thread, so it
    returns, and it removes exactly the threads that the first call
    added. *)
Theorem read_uci_options_grow_then_shrink
    (cap : Z) (Sys Sys' : Setup.System) (o o' : Setup.Options) (s s1 : State) :
  (0 < length (threads s))%nat →
  (length (threads s) ≤ Setup.Threads o)%nat →
  Setup.Threads o' = length (threads s) →
  Setup.read_uci_options cap Sys o s = Ok s1 →
  ∃ s2, Setup.read_uci_options cap Sys' o' s1 = Ok s2
        ∧ threads s2 = threads s
        ∧ notified (trace s2)
          = notified (trace s)
            ++ rev (seq (length (threads s)) (Setup.Threads o - length (threads s))).
Proof.
  intros Hpos Hle Hback Hrun.
  pose proof (read_uci_options_Ok_iff cap Sys' o' s1) as Hiff.
  pose proof (read_uci_options_state cap Sys o s s1 Hrun) as Hs1.
  assert (Hths1 : threads s1
                  = threads s ++ map (Setup.fresh_thread cap)
                                     (seq (length (threads s))
                                          (Setup.Threads o - length (threads s)))).
  { rewrite Hs1, threads_log. unfold set_threads. simpl.
    rewrite take_ge by lia. reflexivity. }
  assert (Hlen1 : length (threads s1) = Setup.Threads o).
  { rewrite Hths1, length_app, length_map, length_seq. lia. }
  destruct (proj2 Hiff) as [s2 Hrun2].
  { split; [lia|]. intros i Hi. lia. }
  exists s2. split; [exact Hrun2|].
  pose proof (read_uci_options_state cap Sys' o' s1 s2 Hrun2) as Hs2.
  rewrite Hs2. rewrite threads_log. unfold set_threads, log. simpl.
  rewrite Hlen1, Hback. split.
  - replace (length (threads s) - Setup.Threads o)%nat with 0%nat by lia.
    simpl. rewrite app_nil_r, Hths1. rewrite take_app_le by lia.
    apply take_ge. lia.
  - rewrite notified_app, notified_notify_events. f_equal.
    rewrite Hs1. unfold log. simpl.
    replace (length (threads s) - Setup.Threads o)%nat with 0%nat by lia.
    simpl. rewrite app_nil_r. reflexivity.
Qed.

Lemma read_uci_options_grow_then_shrink_witness :
  ∃ s1 s2,
    Setup.read_uci_options 8 SetupDemo.system (SetupDemo.options 6) (Demo.pool 4 3)
    = Ok s1
    ∧ Setup.read_uci_options 8 SetupDemo.small_system (SetupDemo.options 4) s1 = Ok s2
    ∧ threads s2 = threads (Demo.pool 4 3).
Proof.
  assert (Hrun : ∃ s1, Setup.read_uci_options 8 SetupDemo.system (SetupDemo.options 6)
                         (Demo.pool 4 3) = Ok s1).
  { eexists. vm_compute. reflexivity. }
  destruct Hrun as (s1 & Hrun).
  destruct (read_uci_options_grow_then_shrink 8 SetupDemo.system SetupDemo.small_system
              (SetupDemo.options 6) (SetupDemo.options 4) (Demo.pool 4 3) s1)
    as (s2 & Hrun2 & Hths & _).
  - simpl. lia.
  - simpl. lia.
  - reflexivity.
  - exact Hrun.
  - exists s1, s2. split; [exact Hrun|]. split; [exact Hrun2|exact Hths].
Defined.

Lemma slave_available_from_defined (E : Externals) (idxs : list nat) (m : nat)
    (s : State) (ma : Thread.t) :
  pool_ok (MAX_SPLITPOINTS_PER_THREAD E) (threads s) →
  threads s !! m = Some ma → (Thread.idx ma < 64)%nat →
  (∀ i, i ∈ idxs → (i < length (threads s))%nat) →
  ∃ b, ThreadPool.slave_available_from E idxs m s = Ok b.
Proof.
  intros Hok Hma Hm64. induction idxs as [|i rest IH]; intros Hidx; simpl; [eauto|].
  destruct (lookup_lt_is_Some_2 (threads s) i) as [th Hth].
  { apply Hidx. apply elem_of_cons. auto. }
  destruct (is_available_to_defined _ th ma (Hok _ _ Hth) Hm64) as [av Hav].
  rewrite Hth, Hma. simpl. rewrite Hav. simpl. destruct av; [eauto|].
  apply IH. intros j Hj. apply Hidx. apply elem_of_cons. auto.
Qed.

(** X14. A thread that [read_uci_options] has just created can be booked at
    once: after a call that grew a well-formed pool, [slave_available]
    answers true for every master that has a bit in the mask, that is an
    index below 64. *)
Theorem slave_available_after_growing
    (E : Externals) (Sys : Setup.System) (o : Setup.Options) (s s' : State)
    (m : nat) (ma : Thread.t) :
  0 <= MAX_SPLITPOINTS_PER_THREAD E →
  pool_ok (MAX_SPLITPOINTS_PER_THREAD E) (threads s) →
  Setup.read_uci_options (MAX_SPLITPOINTS_PER_THREAD E) Sys o s = Ok s' →
  (length (threads s) < Setup.Threads o)%nat →
  threads s' !! m = Some ma →
  (Thread.idx ma < 64)%nat →
  ThreadPool.slave_available E m s' = Ok true.
Proof.
  intros Hcap Hok Hrun Hgrow Hma Hm64.
  pose proof (read_uci_options_state _ Sys o s s' Hrun) as Hs'.
  assert (Hths : threads s'
                 = threads s ++ map (Setup.fresh_thread (MAX_SPLITPOINTS_PER_THREAD E))
                                    (seq (length (threads s))
                                         (Setup.Threads o - length (threads s)))).
  { rewrite Hs', threads_log. unfold set_threads. simpl.
    rewrite take_ge by lia. reflexivity. }
  assert (Hlen : length (threads s') = Setup.Threads o).
  { rewrite Hths, length_app, length_map, length_seq. lia. }
  assert (Hok' : pool_ok (MAX_SPLITPOINTS_PER_THREAD E) (threads s')).
  { intros i th Hi.
    destruct (read_uci_options_lookup _ Sys o s s' i th Hrun Hi) as [[_ H]|[_ ->]];
      [eauto|apply fresh_thread_ok; exact Hcap]. }
  unfold ThreadPool.slave_available.
  destruct (slave_available_from_defined E (seq 0 (length (threads s'))) m s' ma
              Hok' Hma Hm64) as [b Hb].
  { intros i Hi. apply elem_of_seq in Hi. lia. }
  rewrite Hb. f_equal. apply (slave_available_from_spec E _ m s' b Hb).
  exists (length (threads s)). split; [apply elem_of_seq; lia|].
  unfold ThreadPool.available.
  assert (Hnew : threads s' !! length (threads s)
                 = Some (Setup.fresh_thread (MAX_SPLITPOINTS_PER_THREAD E)
                           (length (threads s)))).
  { rewrite Hths, lookup_app_r by lia. rewrite Nat.sub_diag, list_lookup_fmap.
    rewrite lookup_seq_lt by lia. simpl. rewrite Nat.add_0_r. reflexivity. }
  rewrite Hnew, Hma. reflexivity.
Qed.

Lemma slave_available_after_growing_witness :
  ∃ s', Setup.read_uci_options 8 SetupDemo.system (SetupDemo.options 2) (Demo.pool 1 3)
        = Ok s'
        ∧ ThreadPool.slave_available Demo.externals 0 s' = Ok true.
Proof.
  assert (Hrun : ∃ s', Setup.read_uci_options 8 SetupDemo.system (SetupDemo.options 2)
                         (Demo.pool 1 3) = Ok s').
  { eexists. vm_compute. reflexivity. }
  destruct Hrun as (s' & Hrun). exists s'. split; [exact Hrun|].
  assert (Hma : threads s' !! 0%nat = Some (Demo.worker true 0)).
  { rewrite (read_uci_options_state 8 SetupDemo.system (SetupDemo.options 2)
               (Demo.pool 1 3) s' Hrun). reflexivity. }
  apply (slave_available_after_growing Demo.externals SetupDemo.system
           (SetupDemo.options 2) (Demo.pool 1 3) s' 0 (Demo.worker true 0)).
  - simpl. lia.
  - apply demo_pool_ok.
  - exact Hrun.
  - simpl. lia.
  - exact Hma.
  - simpl. lia.
Defined.

Import Rendezvous.

(** ** Thread::wait_for and the start of a search *)


Lemma wait_for_loop_until_true i k rest :
  wait_for_loop i (replicate k false ++ true :: rest)
  = (concat (replicate k [Sees Flag false; Wait (ThreadCondition i) (ThreadMutex i)])
     ++ [Sees Flag true; Do (Unlock (ThreadMutex i))], true).
Proof.
  induction k as [|k IH]; [reflexivity|]. simpl. rewrite IH. reflexivity.
Qed.

Lemma wait_for_loop_all_false i k :
  wait_for_loop i (replicate k false)
  = (concat (replicate k [Sees Flag false; Wait (ThreadCondition i) (ThreadMutex i)]),
     false).
Proof.
  induction k as [|k IH]; [reflexivity|]. simpl. rewrite IH. reflexivity.
Qed.

(** X15. [wait_for(b)] locks the thread's mutex, waits on the thread's
    condition once for every read of [b] that gives false, and unlocks
    and returns at the first read that gives true, without a wait when
    [b] is true at the first read; it reads [b] no more after that, and
    it does not return while every read gives false. *)
Theorem wait_for_returns_at_first_true (i : nat) (k : nat) (rest : list bool) :
  wait_for i (replicate k false ++ true :: rest)
  = (Do (Lock (ThreadMutex i))
     :: concat (replicate k [Sees Flag false;
                             Wait (ThreadCondition i) (ThreadMutex i)])
     ++ [Sees Flag true; Do (Unlock (ThreadMutex i))], true)
  ∧ wait_for i (replicate k false)
    = (Do (Lock (ThreadMutex i))
       :: concat (replicate k [Sees Flag false;
                               Wait (ThreadCondition i) (ThreadMutex i)]), false).
Proof.
  unfold wait_for.
  rewrite wait_for_loop_until_true, wait_for_loop_all_false. split; reflexivity.
Qed.

Lemma think_finished_loop_until_false k rest :
  think_finished_loop (replicate k true ++ false :: rest)
  = (concat (replicate k [Sees Thinking true; Wait PoolCondition (ThreadMutex 0)])
     ++ [Sees Thinking false; Do (Unlock (ThreadMutex 0))], true).
Proof.
  induction k as [|k IH]; [reflexivity|]. simpl. rewrite IH. reflexivity.
Qed.

Lemma think_finished_loop_all_true k :
  think_finished_loop (replicate k true)
  = (concat (replicate k [Sees Thinking true; Wait PoolCondition (ThreadMutex 0)]),
     false).
Proof.
  induction k as [|k IH]; [reflexivity|]. simpl. rewrite IH. reflexivity.
Qed.

Lemma collect_root_moves_filter legal searchMoves acc :
  collect_root_moves legal searchMoves acc
  = acc ++ List.filter (searched searchMoves) legal.
Proof.
  revert acc. induction legal as [|m rest IH]; intros acc; simpl.
  - rewrite app_nil_r. reflexivity.
  - fold (searched searchMoves m). destruct (searched searchMoves m); rewrite IH.
    + rewrite <- app_assoc. reflexivity.
    + reflexivity.
Qed.

Lemma searched_iff searchMoves m :
  searched searchMoves m = true ↔ searchMoves = [] ∨ m ∈ searchMoves.
Proof.
  unfold searched. destruct searchMoves as [|x l]; simpl.
  - split; auto.
  - rewrite negb_true_iff, Nat.eqb_neq. split.
    + intros Hc. right. apply list_elem_of_In.
      apply (count_occ_In Z.eq_dec). simpl. lia.
    + intros [?|Hin]; [discriminate|].
      apply list_elem_of_In, (count_occ_In Z.eq_dec) in Hin. simpl in Hin. lia.
Qed.

(** X16. The root moves that [start_thinking] collects are the legal moves,
    in the order of the move list, that are among [searchMoves], and all
    the legal moves when [searchMoves] is empty: a move of [searchMoves]
    that is not legal is dropped, one listed twice is taken once, and
    with no legal move among [searchMoves] the list is empty. *)
Theorem root_moves_are_the_legal_moves_searched (legal searchMoves : list Move) :
  collect_root_moves legal searchMoves [] = List.filter (searched searchMoves) legal
  ∧ sublist (collect_root_moves legal searchMoves []) legal
  ∧ (∀ m, m ∈ collect_root_moves legal searchMoves []
          ↔ m ∈ legal ∧ (searchMoves = [] ∨ m ∈ searchMoves))
  ∧ collect_root_moves legal [] [] = legal
  ∧ ((∀ m, m ∈ searchMoves → m ∉ legal) → searchMoves ≠ [] →
     collect_root_moves legal searchMoves [] = []).
Proof.
  rewrite !collect_root_moves_filter. simpl.
  assert (Hmem : ∀ m, m ∈ List.filter (searched searchMoves) legal
                      ↔ m ∈ legal ∧ (searchMoves = [] ∨ m ∈ searchMoves)).
  { intros m. rewrite <- searched_iff, !list_elem_of_In. apply filter_In. }
  split; [reflexivity|]. split; [|split; [exact Hmem|split]].
  - clear Hmem. induction legal as [|m rest IH]; simpl; [constructor|].
    destruct (searched searchMoves m); [apply sublist_skip|apply sublist_cons]; exact IH.
  - clear Hmem. induction legal as [|m rest IH]; simpl; [reflexivity|]. f_equal. exact IH.
  - intros Hnone Hne.
    assert (Hno : ∀ m, m ∉ List.filter (searched searchMoves) legal).
    { intros m Hin. apply Hmem in Hin as [Hleg [?|Hs]]; [done|].
      exact (Hnone m Hs Hleg). }
    clear Hmem.
    destruct (List.filter (searched searchMoves) legal) as [|m l]; [reflexivity|].
    destruct (Hno m). apply list_elem_of_here.
Qed.

Section StartThinkingFacts.

Context {P L S : Type}.
Variable copy_position : P → P.
Variable legal_moves : P → list Move.
Variable assign_states : S → S * S.

Lemma write_pushes now pos limits states (l : list Move) (g : @Globals P L S) :
  fold_left (fun g w => write copy_position assign_states now pos limits states w g)
            (map RootMovesPush l) g
  = mkGlobals (SearchTime g) (Signals g) (RootPos g) (Limits g) (SetupStates g)
              (RootMoves g ++ l).
Proof.
  revert g. induction l as [|m l IH]; intros g; simpl.
  - rewrite app_nil_r. destruct g; reflexivity.
  - rewrite IH. simpl. rewrite <- app_assoc. reflexivity.
Qed.

(** X17. [start_thinking] waits, on the pool's condition and with the main
    thread's mutex, as long as it reads [thinking] as true, and goes on
    at the first read that gives false. It then writes the globals of the
    search, in this order: the time of the call, the four signals, the
    position, the limits, [SetupStates] as assigned from [states], and
    [RootMoves], cleared and then filled with the legal moves searched.
    Only after these writes it sets [thinking], and only after that it
    notifies the main thread, under the main thread's mutex. While every
    read of [thinking] gives true it has not returned and has written
    nothing. *)
Theorem start_thinking_waits_then_sets_up
    (now : Z) (pos : P) (limits : L) (searchMoves : list Move)
    (states : S) (g : Globals) (k : nat) (rest : list bool) :
  start_thinking copy_position legal_moves assign_states now pos limits searchMoves
    states (replicate k true ++ false :: rest) g
  = (Do (Lock (ThreadMutex 0))
     :: concat (replicate k [Sees Thinking true; Wait PoolCondition (ThreadMutex 0)])
     ++ [Sees Thinking false; Do (Unlock (ThreadMutex 0))]
     ++ map Writes
          ([ToSearchTime;
            ToSignal FirstRootMove; ToSignal StopOnPonderhit;
            ToSignal FailedLowAtRoot; ToSignal Stop;
            ToRootPos; ToLimits; ToSetupStates; RootMovesClear]
           ++ map RootMovesPush
                (List.filter (searched searchMoves) (legal_moves pos)))
     ++ [Sets Thinking true;
         Do (Lock (ThreadMutex 0)); Do (NotifyOne 0); Do (Unlock (ThreadMutex 0))],
     Some (mkGlobals now (mkSignals false false false false) (copy_position pos)
             limits (assign_states states).1
             (List.filter (searched searchMoves) (legal_moves pos)),
           (assign_states states).2))
  ∧ start_thinking copy_position legal_moves assign_states now pos limits searchMoves
      states (replicate k true) g
    = (Do (Lock (ThreadMutex 0))
       :: concat (replicate k [Sees Thinking true;
                               Wait PoolCondition (ThreadMutex 0)]),
       None).
Proof.
  unfold start_thinking, wait_for_think_finished, set_up.
  rewrite think_finished_loop_until_false, think_finished_loop_all_true.
  rewrite collect_root_moves_filter. cbn [app].
  split; [|reflexivity]. f_equal.
  - cbn [app]. f_equal. rewrite <- app_assoc. reflexivity.
  - f_equal. f_equal. cbn [fold_left app]. rewrite write_pushes. reflexivity.
Qed.

End StartThinkingFacts.

Lemma main_run_allowed i reads : ∀ pt searching,
  main_allowed (held_at pt) searching (main_run i pt reads).1 = true.
Proof.
  induction reads as [|b rest IH]; intros pt sr; [reflexivity|].
  destruct pt, b; cbn [main_run then_ fst snd app main_allowed held_at negb andb];
    try reflexivity.
  - apply (IH AtExitAfterLoop).
  - apply (IH AtExitInLoop).
  - apply (IH AtExitAfterLoop).
  - apply (IH AtThinking).
  - apply (IH AtSearching).
  - apply (IH AtThinking).
Qed.

Lemma main_run_returned i reads : ∀ pt,
  (main_run i pt reads).2 = Returned →
  (pt = AtExitAfterLoop ∧ (main_run i pt reads).1 = [Sees Exit true])
  ∨ ∃ tr, (main_run i pt reads).1
          = tr ++ [Do (Unlock (ThreadMutex i)); Sees Exit true].
Proof.
  induction reads as [|b rest IH]; intros pt; [discriminate|].
  destruct pt, b; cbn [main_run then_ fst snd]; intros Hr;
    try discriminate;
    try (left; split; reflexivity);
    right; destruct (IH _ Hr) as [[Hpt ->]|[tr ->]]; try discriminate.
  - exists [Sees Thinking true]. reflexivity.
  - eexists. rewrite app_assoc. reflexivity.
  - eexists. rewrite app_assoc. reflexivity.
  - exists [Sees Exit true]. reflexivity.
  - eexists. rewrite app_assoc. reflexivity.
  - eexists. rewrite app_assoc. reflexivity.
  - eexists. rewrite app_assoc. reflexivity.
  - eexists. rewrite app_assoc. reflexivity.
Qed.

Lemma main_run_assert_fails i reads : ∀ pt,
  (main_run i pt reads).2 = AssertFails →
  (pt = AtSearching ∧ (main_run i pt reads).1 = [Sees Searching false])
  ∨ ∃ tr, (main_run i pt reads).1 = tr ++ [Think; Sees Searching false].
Proof.
  induction reads as [|b rest IH]; intros pt; [discriminate|].
  destruct pt, b; cbn [main_run then_ fst snd]; intros Hr;
    try discriminate;
    try (left; split; reflexivity);
    right; destruct (IH _ Hr) as [[Hpt ->]|[tr ->]]; try discriminate.
  - eexists. rewrite app_assoc. reflexivity.
  - eexists. rewrite app_assoc. reflexivity.
  - eexists. rewrite app_assoc. reflexivity.
  - eexists. rewrite app_assoc. reflexivity.
  - exists [Sees Exit false; Sets Searching true]. reflexivity.
  - eexists. rewrite app_assoc. reflexivity.
  - eexists. rewrite app_assoc. reflexivity.
Qed.

(** X18. [MainThread::idle_loop], whatever the flags read: it locks its mutex
    only when it does not hold it and unlocks it only when it does; it
    clears [thinking], signals the pool's condition and waits with the
    mutex held; it sets [searching] and calls [think()] with the mutex
    released, and [searching] is set when [think()] is called. It
    returns only on reading [exit] as true right after releasing the
    mutex, and the assertion can fail only on the read of [searching]
    that follows [think()]. *)
Theorem main_idle_loop_discipline (i : nat) (reads : list bool) :
  main_allowed false false (main_idle_loop i reads).1 = true
  ∧ ((main_idle_loop i reads).2 = Returned →
     ∃ tr, (main_idle_loop i reads).1
           = tr ++ [Do (Unlock (ThreadMutex i)); Sees Exit true])
  ∧ ((main_idle_loop i reads).2 = AssertFails →
     ∃ tr, (main_idle_loop i reads).1 = tr ++ [Think; Sees Searching false]).
Proof.
  unfold main_idle_loop. cbn [then_ fst snd app main_allowed negb andb].
  split; [apply (main_run_allowed i reads AtThinking)|]. split; intros Hr.
  - destruct (main_run_returned i reads _ Hr) as [[Hpt _]|[tr ->]]; [discriminate|].
    exists (Do (Lock (ThreadMutex i)) :: Sets Thinking false :: tr). reflexivity.
  - destruct (main_run_assert_fails i reads _ Hr) as [[Hpt _]|[tr ->]]; [discriminate|].
    exists (Do (Lock (ThreadMutex i)) :: Sets Thinking false :: tr). reflexivity.
Qed.
